(** * A Power BI timeline visual: data mapper and renderer

    Shallow embedding of [src/visual.ts].  The visual receives a table from
    its host, maps every row to a display record ([transformData]) and draws
    a horizontal time line with one circle per distinct date ([update],
    [basicTimeline]); hovering a circle shows a tooltip.

    Conventions of the embedding.
    - A JavaScript string is a [string]; one [ascii] stands for one code
      unit, so [length] and [substring] count as the source does.
    - A table cell is observed by the source only through [toString()], so a
      cell is either a value carrying the text its [toString()] returns, or
      [null].  Reading a row out of range gives [undefined].
    - A call that may raise returns a [completion]; the fields of the
      [Visual] instance are threaded through a small state monad in which a
      raise keeps the state reached so far.
    - Time values are integral (milliseconds since the epoch) or NaN, as in
      ECMAScript.  Viewport lengths and positions are binary64 Numbers,
      held as the rationals they denote: every arithmetic operation of the
      source and of d3 on them gives the exact result rounded to the
      nearest binary64 value ([JS.round64]).
    - The host's time zone and the engine's parser for date strings outside
      the ECMAScript date format are parameters of the development.
    - d3 is a dependency, not part of the sources: its functions used by the
      visual ([scaleOrdinal], [min], [max], [group], [scaleTime]) are
      embedded after the library's published algorithms.
    - Left out: [console.log] and the formatting settings. *)

From Stdlib Require Import ZArith QArith Qpower Qround.
From Stdlib Require Import List String Ascii Bool Lia Lqa.
From Stdlib Require Import Permutation.
Import ListNotations.

Local Open Scope string_scope.
Local Open Scope Z_scope.

(* ================================================================== *)
(** * JavaScript primitives used by the source *)

Module JS.

Inductive error : Type :=
| TypeError.

(** The outcome of evaluating an expression or a statement list. *)
Inductive completion (A : Type) : Type :=
| Normal (a : A)
| Throw (e : error).
Arguments Normal {A} a.
Arguments Throw {A} e.

(** An integral Number or NaN ([None]): time values and date fields. *)
Definition integral : Type := option Z.

(** A Number of the renderer: NaN or a finite value, held as the rational
    it denotes. *)
Inductive number : Type :=
| NaN
| Num (q : Q).

(** Arithmetic on Numbers.  ECMAScript gives for [x + y], [x - y], [x * y]
    and [x / y] the exact result rounded to the nearest binary64 value,
    ties to even.  A binary64 value is an integer below 2^53 in magnitude
    times a power of two not below 2^-1074.  Infinity is not modelled: a
    result beyond the largest binary64 value is kept with its 53 bits.
    The source divides by 2 and by a difference that d3 has tested
    against zero only. *)

(** The exponent [k] of a positive [x]: [2^k <= x < 2^(k+1)]. *)
Definition exponentOf (x : Q) : Z :=
  let k0 := Z.log2 (Qnum x) - Z.log2 (Zpos (Qden x)) in
  if Qle_bool (2 ^ k0) x then k0 else k0 - 1.

(** The integer nearest to [y], the even one of two at the same distance. *)
Definition roundTiesToEven (y : Q) : Z :=
  let n := Qfloor y in
  match (y - inject_Z n ?= 1 # 2)%Q with
  | Lt => n
  | Gt => n + 1
  | Eq => if Z.even n then n else n + 1
  end.

(** The binary64 value nearest to a positive [x]: a multiple of [2^e],
    where [e] leaves 53 bits to the multiple and is not below the least
    exponent. *)
Definition nearest (x : Q) : Q :=
  let e := Z.max (exponentOf x - 52) (- 1074) in
  (inject_Z (roundTiesToEven (x / 2 ^ e)) * 2 ^ e)%Q.

(** The binary64 value nearest to [q]. *)
Definition round64 (q : Q) : Q :=
  let x := Qred q in
  match Qnum x with
  | 0 => 0%Q
  | Zpos _ => nearest x
  | Zneg _ => (- nearest (- x))%Q
  end.

Definition add64 (x y : Q) : Q := round64 (x + y).
Definition sub64 (x y : Q) : Q := round64 (x - y).
Definition mul64 (x y : Q) : Q := round64 (x * y).
Definition div64 (x y : Q) : Q := round64 (x / y).

(** The character of a decimal digit. *)
Definition digitChar (k : Z) : ascii := ascii_of_nat (48 + Z.to_nat k).

(** The decimal digits of [n >= 0] put before [acc], last digit first;
    [fuel] bounds the number of further digits. *)
Fixpoint decimal (fuel : nat) (n : Z) (acc : string) : string :=
  let acc' := String (digitChar (n mod 10)) acc in
  match fuel with
  | O => acc'
  | S fuel' => if n / 10 =? 0 then acc' else decimal fuel' (n / 10) acc'
  end.

(** The decimal text of [n >= 0]; a number has no more decimal digits than
    binary ones, which bounds the recursion. *)
Definition decimalOfNat (n : Z) : string :=
  decimal (Z.to_nat (Z.log2 n)) n "".

(** [String(n)] for an integral Number. *)
Definition String_ (n : integral) : string :=
  match n with
  | None => "NaN"
  | Some z => if z <? 0 then "-" ++ decimalOfNat (- z) else decimalOfNat z
  end.

(** [s.substring(start, end)]: both indices are clamped to the length and
    swapped when out of order. *)
Definition substring (s : string) (start end_ : nat) : string :=
  let len := String.length s in
  let lo := Nat.min (Nat.min start end_) len in
  let hi := Nat.min (Nat.max start end_) len in
  String.substring lo (hi - lo) s.

(** The filler of [padStart]: [fill] repeated and cut to [n] code units. *)
Fixpoint filler (fill rest : string) (n : nat) : string :=
  match n with
  | O => ""
  | S n' =>
      match rest with
      | String c rest' => String c (filler fill rest' n')
      | EmptyString =>
          match fill with
          | String c fill' => String c (filler fill fill' n')
          | EmptyString => ""
          end
      end
  end.

(** [s.padStart(maxLength, fillString)]. *)
Definition padStart (s : string) (maxLength : nat) (fillString : string)
  : string :=
  let len := String.length s in
  if (maxLength <=? len)%nat then s
  else if String.eqb fillString "" then s
  else filler fillString fillString (maxLength - len) ++ s.

(** [xs.join(sep)] on an array of strings. *)
Fixpoint join (sep : string) (xs : list string) : string :=
  match xs with
  | [] => ""
  | [x] => x
  | x :: rest => x ++ sep ++ join sep rest
  end.

End JS.

Import JS.

(* ================================================================== *)
(** * Dates (ECMAScript, Date objects) *)

Module DateTime.

Definition msPerDay : Z := 86400000.

Definition Day (t : Z) : Z := t / msPerDay.

Definition DaysInYear (y : Z) : Z :=
  if negb (y mod 4 =? 0) then 365
  else if negb (y mod 100 =? 0) then 366
  else if negb (y mod 400 =? 0) then 365
  else 366.

Definition DayFromYear (y : Z) : Z :=
  365 * (y - 1970) + (y - 1969) / 4 - (y - 1901) / 100 + (y - 1601) / 400.

Definition TimeFromYear (y : Z) : Z := msPerDay * DayFromYear y.

(** The year of a day number: an estimate from the mean length of a
    Gregorian year, corrected by at most one year.  [YearFromTime] below
    is proved to be the year ECMAScript defines (the largest [y] with
    [TimeFromYear y <= t]). *)
Definition YearFromDay (d : Z) : Z :=
  let y := 1970 + (400 * d) / 146097 in
  if d <? DayFromYear y then y - 1
  else if DayFromYear (y + 1) <=? d then y + 1
  else y.

Definition YearFromTime (t : Z) : Z := YearFromDay (Day t).

Definition InLeapYear (t : Z) : Z :=
  if DaysInYear (YearFromTime t) =? 366 then 1 else 0.

Definition DayWithinYear (t : Z) : Z :=
  Day t - DayFromYear (YearFromTime t).

(** First day (within the year) of each month, January being month 0. *)
Definition monthStart (leap m : Z) : Z :=
  match m with
  | 0 => 0
  | 1 => 31
  | 2 => 59 + leap
  | 3 => 90 + leap
  | 4 => 120 + leap
  | 5 => 151 + leap
  | 6 => 181 + leap
  | 7 => 212 + leap
  | 8 => 243 + leap
  | 9 => 273 + leap
  | 10 => 304 + leap
  | 11 => 334 + leap
  | _ => 365 + leap
  end.

Definition MonthFromTime (t : Z) : Z :=
  let d := DayWithinYear t in
  let leap := InLeapYear t in
  if d <? 31 then 0
  else if d <? 59 + leap then 1
  else if d <? 90 + leap then 2
  else if d <? 120 + leap then 3
  else if d <? 151 + leap then 4
  else if d <? 181 + leap then 5
  else if d <? 212 + leap then 6
  else if d <? 243 + leap then 7
  else if d <? 273 + leap then 8
  else if d <? 304 + leap then 9
  else if d <? 334 + leap then 10
  else 11.

Definition DateFromTime (t : Z) : Z :=
  DayWithinYear t + 1 - monthStart (InLeapYear t) (MonthFromTime t).

End DateTime.

Module ISO.
Import DateTime.

(** The value of a decimal digit. *)
Definition digit (c : ascii) : option Z :=
  let n := nat_of_ascii c in
  if ((48 <=? n) && (n <=? 57))%nat then Some (Z.of_nat (n - 48)) else None.

Definition digits2 (a b : ascii) : option Z :=
  match digit a, digit b with
  | Some x, Some y => Some (10 * x + y)
  | _, _ => None
  end.

Definition digits4 (a b c d : ascii) : option Z :=
  match digits2 a b, digits2 c d with
  | Some x, Some y => Some (100 * x + y)
  | _, _ => None
  end.

(** Number of days of month [m] (0..11) of year [y]. *)
Definition DaysInMonth (y m : Z) : Z :=
  let leap := if DaysInYear y =? 366 then 1 else 0 in
  monthStart leap (m + 1) - monthStart leap m.

(** [MakeDay(year, month, date)] for a month in 0..11: the day number. *)
Definition MakeDay (y m d : Z) : Z :=
  let leap := if DaysInYear y =? 366 then 1 else 0 in
  DayFromYear y + monthStart leap m + (d - 1).

(** The date-only form [YYYY-MM-DD] of the ECMAScript date-time string
    format, which every engine reads as midnight UTC of that day.  A
    string of another shape, or one whose month or day is out of range,
    is not decided here. *)
Definition parseDateOnly (s : string) : option Z :=
  match s with
  | String y1 (String y2 (String y3 (String y4 (String "-"
      (String m1 (String m2 (String "-"
        (String d1 (String d2 EmptyString))))))))) =>
      match digits4 y1 y2 y3 y4, digits2 m1 m2, digits2 d1 d2 with
      | Some y, Some m, Some d =>
          if (1 <=? m) && (m <=? 12) && (1 <=? d)
             && (d <=? DaysInMonth y (m - 1))
          then Some (msPerDay * MakeDay y (m - 1) d)
          else None
      | _, _, _ => None
      end
  | _ => None
  end.

End ISO.

(* ================================================================== *)
(** * The d3 functions the visual calls *)

Module D3.

(** ** [d3.scaleOrdinal]

    The scale keeps the [domain] of the labels seen so far, in order of
    first call, and a [range] of output values; its internal index maps a
    label to its position in [domain], which [index_of] recomputes. *)
Record ScaleOrdinal : Type := mkScaleOrdinal {
  domain : list string;
  range : list string
}.

(** [d3.scaleOrdinal()] without arguments: empty domain, empty range. *)
Definition scaleOrdinal : ScaleOrdinal :=
  {| domain := []; range := [] |}.

Fixpoint index_of (d : string) (dom : list string) : option nat :=
  match dom with
  | [] => None
  | x :: rest =>
      if String.eqb x d then Some O
      else option_map S (index_of d rest)
  end.

(** [range[i % range.length]]; [undefined] ([None]) on an empty range,
    where the remainder is NaN. *)
Definition range_at (rng : list string) (i : nat) : option string :=
  match List.length rng with
  | O => None
  | S _ as n => nth_error rng (i mod n)%nat
  end.

(** A call [scale(d)]: the value returned and the scale afterwards. *)
Definition call (s : ScaleOrdinal) (d : string)
  : option string * ScaleOrdinal :=
  match index_of d (domain s) with
  | Some i => (range_at (range s) i, s)
  | None =>
      (range_at (range s) (List.length (domain s)),
       {| domain := (domain s ++ [d])%list; range := range s |})
  end.

(** ** [d3.min] and [d3.max] with an accessor

    A value that is [undefined] or does not compare with itself (NaN, an
    invalid Date) is skipped; the result is [undefined] ([None]) when
    nothing is left. *)
Definition min_step (acc : option Z) (value : option Z) : option Z :=
  match value with
  | None => acc
  | Some v =>
      match acc with
      | None => Some v
      | Some m => if m >? v then Some v else Some m
      end
  end.

Definition max_step (acc : option Z) (value : option Z) : option Z :=
  match value with
  | None => acc
  | Some v =>
      match acc with
      | None => Some v
      | Some m => if m <? v then Some v else Some m
      end
  end.

Definition min {A : Type} (values : list A) (valueof : A -> option Z)
  : option Z :=
  fold_left (fun acc d => min_step acc (valueof d)) values None.

Definition max {A : Type} (values : list A) (valueof : A -> option Z)
  : option Z :=
  fold_left (fun acc d => max_step acc (valueof d)) values None.

(** ** [d3.group] with one key

    The result is a Map, iterated in the order its keys were first
    inserted; each group lists its values in the order met. *)
Fixpoint group_add {A : Type} (k : string) (v : A)
  (groups : list (string * list A)) : list (string * list A) :=
  match groups with
  | [] => [(k, [v])]
  | (k', vs) :: rest =>
      if String.eqb k' k then (k', (vs ++ [v])%list) :: rest
      else (k', vs) :: group_add k v rest
  end.

Definition group {A : Type} (values : list A) (keyof : A -> string)
  : list (string * list A) :=
  fold_left (fun groups v => group_add (keyof v) v groups) values [].

(** ** [d3.scaleTime] with a two-point domain and range

    The domain holds time values (NaN when given [undefined]). *)
Record ScaleTime : Type := mkScaleTime {
  d0 : option Z;
  d1 : option Z;
  r0 : Q;
  r1 : Q
}.

(** [normalize(a, b)]: [(x - a) / b] after [b -= a], the position of [x]
    between [a] and [b]; the constant 0.5 when that difference is zero,
    NaN when it is NaN. *)
Definition normalize (a b : option Z) (x : Z) : number :=
  match a, b with
  | Some a, Some b =>
      let b := sub64 (inject_Z b) (inject_Z a) in
      if Qeq_bool b 0 then Num (1 # 2)
      else Num (div64 (sub64 (inject_Z x) (inject_Z a)) b)
  | _, _ => NaN
  end.

(** [interpolateNumber(a, b)(t)]: [a * (1 - t) + b * t]. *)
Definition interpolateNumber (a b : Q) (t : number) : number :=
  match t with
  | NaN => NaN
  | Num t => Num (add64 (mul64 a (sub64 1 t)) (mul64 b t))
  end.

Definition lt_time (a b : option Z) : bool :=
  match a, b with
  | Some a, Some b => a <? b
  | _, _ => false
  end.

(** [bimap]: a domain given in decreasing order is turned around. *)
Definition bimap (s : ScaleTime) (x : Z) : number :=
  if lt_time (d1 s) (d0 s)
  then interpolateNumber (r1 s) (r0 s) (normalize (d1 s) (d0 s) x)
  else interpolateNumber (r0 s) (r1 s) (normalize (d0 s) (d1 s) x).

(** [scale(x)] for a Date [x]: [undefined] ([None]) for an invalid Date. *)
Definition apply (s : ScaleTime) (x : option Z) : option number :=
  match x with
  | None => None
  | Some x => Some (bimap s x)
  end.

End D3.

(* ================================================================== *)
(** * Data model of the visual *)

(** [interface Data]: one display record per table row.  [color] and
    [symbol] hold what the ordinal scales return, which may be
    [undefined] ([None]). *)
Record Data : Type := mkData {
  date : string;
  dateDisplay : string;
  event : string;
  eventDisplay : string;
  description : string;
  colorAttribute : string;
  color : option string;
  symbolAttribute : string;
  symbol : option string
}.

(** A cell of a table row, as far as the source looks at it: a value with
    the text its [toString()] gives, or [null]. *)
Inductive Cell : Type :=
| Value (text : string)
| Null.

(** [column.roles]: for each of the five role names, whether the flag is
    truthy. *)
Record Roles : Type := mkRoles {
  Date : bool;
  Event : bool;
  Description : bool;
  Color : bool;
  Symbol : bool
}.

Record Column : Type := mkColumn {
  roles : Roles
}.

(** [powerbi.DataViewTable]. *)
Record DataViewTable : Type := mkTable {
  columns : list Column;
  rows : list (list Cell)
}.

(** [idColumns]: the column index found for each role, [null] ([None])
    while none was found. *)
Record IdColumns : Type := mkIdColumns {
  id_Date : option nat;
  id_Event : option nat;
  id_Description : option nat;
  id_Color : option nat;
  id_Symbol : option nat
}.

(** ** What is drawn into the target element *)

Record Line : Type := mkLine {
  x1 : Q;
  x2 : Q;
  y1 : Q;
  y2 : Q;
  line_stroke : string;
  line_stroke_width : Z
}.

(** A circle; [cx] is absent ([None]) when the time scale returned
    [undefined], [Some NaN] when it returned NaN. *)
Record Circle : Type := mkCircle {
  cx : option number;
  cy : Q;
  r : Z;
  fill : string;
  stroke : string;
  stroke_width : Z
}.

(** A marker: the circle of one date, the records its handlers captured
    ([events]), and the duration in ms of the transition that last set the
    circle's attributes ([None] before any).  The circle holds the values a
    transition ends on. *)
Record Marker : Type := mkMarker {
  key : string;
  circle : Circle;
  events : list Data;
  transition : option Z
}.

(** The tooltip [div]: its content and the styles that change. *)
Record Tooltip : Type := mkTooltip {
  html : string;
  visibility : string;
  top : option string;
  left : option string
}.

Record Scene : Type := mkScene {
  svg_width : Q;
  svg_height : Q;
  line : Line;
  markers : list Marker;
  tooltip : Tooltip
}.

(** The fields of a [Visual] instance that the code reads or writes, and
    the content of its [target] element ([None] while empty). *)
Record Visual : Type := mkVisual {
  data : list Data;
  colorScale : D3.ScaleOrdinal;
  symbolScale : D3.ScaleOrdinal;
  target : option Scene
}.

Record VisualUpdateOptions : Type := mkOptions {
  table : DataViewTable;
  viewport_width : Q;
  viewport_height : Q
}.

(** ** Methods as state transformers that may raise *)

Definition M (A : Type) : Type := Visual -> completion A * Visual.

Definition ret {A : Type} (a : A) : M A := fun v => (Normal a, v).

Definition bind {A B : Type} (c : M A) (k : A -> M B) : M B :=
  fun v =>
    match c v with
    | (Normal a, v') => k a v'
    | (Throw e, v') => (Throw e, v')
    end.

Definition throw {A : Type} (e : error) : M A := fun v => (Throw e, v).

Notation "x <- c ;; k" := (bind c (fun x => k))
  (at level 61, c at next level, right associativity).

(* ================================================================== *)
(** * The code of [visual.ts] *)

(** [formatStringDisplay(input)]. *)
Definition formatStringDisplay (input : string) : string :=
  if (String.length input <=? 10)%nat then input
  else JS.substring input 0 7 ++ "...".

(** [new Visual(options)]: no data, two fresh ordinal scales, nothing
    drawn. *)
Definition constructor : Visual :=
  {| data := [];
     colorScale := D3.scaleOrdinal;
     symbolScale := D3.scaleOrdinal;
     target := None |}.

(** [this.colorScale(label)] and [this.symbolScale(label)]. *)
Definition call_colorScale (label : string) : M (option string) :=
  fun v =>
    let (value, s) := D3.call (colorScale v) label in
    (Normal value,
     {| data := data v; colorScale := s;
        symbolScale := symbolScale v; target := target v |}).

Definition call_symbolScale (label : string) : M (option string) :=
  fun v =>
    let (value, s) := D3.call (symbolScale v) label in
    (Normal value,
     {| data := data v; colorScale := colorScale v;
        symbolScale := s; target := target v |}).

(** [row[i]] for [i] taken from [idColumns]: [undefined] ([None]) when [i]
    is [null] or beyond the row. *)
Definition at_ (row : list Cell) (i : option nat) : option Cell :=
  match i with
  | Some n => nth_error row n
  | None => None
  end.

(** [x.toString()] on what was read from a row: a TypeError on [undefined]
    and on [null]. *)
Definition toString (x : option Cell) : M string :=
  match x with
  | Some (Value text) => ret text
  | Some Null => throw TypeError
  | None => throw TypeError
  end.

(** The body of [table.columns.forEach((column, i) => ...)]. *)
Definition scanColumn (idColumns : IdColumns) (i : nat) (column : Column)
  : IdColumns :=
  let role := roles column in
  {| id_Date := if Date role then Some i else id_Date idColumns;
     id_Event := if Event role then Some i else id_Event idColumns;
     id_Description :=
       if Description role then Some i else id_Description idColumns;
     id_Color := if Color role then Some i else id_Color idColumns;
     id_Symbol := if Symbol role then Some i else id_Symbol idColumns |}.

Fixpoint scanColumns (cols : list Column) (i : nat) (idColumns : IdColumns)
  : IdColumns :=
  match cols with
  | [] => idColumns
  | column :: rest => scanColumns rest (S i) (scanColumn idColumns i column)
  end.

Definition noColumns : IdColumns :=
  {| id_Date := None; id_Event := None; id_Description := None;
     id_Color := None; id_Symbol := None |}.

(** The tooltip text of one record. *)
Definition tooltipEntry (e : Data) : string :=
  "<b>Date:</b> " ++ dateDisplay e ++ "<br/><b>Event:</b> "
  ++ eventDisplay e ++ "<br/><b>Description:</b> " ++ description e.

Definition restingCircle (baseX : option number) (timelineY : Q) : Circle :=
  {| cx := baseX; cy := timelineY; r := 5; fill := "#000";
     stroke := "#000"; stroke_width := 2 |}.

Section Host.

(** What the engine's [Date.parse] gives for a string that is not a
    date-only string of the ECMAScript format; [None] is NaN. *)
Variable legacyParse : string -> integral.

(** The offset of local time from UTC, in ms, at a UTC time value. *)
Variable LocalTZA : Z -> Z.

(** The time value of [new Date(s)] for a string [s]. *)
Definition Date_new (s : string) : integral :=
  match ISO.parseDateOnly s with
  | Some t => Some t
  | None => legacyParse s
  end.

Definition LocalTime (t : Z) : Z := t + LocalTZA t.

Definition getDate (d : integral) : integral :=
  option_map (fun t => DateTime.DateFromTime (LocalTime t)) d.

Definition getMonth (d : integral) : integral :=
  option_map (fun t => DateTime.MonthFromTime (LocalTime t)) d.

Definition getFullYear (d : integral) : integral :=
  option_map (fun t => DateTime.YearFromTime (LocalTime t)) d.

(** [formatDate(isoDate)]. *)
Definition formatDate (isoDate : string) : string :=
  let date := Date_new isoDate in
  let day := padStart (String_ (getDate date)) 2 "0" in
  let month :=
    padStart (String_ (option_map (fun m => m + 1) (getMonth date))) 2 "0" in
  let year := getFullYear date in
  day ++ "/" ++ month ++ "/" ++ String_ year.

(** The body of [rows.forEach(row => ...)] up to the record it pushes. *)
Definition rowItem (idColumns : IdColumns) (row : list Cell) : M Data :=
  date <- toString (at_ row (id_Date idColumns)) ;;
  let dateDisplay := formatDate date in
  event <- toString (at_ row (id_Event idColumns)) ;;
  let eventDisplay := formatStringDisplay event in
  description <- toString (at_ row (id_Description idColumns)) ;;
  colorAttribute <- toString (at_ row (id_Color idColumns)) ;;
  symbolAttribute <- toString (at_ row (id_Symbol idColumns)) ;;
  color <- match id_Color idColumns with
           | Some _ =>
               label <- toString (at_ row (id_Color idColumns)) ;;
               call_colorScale label
           | None => ret (Some "#000000")
           end ;;
  symbol <- match id_Symbol idColumns with
            | Some _ =>
                label <- toString (at_ row (id_Symbol idColumns)) ;;
                call_symbolScale label
            | None => ret (Some "circle")
            end ;;
  ret {| date := match id_Date idColumns with
                 | Some _ => date | None => "" end;
         dateDisplay := dateDisplay;
         event := match id_Event idColumns with
                  | Some _ => event | None => "" end;
         eventDisplay := match id_Event idColumns with
                         | Some _ => eventDisplay | None => "" end;
         description := description;
         colorAttribute := colorAttribute;
         color := color;
         symbolAttribute := symbolAttribute;
         symbol := symbol |}.

(** [rows.forEach]: each record is pushed onto [data]. *)
Fixpoint forEachRow (idColumns : IdColumns) (rows : list (list Cell))
  (data : list Data) : M (list Data) :=
  match rows with
  | [] => ret data
  | row :: rest =>
      item <- rowItem idColumns row ;;
      forEachRow idColumns rest (data ++ [item])%list
  end.

(** [transformData(table)]. *)
Definition transformData (table : DataViewTable) : M (list Data) :=
  let idColumns := scanColumns (columns table) O noColumns in
  forEachRow idColumns (rows table) [].

(** [basicTimeline(svg, timeScale, timelineY)], reading [this.data]: the
    hidden tooltip and one resting marker for every group of
    [d3.group(this.data, d => d.date)], in the Map's order. *)
Definition basicTimeline (data : list Data) (timeScale : D3.ScaleTime)
  (timelineY : Q) : list Marker * Tooltip :=
  let groupedData := D3.group data date in
  let tooltip :=
    {| html := ""; visibility := "hidden"; top := None; left := None |} in
  (map (fun g : string * list Data =>
          let baseX := D3.apply timeScale (Date_new (fst g)) in
          {| key := fst g;
             circle := restingCircle baseX timelineY;
             events := snd g;
             transition := None |})
       groupedData,
   tooltip).

(** The drawing part of [update], after [this.data] was assigned: the
    target is emptied, then receives the svg with the base line, the
    tooltip and the markers. *)
Definition draw (data : list Data) (width height : Q) : Scene :=
  let minDate := D3.min data (fun d => Date_new (date d)) in
  let maxDate := D3.max data (fun d => Date_new (date d)) in
  let timeScale :=
    {| D3.d0 := minDate; D3.d1 := maxDate;
       D3.r0 := 50%Q; D3.r1 := sub64 width 50 |} in
  let timelineY := div64 height 2 in
  let line :=
    {| x1 := 50%Q; x2 := sub64 width 50; y1 := timelineY; y2 := timelineY;
       line_stroke := "#000"; line_stroke_width := 2 |} in
  let drawn := basicTimeline data timeScale timelineY in
  {| svg_width := width; svg_height := height; line := line;
     markers := fst drawn; tooltip := snd drawn |}.

(** [update(options)]. *)
Definition update (options : VisualUpdateOptions) : M unit :=
  d <- transformData (table options) ;;
  fun v =>
    let scene :=
      draw d (viewport_width options) (viewport_height options) in
    (Normal tt,
     {| data := d; colorScale := colorScale v;
        symbolScale := symbolScale v; target := Some scene |}).

End Host.

(** ** Pointer events on a drawn scene

    Each handler belongs to the circle of one marker, named here by its
    position in [markers]. *)

Fixpoint update_nth {A : Type} (n : nat) (f : A -> A) (l : list A) : list A :=
  match l, n with
  | [], _ => []
  | x :: rest, O => f x :: rest
  | x :: rest, S n' => x :: update_nth n' f rest
  end.

(** The attributes a transition of 200 ms ends on. *)
Definition transitionTo (radius : Z) (colour : string) (width : Z)
  (m : Marker) : Marker :=
  {| key := key m;
     circle := {| cx := cx (circle m); cy := cy (circle m); r := radius;
                  fill := fill (circle m); stroke := colour;
                  stroke_width := width |};
     events := events m;
     transition := Some 200 |}.

Definition mouseover (i : nat) (s : Scene) : Scene :=
  match nth_error (markers s) i with
  | None => s
  | Some m =>
      {| svg_width := svg_width s; svg_height := svg_height s;
         line := line s;
         markers := update_nth i (transitionTo 8 "red" 3) (markers s);
         tooltip :=
           {| html := join "<br/><br/>" (map tooltipEntry (events m));
              visibility := "visible";
              top := top (tooltip s); left := left (tooltip s) |} |}
  end.

Definition mousemove (i : nat) (pageX pageY : Z) (s : Scene) : Scene :=
  match nth_error (markers s) i with
  | None => s
  | Some _ =>
      {| svg_width := svg_width s; svg_height := svg_height s;
         line := line s; markers := markers s;
         tooltip :=
           {| html := html (tooltip s);
              visibility := visibility (tooltip s);
              top := Some (String_ (Some (pageY + 15)) ++ "px");
              left := Some (String_ (Some (pageX + 15)) ++ "px") |} |}
  end.

Definition mouseout (i : nat) (s : Scene) : Scene :=
  match nth_error (markers s) i with
  | None => s
  | Some _ =>
      {| svg_width := svg_width s; svg_height := svg_height s;
         line := line s;
         markers := update_nth i (transitionTo 5 "#000" 2) (markers s);
         tooltip :=
           {| html := html (tooltip s);
              visibility := "hidden";
              top := top (tooltip s); left := left (tooltip s) |} |}
  end.

(** The pointer events of a scene and a run of the handlers. *)
Inductive PointerEvent : Type :=
| Enter (i : nat)
| Move (i : nat) (pageX pageY : Z)
| Leave (i : nat).

Definition handle (s : Scene) (e : PointerEvent) : Scene :=
  match e with
  | Enter i => mouseover i s
  | Move i pageX pageY => mousemove i pageX pageY s
  | Leave i => mouseout i s
  end.

Definition interact (es : list PointerEvent) (s : Scene) : Scene :=
  fold_left handle es s.

(** What no handler changes of a marker. *)
Definition fixedPart (m : Marker)
  : string * (option number * (Q * (string * list Data))) :=
  (key m, (cx (circle m), (cy (circle m), (fill (circle m), events m)))).

(** The two states of a marker. *)
Definition resting (m : Marker) : Prop :=
  r (circle m) = 5 /\ fill (circle m) = "#000"
  /\ stroke (circle m) = "#000" /\ stroke_width (circle m) = 2.

Definition hovered (m : Marker) : Prop :=
  r (circle m) = 8 /\ fill (circle m) = "#000"
  /\ stroke (circle m) = "red" /\ stroke_width (circle m) = 3.

(** [t] occurs in [s]. *)
Definition contains (s t : string) : Prop :=
  exists before after, s = before ++ t ++ after.

(** ** Decision procedures used to settle finite ranges *)

(** [padStart(2, "0")] of the decimal text of [n] is two digits that read
    back as [n]. *)
Definition twoDigitOk (n : Z) : bool :=
  match padStart (String_ (Some n)) 2 "0" with
  | String a (String b EmptyString) =>
      match ISO.digits2 a b with
      | Some m => m =? n
      | None => false
      end
  | _ => false
  end.

(** ** Vocabulary of the statements *)

(** The five role names. *)
Inductive RoleName : Type :=
| RDate
| REvent
| RDescription
| RColor
| RSymbol.

Definition allRoles : list RoleName :=
  [RDate; REvent; RDescription; RColor; RSymbol].

(** [role.R] and [idColumns["R"]]. *)
Definition flag (R : RoleName) (role : Roles) : bool :=
  match R with
  | RDate => Date role
  | REvent => Event role
  | RDescription => Description role
  | RColor => Color role
  | RSymbol => Symbol role
  end.

Definition idOf (R : RoleName) (idColumns : IdColumns) : option nat :=
  match R with
  | RDate => id_Date idColumns
  | REvent => id_Event idColumns
  | RDescription => id_Description idColumns
  | RColor => id_Color idColumns
  | RSymbol => id_Symbol idColumns
  end.

(** [row[idColumns["R"]]] is a value, neither [undefined] nor [null]. *)
Definition hasValue (idColumns : IdColumns) (row : list Cell)
  (R : RoleName) : bool :=
  match at_ row (idOf R idColumns) with
  | Some (Value _) => true
  | _ => false
  end.

(** All five reads of the row callback find a value. *)
Definition readable (idColumns : IdColumns) (row : list Cell) : bool :=
  forallb (hasValue idColumns row) allRoles.

(** The value an ordinal scale holds for a label of its domain. *)
Definition value_of (s : D3.ScaleOrdinal) (label : string) : option string :=
  match D3.index_of label (D3.domain s) with
  | Some i => D3.range_at (D3.range s) i
  | None => None
  end.

(** [s'] is [s] after further calls: same range, longer domain. *)
Definition extends (s s' : D3.ScaleOrdinal) : Prop :=
  D3.range s' = D3.range s
  /\ exists more, D3.domain s' = (D3.domain s ++ more)%list.

(** The colour and the symbol of the record [d] are the values the scales
    of state [v] hold for its labels, which they have seen. *)
Definition encoded (v : Visual) (d : Data) : Prop :=
  color d = value_of (colorScale v) (colorAttribute d)
  /\ D3.index_of (colorAttribute d) (D3.domain (colorScale v)) <> None
  /\ symbol d = value_of (symbolScale v) (symbolAttribute d)
  /\ D3.index_of (symbolAttribute d) (D3.domain (symbolScale v)) <> None.

(** Both scales of [v'] extend those of [v]. *)
Definition grows (v v' : Visual) : Prop :=
  extends (colorScale v) (colorScale v')
  /\ extends (symbolScale v) (symbolScale v').

(** The state [v] with the scene [s] in its target element. *)
Definition withTarget (v : Visual) (s : Scene) : Visual :=
  {| data := data v; colorScale := colorScale v;
     symbolScale := symbolScale v; target := Some s |}.

(** What the renderer shows of a record. *)
Definition shown (d : Data) : string * (string * (string * string)) :=
  (date d, (dateDisplay d, (eventDisplay d, description d))).

Section Vocabulary.

Variable legacyParse : string -> integral.
Variable LocalTZA : Z -> Z.

(** The record [d] holds the texts of the cells of [row] at the resolved
    columns, and their display forms. *)
Definition derivedFrom (idColumns : IdColumns) (row : list Cell)
  (d : Data) : Prop :=
  at_ row (id_Date idColumns) = Some (Value (date d))
  /\ at_ row (id_Event idColumns) = Some (Value (event d))
  /\ at_ row (id_Description idColumns) = Some (Value (description d))
  /\ at_ row (id_Color idColumns) = Some (Value (colorAttribute d))
  /\ at_ row (id_Symbol idColumns) = Some (Value (symbolAttribute d))
  /\ dateDisplay d = formatDate legacyParse LocalTZA (date d)
  /\ eventDisplay d = formatStringDisplay (event d).

(** The states a session reaches from [v] by calls of [update], whether
    they return or raise. *)
Inductive session (v : Visual) : Visual -> Prop :=
| session_here : session v v
| session_update (v1 v2 : Visual) (options : VisualUpdateOptions)
    (c : completion unit) :
    session v v1 ->
    update legacyParse LocalTZA options v1 = (c, v2) ->
    session v v2.

(** The states a visual goes through from its construction: calls of
    [update], whether they return or raise, and in between pointer events
    on the scene in its target element. *)
Inductive lifetime : Visual -> Prop :=
| lifetime_constructor : lifetime constructor
| lifetime_update (v1 v2 : Visual) (options : VisualUpdateOptions)
    (c : completion unit) :
    lifetime v1 ->
    update legacyParse LocalTZA options v1 = (c, v2) ->
    lifetime v2
| lifetime_pointer (v : Visual) (s : Scene) (e : PointerEvent) :
    lifetime v ->
    target v = Some s ->
    lifetime (withTarget v (handle s e)).

End Vocabulary.

(** The tooltip text of a record, from what is shown of it. *)
Definition entryOfShown (p : string * (string * (string * string)))
  : string :=
  "<b>Date:</b> " ++ fst (snd p) ++ "<br/><b>Event:</b> "
  ++ fst (snd (snd p)) ++ "<br/><b>Description:</b> " ++ snd (snd (snd p)).

(** What a marker looks like: its date, its circle, and the entries its
    tooltip lists. *)
Definition appearance (m : Marker) : string * (Circle * list string) :=
  (key m, (circle m, map tooltipEntry (events m))).

(** Two rows hold the same cells at the date, event and description
    columns. *)
Definition sameShownCells (idColumns : IdColumns) (row1 row2 : list Cell)
  : Prop :=
  at_ row1 (id_Date idColumns) = at_ row2 (id_Date idColumns)
  /\ at_ row1 (id_Event idColumns) = at_ row2 (id_Event idColumns)
  /\ at_ row1 (id_Description idColumns)
     = at_ row2 (id_Description idColumns).

(** ** Hosts and tables used in examples *)

(** A host at UTC whose engine reads only date-only strings. *)
Definition utc : Z -> Z := fun _ => 0.
Definition isoOnly : string -> integral := fun _ => None.

(** A column carrying exactly the role [R]. *)
Definition roleColumn (R : RoleName) : Column :=
  {| roles :=
       {| Date := match R with RDate => true | _ => false end;
          Event := match R with REvent => true | _ => false end;
          Description := match R with RDescription => true | _ => false end;
          Color := match R with RColor => true | _ => false end;
          Symbol := match R with RSymbol => true | _ => false end |} |}.

(** Five columns: date, event, description, colour, symbol. *)
Definition oneColumnPerRole : list Column := map roleColumn allRoles.

Definition exampleTable : DataViewTable :=
  {| columns := oneColumnPerRole;
     rows :=
       [ [Value "2024-01-01"; Value "Kick-off"; Value "Project start";
          Value "A"; Value "x"];
         [Value "2024-01-03"; Value "Review of the plan"; Value "First review";
          Value "B"; Value "x"];
         [Value "2024-01-01"; Value "Budget"; Value "Budget approved";
          Value "A"; Value "y"];
         [Value "2024-01-02"; Value "Hiring"; Value "Team complete";
          Value "C"; Value "y"] ] |}.

Definition exampleOptions : VisualUpdateOptions :=
  {| table := exampleTable; viewport_width := 800; viewport_height := 600 |}.

(** The example with other colour and symbol labels. *)
Definition recolouredOptions : VisualUpdateOptions :=
  {| table :=
       {| columns := oneColumnPerRole;
          rows :=
            [ [Value "2024-01-01"; Value "Kick-off"; Value "Project start";
               Value "red"; Value "square"];
              [Value "2024-01-03"; Value "Review of the plan";
               Value "First review"; Value "red"; Value "star"];
              [Value "2024-01-01"; Value "Budget"; Value "Budget approved";
               Value "green"; Value "star"];
              [Value "2024-01-02"; Value "Hiring"; Value "Team complete";
               Value "blue"; Value "wye"] ] |};
     viewport_width := 800; viewport_height := 600 |}.

(** One row, and the same row with an empty colour cell. *)
Definition oneRowOptions (colour : Cell) : VisualUpdateOptions :=
  {| table :=
       {| columns := oneColumnPerRole;
          rows := [[Value "2024-01-01"; Value "Kick-off";
                    Value "Project start"; colour; Value "x"]] |};
     viewport_width := 800; viewport_height := 600 |}.

(** A table whose first column carries both the Date and the Color role,
    with two rows; the date of the second row is left open. *)
Definition sharedColumns : list Column :=
  [ {| roles := {| Date := true; Event := false; Description := false;
                   Color := true; Symbol := false |} |};
    roleColumn REvent; roleColumn RDescription; roleColumn RSymbol ].

Definition sharedOptions (second : string) : VisualUpdateOptions :=
  {| table :=
       {| columns := sharedColumns;
          rows :=
            [ [Value "2024-01-01"; Value "Kick-off"; Value "Project start";
               Value "x"];
              [Value second; Value "Budget"; Value "Budget approved";
               Value "x"] ] |};
     viewport_width := 800; viewport_height := 600 |}.

(** The states after a first and a second update with the example. *)
Definition exampleState1 : Visual :=
  snd (update isoOnly utc exampleOptions constructor).

Definition exampleState2 : Visual :=
  snd (update isoOnly utc exampleOptions exampleState1).

(** The state after the first update and a pointer entering the first
    marker. *)
Definition hoveredState : Visual :=
  match target exampleState1 with
  | Some s => withTarget exampleState1 (handle s (Enter 0))
  | None => exampleState1
  end.

Definition recolouredState : Visual :=
  snd (update isoOnly utc recolouredOptions exampleState1).

(** The records of the example table, as [transformData] returns them. *)
Definition exampleData : list Data :=
  [ {| date := "2024-01-01"; dateDisplay := "01/01/2024";
       event := "Kick-off"; eventDisplay := "Kick-off";
       description := "Project start";
       colorAttribute := "A"; color := None;
       symbolAttribute := "x"; symbol := None |};
    {| date := "2024-01-03"; dateDisplay := "03/01/2024";
       event := "Review of the plan"; eventDisplay := "Review ...";
       description := "First review";
       colorAttribute := "B"; color := None;
       symbolAttribute := "x"; symbol := None |};
    {| date := "2024-01-01"; dateDisplay := "01/01/2024";
       event := "Budget"; eventDisplay := "Budget";
       description := "Budget approved";
       colorAttribute := "A"; color := None;
       symbolAttribute := "y"; symbol := None |};
    {| date := "2024-01-02"; dateDisplay := "02/01/2024";
       event := "Hiring"; eventDisplay := "Hiring";
       description := "Team complete";
       colorAttribute := "C"; color := None;
       symbolAttribute := "y"; symbol := None |} ].

(** A table with one row for each of the given dates, in a viewport of the
    given width. *)
Definition datedOptions (dates : list string) (width : Q)
  : VisualUpdateOptions :=
  {| table :=
       {| columns := oneColumnPerRole;
          rows := map (fun d => [Value d; Value "Event"; Value "Text";
                                 Value "A"; Value "x"]) dates |};
     viewport_width := width; viewport_height := 600 |}.

(** Three rows; no engine reads the date of the second. *)
Definition garbledOptions : VisualUpdateOptions :=
  datedOptions ["2024-01-01"; "garbage"; "2024-01-03"] 800.

(** The records of that table, as [transformData] returns them. *)
Definition garbledData : list Data :=
  [ {| date := "2024-01-01"; dateDisplay := "01/01/2024";
       event := "Event"; eventDisplay := "Event"; description := "Text";
       colorAttribute := "A"; color := None;
       symbolAttribute := "x"; symbol := None |};
    {| date := "garbage"; dateDisplay := "NaN/NaN/NaN";
       event := "Event"; eventDisplay := "Event"; description := "Text";
       colorAttribute := "A"; color := None;
       symbolAttribute := "x"; symbol := None |};
    {| date := "2024-01-03"; dateDisplay := "03/01/2024";
       event := "Event"; eventDisplay := "Event"; description := "Text";
       colorAttribute := "A"; color := None;
       symbolAttribute := "x"; symbol := None |} ].

(** A value belongs to the group of the key [k]. *)
Definition sameKey {A : Type} (keyof : A -> string) (k : string) (v : A)
  : bool :=
  String.eqb (keyof v) k.

(** The example table with a sixth cell in every row, which no role
    names. *)
Definition widerTable : DataViewTable :=
  {| columns := oneColumnPerRole;
     rows := map (fun row => (row ++ [Value "ignored"])%list)
               (rows exampleTable) |}.

(** ** [generateSymbol]

    The switch from a symbol name to a d3 symbol type; the path text that
    d3's generator draws for a type is a parameter. *)

Inductive SymbolType : Type :=
| symbolCircle
| symbolSquare
| symbolTriangle
| symbolDiamond
| symbolCross
| symbolStar
| symbolWye.

Definition symbolTypeOf (symbolName : string) : SymbolType :=
  if String.eqb symbolName "circle" then symbolCircle
  else if String.eqb symbolName "square" then symbolSquare
  else if String.eqb symbolName "triangle" then symbolTriangle
  else if String.eqb symbolName "diamond" then symbolDiamond
  else if String.eqb symbolName "cross" then symbolCross
  else if String.eqb symbolName "star" then symbolStar
  else if String.eqb symbolName "wye" then symbolWye
  else symbolCircle.

Section Symbols.

(** [d3.symbol().type(t)()]: the path of a symbol of the default size. *)
Variable symbolPath : SymbolType -> string.

Definition generateSymbol (symbolName : string) : string :=
  symbolPath (symbolTypeOf symbolName).

End Symbols.

(** The names [generateSymbol] tells from a circle. *)
Definition otherSymbolNames : list string :=
  ["square"; "triangle"; "diamond"; "cross"; "star"; "wye"].

(** ** More vocabulary *)

(** The elements of a list in the order of their first occurrence. *)
Fixpoint firstOccurrences (l : list string) : list string :=
  match l with
  | [] => []
  | x :: rest =>
      x :: filter (fun y => negb (String.eqb y x)) (firstOccurrences rest)
  end.

(** An ordinal scale after calls with the labels, in order. *)
Definition callAll (s : D3.ScaleOrdinal) (labels : list string)
  : D3.ScaleOrdinal :=
  fold_left (fun s label => snd (D3.call s label)) labels s.

(** Two rows hold the same cells at the five columns the mapper reads. *)
Definition sameReadCells (idColumns : IdColumns) (row1 row2 : list Cell)
  : Prop :=
  forall R, at_ row1 (idOf R idColumns) = at_ row2 (idOf R idColumns).

(** The column at index [n] is the last one that carries the role [R]. *)
Definition lastCarrier (R : RoleName) (cols : list Column) (n : nat)
  : Prop :=
  (exists column, nth_error cols n = Some column
                  /\ flag R (roles column) = true)
  /\ (forall j column, (n < j)%nat -> nth_error cols j = Some column ->
                       flag R (roles column) = false).

(** The tooltip shows nothing yet, or the records of one date. *)
Definition showsOneDate (data : list Data) (s : Scene) : Prop :=
  html (tooltip s) = ""
  \/ exists k, In k (map key (markers s))
               /\ html (tooltip s)
                  = join "<br/><br/>"
                      (map tooltipEntry (filter (sameKey date k) data)).

(** A marker is in one of its two states. *)
Definition restingOrHovered (m : Marker) : Prop := resting m \/ hovered m.

(* ================================================================== *)
(** * Properties *)

(** ** Binary64 arithmetic *)

Lemma pow2_pos (e : Z) : (0 < 2 ^ e)%Q.
Proof. apply Qpower_0_lt. reflexivity. Qed.

Lemma pow2_succ (e : Z) : (2 ^ (e + 1) == 2 * 2 ^ e)%Q.
Proof.
  rewrite Qpower_plus by discriminate. change (2 ^ 1)%Q with 2%Q. ring.
Qed.

Lemma pow2_le (a b : Z) : a <= b -> (2 ^ a <= 2 ^ b)%Q.
Proof. intros H. apply Qpower_le_compat_l; [exact H | discriminate]. Qed.

Lemma pow2_lt_inv (a b : Z) : (2 ^ a < 2 ^ b)%Q -> a < b.
Proof.
  intros H. destruct (Z.lt_ge_cases a b) as [|Hge]; [assumption|].
  apply pow2_le in Hge. apply Qle_not_lt in Hge. contradiction.
Qed.

Lemma pow2_Z (k : Z) : 0 <= k -> (2 ^ k == inject_Z (2 ^ k))%Q.
Proof. intros H. symmetry. exact (Zpower_Qpower 2 k H). Qed.

Lemma pow2_log2 (n : Z) :
  0 < n -> (2 ^ Z.log2 n <= inject_Z n < 2 * 2 ^ Z.log2 n)%Q.
Proof.
  intros Hn. destruct (Z.log2_spec n Hn) as [Hlo Hhi].
  pose proof (Z.log2_nonneg n) as H0.
  rewrite <- pow2_succ.
  rewrite !pow2_Z by lia.
  rewrite <- Zle_Qle, <- Zlt_Qlt.
  replace (Z.log2 n + 1) with (Z.succ (Z.log2 n)) by lia.
  split; assumption.
Qed.

(** [exponentOf] brackets a positive value between two powers of two. *)
Lemma exponentOf_spec (x : Q) :
  (0 < x)%Q -> (2 ^ exponentOf x <= x < 2 * 2 ^ exponentOf x)%Q.
Proof.
  intros Hx. unfold exponentOf.
  assert (Hn : 0 < Qnum x).
  { destruct x as [n d]. unfold Qlt in Hx. cbn in *. lia. }
  destruct (pow2_log2 (Qnum x) Hn) as [Hn1 Hn2].
  destruct (pow2_log2 (Zpos (Qden x)) eq_refl) as [Hd1 Hd2].
  set (a := Z.log2 (Qnum x)) in *. set (b := Z.log2 (Zpos (Qden x))) in *.
  assert (Ex : (x == inject_Z (Qnum x) / inject_Z (Zpos (Qden x)))%Q).
  { rewrite <- (Qmake_Qdiv (Qnum x) (Qden x)). destruct x; reflexivity. }
  assert (Hd : (0 < inject_Z (Zpos (Qden x)))%Q) by reflexivity.
  set (n := inject_Z (Qnum x)) in *. set (d := inject_Z (Zpos (Qden x))) in *.
  assert (Hab : (2 ^ a == 2 ^ (a - b) * 2 ^ b)%Q).
  { rewrite <- Qpower_plus by discriminate.
    now replace (a - b + b) with a by lia. }
  pose proof (pow2_pos (a - b)) as Hp. pose proof (pow2_pos b) as Hpb.
  assert (Exd : (x * d == n)%Q).
  { rewrite Ex. field. intros E. rewrite E in Hd. discriminate. }
  destruct (Qle_bool (2 ^ (a - b)) x) eqn:Et.
  - apply Qle_bool_iff in Et. split; [exact Et|].
    apply Qnot_le_lt. intros Hc.
    assert (H1 : (2 * 2 ^ (a - b) * d <= x * d)%Q)
      by (apply Qmult_le_compat_r; [exact Hc | now apply Qlt_le_weak]).
    assert (H2 : (2 * 2 ^ (a - b) * 2 ^ b <= 2 * 2 ^ (a - b) * d)%Q).
    { rewrite !(Qmult_comm (2 * 2 ^ (a - b))).
      apply Qmult_le_compat_r; [exact Hd1|]. lra. }
    rewrite Exd in H1. lra.
  - assert (Hlt : (x < 2 ^ (a - b))%Q).
    { apply Qnot_le_lt. intros Hc. apply Qle_bool_iff in Hc. congruence. }
    pose proof (pow2_succ (a - b - 1)) as Hs.
    replace (a - b - 1 + 1) with (a - b) in Hs by lia.
    split; [|lra].
    apply Qnot_lt_le. intros Hc.
    assert (H1 : (x * d < 2 ^ (a - b - 1) * d)%Q)
      by (apply Qmult_lt_compat_r; assumption).
    assert (H2 : (2 ^ (a - b - 1) * d <= 2 ^ (a - b - 1) * (2 * 2 ^ b))%Q).
    { rewrite !(Qmult_comm (2 ^ (a - b - 1))).
      apply Qmult_le_compat_r; [now apply Qlt_le_weak|].
      apply Qlt_le_weak, pow2_pos. }
    rewrite Exd in H1.
    assert (H3 : (2 ^ (a - b - 1) * (2 * 2 ^ b) == 2 ^ a)%Q).
    { rewrite Hab, Hs. ring. }
    lra.
Qed.

Lemma inject_Z_pos (z : Z) : 0 < z -> (0 < inject_Z z)%Q.
Proof. intros H. unfold Qlt. cbn. lia. Qed.

Lemma Qfloor_eq (y : Q) (z : Z) : (y == inject_Z z)%Q -> Qfloor y = z.
Proof.
  intros E. apply Z.le_antisymm.
  - rewrite <- (Qfloor_Z z). apply Qfloor_resp_le. rewrite E. apply Qle_refl.
  - rewrite <- (Qfloor_Z z) at 1. apply Qfloor_resp_le. rewrite E.
    apply Qle_refl.
Qed.

Lemma roundTiesToEven_int (y : Q) (z : Z) :
  (y == inject_Z z)%Q -> roundTiesToEven y = z.
Proof.
  intros E. unfold roundTiesToEven. rewrite (Qfloor_eq y z E).
  assert (H : (y - inject_Z z ?= 1 # 2)%Q = Lt).
  { apply (proj1 (Qlt_alt _ _)). rewrite E.
    setoid_replace (inject_Z z - inject_Z z)%Q with 0%Q by ring.
    reflexivity. }
  now rewrite H.
Qed.

Lemma roundTiesToEven_bounds (y : Q) (a b : Z) :
  (inject_Z a <= y <= inject_Z b)%Q -> a <= roundTiesToEven y <= b.
Proof.
  intros [Ha Hb].
  assert (Hfa : a <= Qfloor y).
  { rewrite <- (Qfloor_Z a). now apply Qfloor_resp_le. }
  assert (Hfb : Qfloor y <= b).
  { rewrite <- (Qfloor_Z b). now apply Qfloor_resp_le. }
  destruct (Z.eq_dec (Qfloor y) b) as [E|E].
  - assert (Ey : (y == inject_Z b)%Q).
    { apply Qle_antisym; [exact Hb|]. rewrite <- E. apply Qfloor_le. }
    rewrite (roundTiesToEven_int y b Ey). lia.
  - unfold roundTiesToEven.
    destruct (y - inject_Z (Qfloor y) ?= 1 # 2)%Q; [destruct (Z.even _)| |];
      lia.
Qed.

Lemma pow2_unique (x : Q) (k : Z) :
  (2 ^ k <= x < 2 * 2 ^ k)%Q -> (0 < x)%Q -> exponentOf x = k.
Proof.
  intros [Hlo Hhi] Hx. destruct (exponentOf_spec x Hx) as [Hlo' Hhi'].
  rewrite <- pow2_succ in Hhi, Hhi'.
  assert (H1 : exponentOf x < k + 1)
    by (apply pow2_lt_inv; eapply Qle_lt_trans; eassumption).
  assert (H2 : k < exponentOf x + 1)
    by (apply pow2_lt_inv; eapply Qle_lt_trans; eassumption).
  lia.
Qed.

(** The shape of a rounded value: at most 53 bits, and all 53 of them
    from [2^-1022] on. *)
Lemma nearest_shape (x : Q) :
  (0 < x)%Q ->
  exists m e,
    nearest x = (inject_Z m * 2 ^ e)%Q
    /\ e = Z.max (exponentOf x - 52) (- 1074)
    /\ 0 <= m <= 2 ^ 53
    /\ (- 1022 <= exponentOf x -> 2 ^ 52 <= m).
Proof.
  intros Hx. eexists. eexists. split; [reflexivity|]. split; [reflexivity|].
  destruct (exponentOf_spec x Hx) as [Hlo Hhi].
  set (k := exponentOf x) in *.
  set (e := Z.max (k - 52) (- 1074)).
  pose proof (pow2_pos e) as He. pose proof (pow2_pos (k - 52)) as Hk.
  assert (Ek : (2 ^ k == 2 ^ 52 * 2 ^ (k - 52))%Q).
  { rewrite <- Qpower_plus by discriminate.
    now replace (52 + (k - 52)) with k by lia. }
  assert (Hle : (2 ^ (k - 52) <= 2 ^ e)%Q) by (apply pow2_le; lia).
  assert (E53 : (inject_Z (2 ^ 53) == 2 * 2 ^ 52)%Q) by reflexivity.
  split.
  - apply roundTiesToEven_bounds. rewrite E53. split.
    + apply Qle_shift_div_l; [exact He|].
      change (inject_Z 0) with 0%Q. lra.
    + apply Qle_shift_div_r; [exact He|].
      apply Qle_trans with (2 * 2 ^ 52 * 2 ^ (k - 52))%Q; [lra|].
      rewrite !(Qmult_comm (2 * 2 ^ 52)).
      apply Qmult_le_compat_r; [exact Hle|].
      apply Qlt_le_weak. reflexivity.
  - intros Hn. replace e with (k - 52) by lia.
    assert (H52 : 2 ^ 52 <= roundTiesToEven (x / 2 ^ (k - 52))
                  <= 2 ^ 53); [|lia].
    apply roundTiesToEven_bounds. rewrite E53.
    change (inject_Z (2 ^ 52)) with (2 ^ 52)%Q. split.
    + apply Qle_shift_div_l; [exact Hk|]. lra.
    + apply Qle_shift_div_r; [exact Hk|]. lra.
Qed.

Lemma nearest_exact (x : Q) (M E : Z) :
  0 < M < 2 ^ 53 -> - 1074 <= E ->
  (x == inject_Z M * 2 ^ E)%Q -> (nearest x == x)%Q.
Proof.
  intros HM HE1 Ex.
  pose proof (pow2_pos E) as HE.
  assert (Hx : (0 < x)%Q).
  { rewrite Ex. apply Qmult_lt_0_compat; [|exact HE].
    apply inject_Z_pos. lia. }
  destruct (exponentOf_spec x Hx) as [Hlo _].
  unfold nearest. set (k := exponentOf x) in *.
  assert (Hk : k < 53 + E).
  { apply pow2_lt_inv. rewrite (Qpower_plus 2 53 E) by discriminate.
    apply Qle_lt_trans with x; [exact Hlo|]. rewrite Ex.
    apply Qmult_lt_compat_r; [exact HE|].
    change (2 ^ 53)%Q with (inject_Z (2 ^ 53)). rewrite <- Zlt_Qlt. lia. }
  set (e := Z.max (k - 52) (- 1074)).
  assert (Hle : e <= E) by lia.
  pose proof (pow2_pos e) as He.
  assert (EE : (2 ^ E == 2 ^ (E - e) * 2 ^ e)%Q).
  { rewrite <- Qpower_plus by discriminate.
    now replace (E - e + e) with E by lia. }
  assert (Ey : (x / 2 ^ e == inject_Z (M * 2 ^ (E - e)))%Q).
  { rewrite inject_Z_mult, <- pow2_Z by lia. rewrite Ex, EE. field.
    intros H0. rewrite H0 in He. discriminate. }
  rewrite (roundTiesToEven_int _ _ Ey).
  rewrite inject_Z_mult, <- pow2_Z by lia. rewrite Ex, EE. ring.
Qed.

Lemma nearest_pos (x : Q) : (1 <= x)%Q -> (0 < nearest x)%Q.
Proof.
  intros H1. assert (Hx : (0 < x)%Q) by lra.
  destruct (nearest_shape x Hx) as (m & e & -> & _ & _ & Hm).
  destruct (exponentOf_spec x Hx) as [_ Hhi].
  assert (Hk : -1 < exponentOf x).
  { apply pow2_lt_inv. change (2 ^ (-1))%Q with (1 # 2).
    apply Qmult_lt_l with 2%Q; [reflexivity|]. lra. }
  apply Qmult_lt_0_compat; [|apply pow2_pos].
  apply inject_Z_pos. specialize (Hm ltac:(lia)). lia.
Qed.

Lemma round64_cases (q : Q) :
  ((q == 0)%Q /\ round64 q = 0%Q)
  \/ ((0 < q)%Q /\ round64 q = nearest (Qred q))
  \/ ((q < 0)%Q /\ round64 q = (- nearest (- Qred q))%Q).
Proof.
  unfold round64. pose proof (Qred_correct q) as E.
  destruct (Qred q) as [n d] eqn:Er. cbn [Qnum].
  destruct n as [|n|n].
  - left. split; [|reflexivity]. rewrite <- E. reflexivity.
  - right. left. split; [|reflexivity]. rewrite <- E. reflexivity.
  - right. right. split; [|reflexivity]. rewrite <- E. reflexivity.
Qed.

(** Rounding depends on the value only, not on the fraction that denotes
    it. *)
Lemma round64_compat (p q : Q) : (p == q)%Q -> round64 p = round64 q.
Proof. intros E. unfold round64. now rewrite (Qred_complete p q E). Qed.

Lemma Qopp_opp_eq (x : Q) : (- - x)%Q = x.
Proof. destruct x as [n d]. unfold Qopp. cbn. now rewrite Z.opp_involutive. Qed.

Lemma round64_opp (q : Q) : (round64 (- q) == - round64 q)%Q.
Proof.
  destruct (round64_cases q) as [[E ->]|[[H ->]|[H ->]]];
    destruct (round64_cases (- q)) as [[E' ->]|[[H' ->]|[H' ->]]];
    try lra; try reflexivity.
  - rewrite Qred_opp, Qopp_opp_eq. reflexivity.
  - rewrite Qred_opp. ring.
Qed.

(** A significand of at most 53 bits times a power of two, not below the
    least exponent, is a binary64 value. *)
Lemma round64_exact (q : Q) (M E : Z) :
  - 2 ^ 53 < M < 2 ^ 53 -> - 1074 <= E ->
  (q == inject_Z M * 2 ^ E)%Q -> (round64 q == q)%Q.
Proof.
  intros HM HE1 Eq. pose proof (pow2_pos E) as HE.
  destruct (round64_cases q) as [[E0 ->]|[[H ->]|[H ->]]].
  - now rewrite E0.
  - rewrite <- (Qred_correct q) at 2.
    apply (nearest_exact _ M E); [|exact HE1|now rewrite Qred_correct].
    split; [|lia]. destruct (Z.lt_ge_cases 0 M) as [|Hle]; [assumption|].
    exfalso. apply (Qlt_irrefl 0). apply Qlt_le_trans with q; [exact H|].
    rewrite Eq. setoid_replace 0%Q with (0 * 2 ^ E)%Q by ring.
    apply Qmult_le_compat_r; [|now apply Qlt_le_weak].
    change 0%Q with (inject_Z 0). rewrite <- Zle_Qle. exact Hle.
  - assert (En : (nearest (- Qred q) == - Qred q)%Q).
    { apply (nearest_exact _ (- M) E); [|exact HE1|].
      - split; [|lia]. destruct (Z.lt_ge_cases M 0) as [|Hge]; [lia|].
        exfalso. apply (Qlt_irrefl 0). apply Qle_lt_trans with q; [|exact H].
        rewrite Eq. setoid_replace 0%Q with (0 * 2 ^ E)%Q by ring.
        apply Qmult_le_compat_r; [|now apply Qlt_le_weak].
        change 0%Q with (inject_Z 0). rewrite <- Zle_Qle. exact Hge.
      - rewrite Qred_correct, Eq, inject_Z_opp. ring. }
    rewrite En, Qred_correct. ring.
Qed.

Lemma round64_int (z : Z) :
  - 2 ^ 53 < z < 2 ^ 53 -> (round64 (inject_Z z) == inject_Z z)%Q.
Proof.
  intros Hz. apply (round64_exact _ z 0 Hz); [lia|].
  change (2 ^ 0)%Q with 1%Q. ring.
Qed.

(** Every result of an operation is a binary64 value. *)
Lemma round64_shape (q : Q) :
  exists M E, - 2 ^ 53 < M < 2 ^ 53 /\ - 1074 <= E
              /\ (round64 q == inject_Z M * 2 ^ E)%Q.
Proof.
  assert (Hpos : forall x, (0 < x)%Q ->
            exists M E, 0 <= M < 2 ^ 53 /\ - 1074 <= E
                        /\ (nearest x == inject_Z M * 2 ^ E)%Q).
  { intros x Hx. destruct (nearest_shape x Hx) as (m & e & Em & Ee & Hm & _).
    destruct (Z.eq_dec m (2 ^ 53)) as [->|Hne].
    - exists (2 ^ 52), (e + 1). split; [lia|]. split; [lia|].
      rewrite Em, pow2_succ.
      change (inject_Z (2 ^ 53)) with (2 * inject_Z (2 ^ 52))%Q at 1. ring.
    - exists m, e. split; [lia|]. split; [lia|]. rewrite Em. reflexivity. }
  destruct (round64_cases q) as [[_ ->]|[[H ->]|[H ->]]].
  - exists 0, 0. split; [lia|]. split; [lia | reflexivity].
  - destruct (Hpos (Qred q)) as (M & E & HM & HE & EM);
      [now rewrite Qred_correct|].
    exists M, E. split; [lia|]. split; [exact HE | exact EM].
  - destruct (Hpos (- Qred q)%Q) as (M & E & HM & HE & EM);
      [rewrite Qred_correct; lra|].
    exists (- M), E. split; [lia|]. split; [exact HE|].
    rewrite EM, inject_Z_opp. ring.
Qed.

Lemma round64_idem (q : Q) : (round64 (round64 q) == round64 q)%Q.
Proof.
  destruct (round64_shape q) as (M & E & HM & HE & EM).
  exact (round64_exact _ M E HM HE EM).
Qed.

Lemma round64_int_eq_0 (z : Z) : (round64 (inject_Z z) == 0)%Q -> z = 0.
Proof.
  intros E.
  assert (Hpos : forall n, 0 < n -> (0 < round64 (inject_Z n))%Q).
  { intros n Hn.
    assert (H1 : (1 <= inject_Z n)%Q)
      by (change 1%Q with (inject_Z 1); rewrite <- Zle_Qle; lia).
    destruct (round64_cases (inject_Z n)) as [[E0 _]|[[_ ->]|[H _]]];
      [lra| |lra].
    apply nearest_pos. now rewrite Qred_correct. }
  destruct (Z.lt_trichotomy z 0) as [Hz|[Hz|Hz]]; [|exact Hz|].
  - specialize (Hpos (- z) ltac:(lia)).
    rewrite inject_Z_opp, round64_opp in Hpos. lra.
  - specialize (Hpos z Hz). lra.
Qed.

Lemma sub64_same (x : Q) : sub64 x x = 0%Q.
Proof.
  unfold sub64. rewrite (round64_compat (x - x) 0) by ring. reflexivity.
Qed.

Lemma sub64_int_nonzero (a b : Z) :
  a <> b -> Qeq_bool (sub64 (inject_Z a) (inject_Z b)) 0 = false.
Proof.
  intros Hne. destruct (Qeq_bool _ 0) eqn:E; [|reflexivity].
  apply Qeq_bool_iff in E. unfold sub64 in E.
  rewrite (round64_compat _ (inject_Z (a - b))) in E
    by (unfold Zminus; rewrite inject_Z_plus, inject_Z_opp; ring).
  apply round64_int_eq_0 in E. lia.
Qed.

Lemma div64_same (d : Q) : ~ (d == 0)%Q -> (div64 d d == 1)%Q.
Proof.
  intros Hd. unfold div64.
  rewrite (round64_compat (d / d) 1) by (field; exact Hd).
  vm_compute. reflexivity.
Qed.

Lemma div64_zero (d : Q) : div64 0 d = 0%Q.
Proof.
  unfold div64. rewrite (round64_compat (0 / d) 0) by (unfold Qdiv; ring).
  reflexivity.
Qed.

(** [a * (1 - t) + b * t] at [t = 0] and at [t = 1]. *)
Lemma interpolate_0 (a b : Q) :
  (round64 a == a)%Q ->
  (add64 (mul64 a (sub64 1 0)) (mul64 b 0) == a)%Q.
Proof.
  intros Ha. unfold add64, mul64.
  assert (E1 : (sub64 1 0 == 1)%Q) by (vm_compute; reflexivity).
  rewrite (round64_compat (b * 0) 0) by ring.
  rewrite (round64_compat (a * sub64 1 0) a) by (rewrite E1; ring).
  change (round64 0) with 0%Q.
  rewrite (round64_compat (round64 a + 0) a) by (rewrite Ha; ring).
  exact Ha.
Qed.

Lemma interpolate_1 (a b u : Q) :
  (u == 1)%Q -> (round64 b == b)%Q ->
  (add64 (mul64 a (sub64 1 u)) (mul64 b u) == b)%Q.
Proof.
  intros Hu Hb. unfold add64, mul64, sub64.
  rewrite (round64_compat (1 - u) 0) by (rewrite Hu; ring).
  change (round64 0) with 0%Q.
  rewrite (round64_compat (a * 0) 0) by ring.
  change (round64 0) with 0%Q.
  rewrite (round64_compat (b * u) b) by (rewrite Hu; ring).
  rewrite (round64_compat (0 + round64 b) b) by (rewrite Hb; ring).
  exact Hb.
Qed.

(** ** The middle of the range *)

Lemma Qfloor_unique (y : Q) (z : Z) :
  (inject_Z z <= y < inject_Z (z + 1))%Q -> Qfloor y = z.
Proof.
  intros [Hlo Hhi]. pose proof (Qfloor_le y) as H1.
  pose proof (Qlt_floor y) as H2.
  assert (A : (inject_Z z < inject_Z (Qfloor y + 1))%Q)
    by (eapply Qle_lt_trans; eassumption).
  assert (B : (inject_Z (Qfloor y) < inject_Z (z + 1))%Q)
    by (eapply Qle_lt_trans; eassumption).
  rewrite <- Zlt_Qlt in A, B. lia.
Qed.

Lemma inject_Z_pred (z : Z) : (inject_Z (z - 1) == inject_Z z - 1)%Q.
Proof.
  unfold Zminus. rewrite inject_Z_plus, inject_Z_opp.
  change (inject_Z 1) with 1%Q. ring.
Qed.

Lemma roundTiesToEven_near (y : Q) (z : Z) :
  (inject_Z z - (1 # 2) < y < inject_Z z + (1 # 2))%Q ->
  roundTiesToEven y = z.
Proof.
  intros [Hlo Hhi]. unfold roundTiesToEven.
  pose proof (inject_Z_pred z) as Ep.
  destruct (Qlt_le_dec y (inject_Z z)) as [Hlt|Hge].
  - assert (Ef : Qfloor y = z - 1).
    { apply Qfloor_unique. replace (z - 1 + 1) with z by lia.
      split; [lra | exact Hlt]. }
    rewrite Ef.
    assert (G : (y - inject_Z (z - 1) ?= 1 # 2)%Q = Gt)
      by (apply (proj1 (Qgt_alt _ _)); lra).
    rewrite G. lia.
  - assert (Ef : Qfloor y = z).
    { apply Qfloor_unique. rewrite inject_Z_plus.
      change (inject_Z 1) with 1%Q. split; [exact Hge | lra]. }
    rewrite Ef.
    assert (G : (y - inject_Z z ?= 1 # 2)%Q = Lt)
      by (apply (proj1 (Qlt_alt _ _)); lra).
    now rewrite G.
Qed.

(** Rounding does not take a small value far from zero. *)
Lemma nearest_le_pow2 (x : Q) (j : Z) :
  (0 < x)%Q -> (x <= 2 ^ j)%Q -> - 1074 <= j -> (nearest x <= 2 ^ j)%Q.
Proof.
  intros Hx Hj Hmin. destruct (exponentOf_spec x Hx) as [Hlo _].
  unfold nearest. set (k := exponentOf x) in *.
  assert (Hk : k <= j).
  { destruct (Z.le_gt_cases k j) as [|Hgt]; [assumption|].
    assert (H : (2 ^ (j + 1) <= 2 ^ k)%Q) by (apply pow2_le; lia).
    rewrite pow2_succ in H. pose proof (pow2_pos j). lra. }
  set (e := Z.max (k - 52) (- 1074)).
  assert (Hle : e <= j) by lia.
  pose proof (pow2_pos e) as He.
  assert (EE : (2 ^ j == 2 ^ (j - e) * 2 ^ e)%Q).
  { rewrite <- Qpower_plus by discriminate.
    now replace (j - e + e) with j by lia. }
  assert (Ep : (inject_Z (2 ^ (j - e)) == 2 ^ (j - e))%Q)
    by (symmetry; apply pow2_Z; lia).
  assert (Hb : 0 <= roundTiesToEven (x / 2 ^ e) <= 2 ^ (j - e)).
  { apply roundTiesToEven_bounds. rewrite Ep. split.
    - apply Qle_shift_div_l; [exact He|]. change (inject_Z 0) with 0%Q. lra.
    - apply Qle_shift_div_r; [exact He|]. now rewrite <- EE. }
  rewrite EE. apply Qmult_le_compat_r; [|now apply Qlt_le_weak].
  rewrite <- Ep, <- Zle_Qle. lia.
Qed.

Lemma round64_small (q : Q) (j : Z) :
  (- 2 ^ j <= q <= 2 ^ j)%Q -> - 1074 <= j ->
  (- 2 ^ j <= round64 q <= 2 ^ j)%Q.
Proof.
  intros [Hlo Hhi] Hj. pose proof (pow2_pos j) as Hp.
  destruct (round64_cases q) as [[_ ->]|[[H ->]|[H ->]]].
  - lra.
  - assert (Hx : (0 < Qred q)%Q) by now rewrite Qred_correct.
    pose proof (nearest_le_pow2 (Qred q) j Hx
                  ltac:(now rewrite Qred_correct) Hj) as Hn.
    destruct (nearest_shape _ Hx) as (m & e & Em & _ & Hm & _).
    assert (H0 : (0 <= nearest (Qred q))%Q).
    { rewrite Em. apply Qmult_le_0_compat; [|apply Qlt_le_weak, pow2_pos].
      change 0%Q with (inject_Z 0). rewrite <- Zle_Qle. lia. }
    lra.
  - assert (Hx : (0 < - Qred q)%Q) by (rewrite Qred_correct; lra).
    pose proof (nearest_le_pow2 (- Qred q) j Hx
                  ltac:(rewrite Qred_correct; lra) Hj) as Hn.
    destruct (nearest_shape _ Hx) as (m & e & Em & _ & Hm & _).
    assert (H0 : (0 <= nearest (- Qred q))%Q).
    { rewrite Em. apply Qmult_le_0_compat; [|apply Qlt_le_weak, pow2_pos].
      change 0%Q with (inject_Z 0). rewrite <- Zle_Qle. lia. }
    lra.
Qed.

Lemma round64_near_25 (d : Q) :
  (- 2 ^ (- 60) <= d <= 2 ^ (- 60))%Q -> (round64 (25 + d) == 25)%Q.
Proof.
  intros Hd.
  assert (H60 : (2 ^ (- 60) == 1 # 1152921504606846976)%Q) by reflexivity.
  rewrite H60 in Hd. clear H60.
  destruct (round64_cases (25 + d)) as [[E _]|[[H ->]|[H _]]]; [lra| |lra].
  assert (Hx : (0 < Qred (25 + d))%Q) by now rewrite Qred_correct.
  assert (Ek : exponentOf (Qred (25 + d)) = 4).
  { apply pow2_unique; [|exact Hx]. rewrite Qred_correct.
    change (2 ^ 4)%Q with 16%Q. lra. }
  unfold nearest. rewrite Ek.
  change (Z.max (4 - 52) (- 1074)) with (- 48).
  assert (Er : roundTiesToEven (Qred (25 + d) / 2 ^ (- 48))
               = 25 * 2 ^ 48).
  { apply roundTiesToEven_near. rewrite Qred_correct.
    assert (E48 : (2 ^ (- 48) == 1 # 281474976710656)%Q) by reflexivity.
    rewrite E48.
    setoid_replace ((25 + d) / (1 # 281474976710656))%Q
      with ((25 + d) * 281474976710656)%Q by (field; discriminate).
    change (inject_Z (25 * 2 ^ 48)) with (25 * 281474976710656)%Q.
    lra. }
  rewrite Er. reflexivity.
Qed.

(** [a * (1 - t) + b * t] at [t = 0.5] on a range that starts at 50: the
    middle of the range. *)
Lemma interpolate_half (b : Q) :
  (round64 b == b)%Q ->
  (add64 (mul64 50 (sub64 1 (1 # 2))) (mul64 b (1 # 2))
   == round64 ((50 + b) / 2))%Q.
Proof.
  intros Hb. unfold add64.
  assert (E1 : (mul64 50 (sub64 1 (1 # 2)) == 25)%Q)
    by (vm_compute; reflexivity).
  rewrite (round64_compat _ (25 + mul64 b (1 # 2)))
    by (rewrite E1; reflexivity).
  rewrite (round64_compat ((50 + b) / 2) (25 + b * (1 # 2))) by field.
  destruct (round64_shape b) as (M & E & HM & HE & EM). rewrite Hb in EM.
  unfold mul64.
  destruct (Z.eq_dec E (- 1074)) as [->|Hne].
  - assert (Hsmall : (- 2 ^ (- 60) <= b * (1 # 2) <= 2 ^ (- 60))%Q).
    { assert (B1 : (- inject_Z (2 ^ 53) <= inject_Z M <= inject_Z (2 ^ 53))%Q).
      { rewrite <- inject_Z_opp, <- !Zle_Qle. lia. }
      pose proof (pow2_pos (- 1074)) as Hp.
      assert (E60 : (2 ^ (- 60) == inject_Z (2 ^ 53) * 2 ^ (- 1074) * (1 # 2)
                                   * 2 ^ 962)%Q) by reflexivity.
      assert (H962 : (1 <= 2 ^ 962)%Q)
        by (change 1%Q with (2 ^ 0)%Q; apply pow2_le; lia).
      set (P := (inject_Z (2 ^ 53) * 2 ^ (- 1074))%Q) in *.
      assert (HP : (0 < P)%Q)
        by (apply Qmult_lt_0_compat; [reflexivity | exact Hp]).
      assert (Hb1 : (- P <= b <= P)%Q).
      { rewrite EM. unfold P. split.
        - setoid_replace (- (inject_Z (2 ^ 53) * 2 ^ (- 1074)))%Q
            with ((- inject_Z (2 ^ 53)) * 2 ^ (- 1074))%Q by ring.
          apply Qmult_le_compat_r; [tauto | now apply Qlt_le_weak].
        - apply Qmult_le_compat_r; [tauto | now apply Qlt_le_weak]. }
      assert (Hmul : (P * (1 # 2) <= P * (1 # 2) * 2 ^ 962)%Q).
      { setoid_replace (P * (1 # 2))%Q with (P * (1 # 2) * 1)%Q at 1 by ring.
        rewrite !(Qmult_comm (P * (1 # 2))).
        apply Qmult_le_compat_r; [exact H962 | lra]. }
      rewrite E60. lra. }
    pose proof (round64_small _ (- 60) Hsmall ltac:(lia)) as Hsmall'.
    rewrite (round64_near_25 _ Hsmall'), (round64_near_25 _ Hsmall).
    reflexivity.
  - assert (Eh : (round64 (b * (1 # 2)) == b * (1 # 2))%Q).
    { apply (round64_exact _ M (E - 1) HM); [lia|].
      pose proof (pow2_succ (E - 1)) as Es.
      replace (E - 1 + 1) with E in Es by lia.
      rewrite EM, Es. ring. }
    rewrite (round64_compat _ (25 + b * (1 # 2))) by (rewrite Eh; reflexivity).
    reflexivity.
Qed.

(** ** Strings *)

Lemma length_append (s t : string) :
  String.length (s ++ t) = (String.length s + String.length t)%nat.
Proof.
  induction s as [|c s IH]; cbn; [reflexivity | now rewrite IH].
Qed.

Lemma substring_prefix (n : nat) (s : string) :
  (n <= String.length s)%nat ->
  String.length (String.substring 0 n s) = n
  /\ exists rest, s = String.substring 0 n s ++ rest.
Proof.
  revert s; induction n as [|n IH]; intros s Hn.
  - destruct s; cbn; split; try reflexivity; eexists; reflexivity.
  - destruct s as [|c s]; cbn in Hn; [lia|].
    destruct (IH s ltac:(lia)) as [Hlen [rest Hrest]].
    cbn; split; [now rewrite Hlen|].
    exists rest. now rewrite <- Hrest.
Qed.

Lemma JS_substring_first (n : nat) (s : string) :
  (n <= String.length s)%nat ->
  String.length (JS.substring s 0 n) = n
  /\ exists rest, s = JS.substring s 0 n ++ rest.
Proof.
  intros Hn. unfold JS.substring.
  replace (Nat.min (Nat.min 0 n) (String.length s)) with O by lia.
  replace (Nat.min (Nat.max 0 n) (String.length s) - 0)%nat with n by lia.
  now apply substring_prefix.
Qed.

(** C6.  [formatStringDisplay] returns an input of at most 10 characters
    unchanged; a longer input becomes its first 7 characters followed by
    the three characters ["..."], 10 characters in all. *)
Theorem formatStringDisplay_spec (input : string) :
  ((String.length input <= 10)%nat -> formatStringDisplay input = input)
  /\ ((10 < String.length input)%nat ->
      formatStringDisplay input = JS.substring input 0 7 ++ "..."
      /\ String.length (JS.substring input 0 7) = 7%nat
      /\ (exists rest, input = JS.substring input 0 7 ++ rest)
      /\ String.length "..." = 3%nat
      /\ String.length (formatStringDisplay input) = 10%nat).
Proof.
  unfold formatStringDisplay. split; intros H.
  - apply Nat.leb_le in H. now rewrite H.
  - assert (Hb : (String.length input <=? 10)%nat = false)
      by (apply Nat.leb_gt; exact H).
    rewrite Hb.
    destruct (JS_substring_first 7 input ltac:(lia)) as [Hlen Hpre].
    repeat split; try assumption.
    rewrite length_append, Hlen. reflexivity.
Qed.

Lemma formatStringDisplay_spec_witness :
  formatStringDisplay "Short" = "Short"
  /\ String.length (formatStringDisplay "A long event name") = 10%nat.
Proof.
  split.
  - apply (proj1 (formatStringDisplay_spec "Short")). cbn. lia.
  - apply (proj2 (formatStringDisplay_spec "A long event name")). cbn. lia.
Defined.

(** C7 (as the code behaves).  ["HelloWorldExample"] has 17 characters and
    is displayed as its first 7 characters and the ellipsis,
    ["HelloWo..."]; ["Short"] is displayed unchanged. *)
Theorem formatStringDisplay_examples :
  String.length "HelloWorldExample" = 17%nat
  /\ formatStringDisplay "HelloWorldExample" = "HelloWo..."
  /\ String.length "Short" = 5%nat
  /\ formatStringDisplay "Short" = "Short".
Proof. repeat split. Qed.

(** C7 as stated fails: the display of ["HelloWorldExample"] is not
    ["HelloWor..."], which keeps 8 characters of the input. *)
Lemma formatStringDisplay_HelloWorldExample_differs :
  formatStringDisplay "HelloWorldExample" <> "HelloWor...".
Proof. cbv. discriminate. Qed.

(** ** Calendar arithmetic *)

Module DateFacts.
Import DateTime.

Lemma DayFromYear_succ (y : Z) :
  DayFromYear (y + 1) = DayFromYear y + DaysInYear y.
Proof.
  unfold DayFromYear, DaysInYear.
  destruct (Z.eqb_spec (y mod 4) 0); destruct (Z.eqb_spec (y mod 100) 0);
    destruct (Z.eqb_spec (y mod 400) 0); cbn [negb];
    Z.div_mod_to_equations; lia.
Qed.

Lemma DaysInYear_cases (y : Z) : DaysInYear y = 365 \/ DaysInYear y = 366.
Proof.
  unfold DaysInYear.
  destruct (y mod 4 =? 0), (y mod 100 =? 0), (y mod 400 =? 0); cbn; auto.
Qed.

Lemma DayFromYear_mono (y y' : Z) :
  y < y' -> DayFromYear y < DayFromYear y'.
Proof.
  intros H. unfold DayFromYear. Z.div_mod_to_equations. lia.
Qed.

(** The corrected estimate is the year whose days include [d]. *)
Lemma YearFromDay_spec (d : Z) :
  DayFromYear (YearFromDay d) <= d < DayFromYear (YearFromDay d + 1).
Proof.
  unfold YearFromDay.
  set (y := 1970 + 400 * d / 146097).
  assert (Hy : 146097 * (y - 1970) <= 400 * d
               < 146097 * (y - 1970) + 146097).
  { unfold y. Z.div_mod_to_equations. lia. }
  clearbody y.
  destruct (Z.ltb_spec d (DayFromYear y)) as [H1|H1].
  - replace (y - 1 + 1) with y by lia. split; [|exact H1].
    unfold DayFromYear in *. Z.div_mod_to_equations. lia.
  - destruct (Z.leb_spec (DayFromYear (y + 1)) d) as [H2|H2].
    + split; [exact H2|].
      unfold DayFromYear in *. Z.div_mod_to_equations. lia.
    + split; assumption.
Qed.

(** [YearFromTime t] is the largest year that starts at or before [t]. *)
Lemma YearFromTime_spec (t : Z) :
  TimeFromYear (YearFromTime t) <= t < TimeFromYear (YearFromTime t + 1)
  /\ forall y, TimeFromYear y <= t -> y <= YearFromTime t.
Proof.
  unfold YearFromTime, TimeFromYear.
  pose proof (YearFromDay_spec (Day t)) as H.
  assert (Ht : msPerDay * Day t <= t < msPerDay * Day t + msPerDay).
  { unfold Day, msPerDay. Z.div_mod_to_equations. lia. }
  unfold msPerDay in *.
  split; [lia|].
  intros y Hy.
  destruct (Z.le_gt_cases y (YearFromDay (Day t))) as [|Hgt]; [assumption|].
  assert (DayFromYear (YearFromDay (Day t) + 1) <= DayFromYear y).
  { destruct (Z.eq_dec y (YearFromDay (Day t) + 1)) as [->|]; [lia|].
    apply Z.lt_le_incl, DayFromYear_mono. lia. }
  lia.
Qed.

Lemma DayWithinYear_range (t : Z) :
  0 <= DayWithinYear t < DaysInYear (YearFromTime t).
Proof.
  unfold DayWithinYear, YearFromTime.
  pose proof (YearFromDay_spec (Day t)) as H.
  rewrite DayFromYear_succ in H. lia.
Qed.

Lemma MonthFromTime_range (t : Z) : 0 <= MonthFromTime t <= 11.
Proof.
  unfold MonthFromTime.
  repeat match goal with
         | |- context [if ?b then _ else _] => destruct b
         end; lia.
Qed.

(** The day of the month lies within its month. *)
Lemma DateFromTime_range (t : Z) :
  1 <= DateFromTime t
    <= ISO.DaysInMonth (YearFromTime t) (MonthFromTime t).
Proof.
  pose proof (DayWithinYear_range t) as Hd.
  unfold DateFromTime, ISO.DaysInMonth, MonthFromTime, InLeapYear in *.
  destruct (DaysInYear_cases (YearFromTime t)) as [E|E]; rewrite E in *;
    cbn [Z.eqb Pos.eqb] in *;
    repeat match goal with
           | |- context [if ?b then _ else _] =>
               destruct (Z.ltb_spec (DayWithinYear t)
                           ltac:(match b with _ <? ?k => exact k end))
           end; cbn; lia.
Qed.

Lemma DaysInMonth_le_31 (y m : Z) :
  0 <= m <= 11 -> 28 <= ISO.DaysInMonth y m <= 31.
Proof.
  intros Hm. unfold ISO.DaysInMonth.
  assert (Hc : m = 0 \/ m = 1 \/ m = 2 \/ m = 3 \/ m = 4 \/ m = 5 \/ m = 6
               \/ m = 7 \/ m = 8 \/ m = 9 \/ m = 10 \/ m = 11) by lia.
  destruct (DaysInYear y =? 366);
    repeat (destruct Hc as [->|Hc]; [cbn; lia|]); subst; cbn; lia.
Qed.

End DateFacts.

(** ** Decimal text of small numbers *)

Lemma range_check (f : Z -> bool) (lo len n : Z) :
  forallb f (map (fun k => lo + Z.of_nat k) (seq 0 (Z.to_nat len))) = true ->
  lo <= n < lo + len ->
  f n = true.
Proof.
  intros Hall Hn.
  rewrite forallb_forall in Hall. apply Hall.
  apply in_map_iff. exists (Z.to_nat (n - lo)). split; [lia|].
  apply in_seq. lia.
Qed.

Lemma twoDigitOk_range (n : Z) : 0 <= n <= 99 -> twoDigitOk n = true.
Proof.
  intros Hn. apply (range_check twoDigitOk 0 100); [|lia].
  vm_compute. reflexivity.
Qed.

Lemma twoDigits (n : Z) :
  0 <= n <= 99 ->
  exists a b,
    padStart (String_ (Some n)) 2 "0" = String a (String b "")
    /\ ISO.digits2 a b = Some n.
Proof.
  intros Hn. pose proof (twoDigitOk_range n Hn) as H.
  unfold twoDigitOk in H.
  destruct (padStart (String_ (Some n)) 2 "0") as [|a [|b [|? ?]]];
    try discriminate.
  exists a, b. split; [reflexivity|].
  destruct (ISO.digits2 a b) as [m|]; [|discriminate].
  apply Z.eqb_eq in H. now subst.
Qed.

Lemma digit_digitChar (k : Z) :
  0 <= k <= 9 -> ISO.digit (digitChar k) = Some k.
Proof.
  intros Hk.
  assert (Hc : k = 0 \/ k = 1 \/ k = 2 \/ k = 3 \/ k = 4 \/ k = 5
               \/ k = 6 \/ k = 7 \/ k = 8 \/ k = 9) by lia.
  repeat (destruct Hc as [->|Hc]; [reflexivity|]). subst. reflexivity.
Qed.

Lemma fourDigits (n : Z) :
  1000 <= n <= 9999 ->
  exists a b c d,
    String_ (Some n) = String a (String b (String c (String d "")))
    /\ ISO.digits4 a b c d = Some n.
Proof.
  intros Hn. unfold String_, decimalOfNat.
  destruct (Z.ltb_spec n 0) as [|_]; [lia|].
  assert (Hlog : 3 <= Z.log2 n).
  { change 3 with (Z.log2 8). apply Z.log2_le_mono. lia. }
  destruct (Z.to_nat (Z.log2 n)) as [|[|[|fuel]]] eqn:Efuel; try lia.
  cbn [decimal].
  destruct (Z.eqb_spec (n / 10) 0) as [E|_];
    [exfalso; Z.div_mod_to_equations; lia|].
  destruct (Z.eqb_spec (n / 10 / 10) 0) as [E|_];
    [exfalso; Z.div_mod_to_equations; lia|].
  destruct (Z.eqb_spec (n / 10 / 10 / 10) 0) as [E|_];
    [exfalso; Z.div_mod_to_equations; lia|].
  assert (Hend : decimal fuel (n / 10 / 10 / 10)
                   (String (digitChar (n / 10 / 10 mod 10))
                      (String (digitChar (n / 10 mod 10))
                         (String (digitChar (n mod 10)) "")))
                 = String (digitChar (n / 10 / 10 / 10 mod 10))
                     (String (digitChar (n / 10 / 10 mod 10))
                        (String (digitChar (n / 10 mod 10))
                           (String (digitChar (n mod 10)) "")))).
  { destruct fuel as [|fuel']; cbn [decimal]; [reflexivity|].
    destruct (Z.eqb_spec (n / 10 / 10 / 10 / 10) 0) as [_|E];
      [reflexivity | exfalso; Z.div_mod_to_equations; lia]. }
  rewrite Hend. do 4 eexists. split; [reflexivity|].
  unfold ISO.digits4, ISO.digits2.
  rewrite !digit_digitChar by (Z.div_mod_to_equations; lia).
  f_equal. Z.div_mod_to_equations. lia.
Qed.

(** ** The date formatter *)

Section FormatDate.

Variable legacyParse : string -> integral.
Variable LocalTZA : Z -> Z.

Lemma formatDate_invalid (isoDate : string) :
  Date_new legacyParse isoDate = None ->
  formatDate legacyParse LocalTZA isoDate = "NaN/NaN/NaN".
Proof.
  intros H. unfold formatDate. rewrite H. reflexivity.
Qed.

Lemma formatDate_valid (isoDate : string) (t : Z) :
  Date_new legacyParse isoDate = Some t ->
  let lt := LocalTime LocalTZA t in
  exists d1 d2 m1 m2,
    formatDate legacyParse LocalTZA isoDate
    = String d1 (String d2 (String "/" (String m1 (String m2 (String "/"
        (String_ (Some (DateTime.YearFromTime lt))))))))
    /\ ISO.digits2 d1 d2 = Some (DateTime.DateFromTime lt)
    /\ ISO.digits2 m1 m2 = Some (DateTime.MonthFromTime lt + 1).
Proof.
  intros H lt. unfold formatDate. rewrite H. cbn [getDate getMonth
    getFullYear option_map]. fold lt.
  pose proof (DateFacts.MonthFromTime_range lt) as Hm.
  pose proof (DateFacts.DateFromTime_range lt) as Hd.
  pose proof (DateFacts.DaysInMonth_le_31 (DateTime.YearFromTime lt) _ Hm).
  destruct (twoDigits (DateTime.DateFromTime lt)) as (d1 & d2 & E1 & D1);
    [lia|].
  destruct (twoDigits (DateTime.MonthFromTime lt + 1))
    as (m1 & m2 & E2 & D2); [lia|].
  exists d1, d2, m1, m2. rewrite E1, E2. auto.
Qed.

Lemma calendar_of_day (t d : Z) :
  DateTime.Day t = d ->
  DateTime.YearFromTime t = DateTime.YearFromDay d
  /\ DateTime.MonthFromTime t
     = DateTime.MonthFromTime (DateTime.msPerDay * d)
  /\ DateTime.DateFromTime t
     = DateTime.DateFromTime (DateTime.msPerDay * d).
Proof.
  intros H.
  assert (Hd : DateTime.Day (DateTime.msPerDay * d) = d).
  { unfold DateTime.Day, DateTime.msPerDay.
    Z.div_mod_to_equations. lia. }
  unfold DateTime.DateFromTime, DateTime.MonthFromTime,
    DateTime.InLeapYear, DateTime.DayWithinYear, DateTime.YearFromTime.
  rewrite H, Hd. auto.
Qed.

Lemma formatDate_2024_03_05 :
  0 <= LocalTZA 1709596800000 < DateTime.msPerDay ->
  formatDate legacyParse LocalTZA "2024-03-05" = "05/03/2024".
Proof.
  intros Htz. unfold formatDate.
  change (Date_new legacyParse "2024-03-05") with (Some 1709596800000).
  cbn [getDate getMonth getFullYear option_map].
  destruct (calendar_of_day (LocalTime LocalTZA 1709596800000) 19787)
    as (Ey & Em & Ed).
  { unfold LocalTime, DateTime.Day, DateTime.msPerDay in *.
    Z.div_mod_to_equations. lia. }
  rewrite Ey, Em, Ed. vm_compute. reflexivity.
Qed.

(** C5 (as the code behaves).  A raw date that does not parse is shown
    as ["NaN/NaN/NaN"].  One that parses to the time [t] is shown as the
    calendar date of [t] in the host's local time: the day and the month,
    each as two digits, then the year in decimal without padding, which
    is four digits for the years 1000 to 9999.  ["2024-03-05"] is shown
    as ["05/03/2024"] where local time is at or ahead of UTC. *)
Theorem formatDate_spec (isoDate : string) :
  (Date_new legacyParse isoDate = None ->
   formatDate legacyParse LocalTZA isoDate = "NaN/NaN/NaN")
  /\ (forall t, Date_new legacyParse isoDate = Some t ->
      let lt := LocalTime LocalTZA t in
      let y := DateTime.YearFromTime lt in
      let m := DateTime.MonthFromTime lt in
      let d := DateTime.DateFromTime lt in
      DateTime.TimeFromYear y <= lt < DateTime.TimeFromYear (y + 1)
      /\ 0 <= m <= 11
      /\ 1 <= d <= ISO.DaysInMonth y m
      /\ (exists d1 d2 m1 m2,
            formatDate legacyParse LocalTZA isoDate
            = String d1 (String d2 (String "/" (String m1 (String m2
                (String "/" (String_ (Some y)))))))
            /\ ISO.digits2 d1 d2 = Some d
            /\ ISO.digits2 m1 m2 = Some (m + 1))
      /\ (1000 <= y <= 9999 ->
          exists a b c e,
            String_ (Some y) = String a (String b (String c (String e "")))
            /\ ISO.digits4 a b c e = Some y))
  /\ (0 <= LocalTZA 1709596800000 < DateTime.msPerDay ->
      formatDate legacyParse LocalTZA "2024-03-05" = "05/03/2024").
Proof.
  split; [apply formatDate_invalid|].
  split; [|apply formatDate_2024_03_05].
  intros t Ht lt y m d.
  split; [apply DateFacts.YearFromTime_spec|].
  split; [apply DateFacts.MonthFromTime_range|].
  split; [apply DateFacts.DateFromTime_range|].
  split; [apply (formatDate_valid isoDate t Ht)|].
  apply fourDigits.
Qed.

End FormatDate.

Lemma formatDate_spec_witness :
  formatDate (fun _ => None) (fun _ => 0) "not a date" = "NaN/NaN/NaN"
  /\ formatDate (fun _ => None) (fun _ => 0) "2024-03-05" = "05/03/2024".
Proof.
  split.
  - apply (proj1 (formatDate_spec (fun _ => None) (fun _ => 0) "not a date")).
    reflexivity.
  - apply (proj2 (proj2
             (formatDate_spec (fun _ => None) (fun _ => 0) "2024-03-05"))).
    vm_compute. split; [discriminate | reflexivity].
Defined.

(** C5 as stated fails.  A year below 1000 is not padded to four digits:
    at UTC the raw date ["0999-01-01"] is shown as ["01/01/999"].  The
    fields are those of local time: five hours behind UTC, the raw date
    ["2024-03-05"] is shown as ["04/03/2024"]. *)
Lemma formatDate_not_DD_MM_YYYY :
  formatDate (fun _ => None) (fun _ => 0) "0999-01-01" = "01/01/999"
  /\ formatDate (fun _ => None) (fun _ => -18000000) "2024-03-05"
     = "04/03/2024".
Proof. split; vm_compute; reflexivity. Qed.

(** ** Column roles *)

Lemma scanColumn_idOf (R : RoleName) (idColumns : IdColumns) (i : nat)
  (column : Column) :
  idOf R (scanColumn idColumns i column)
  = if flag R (roles column) then Some i else idOf R idColumns.
Proof. destruct R; reflexivity. Qed.

(** A role that no column carries stays unresolved. *)
Lemma scanColumns_unresolved (R : RoleName) (cols : list Column) :
  (forall column, In column cols -> flag R (roles column) = false) ->
  forall i idColumns,
    idOf R (scanColumns cols i idColumns) = idOf R idColumns.
Proof.
  induction cols as [|column rest IH]; intros Hno i idColumns;
    [reflexivity|].
  cbn [scanColumns]. rewrite IH by (intros; apply Hno; now right).
  rewrite scanColumn_idOf, Hno by now left. reflexivity.
Qed.

(** A resolved role names a column that carries it: the last one. *)
Lemma scanColumns_resolved (R : RoleName) (cols : list Column) :
  forall i idColumns n,
    idOf R (scanColumns cols i idColumns) = Some n ->
    idOf R idColumns = Some n
    \/ (i <= n)%nat
       /\ exists column, nth_error cols (n - i) = Some column
                         /\ flag R (roles column) = true.
Proof.
  induction cols as [|column rest IH]; intros i idColumns n H;
    [now left|].
  cbn [scanColumns] in H. apply IH in H.
  destruct H as [H|(Hle & c & Hc & Hf)].
  - rewrite scanColumn_idOf in H.
    destruct (flag R (roles column)) eqn:E; [|now left].
    injection H as <-. right. split; [lia|].
    exists column. rewrite Nat.sub_diag. now split.
  - right. split; [lia|]. exists c. split; [|exact Hf].
    replace (n - i)%nat with (S (n - S i)) by lia. exact Hc.
Qed.

(** ** The row callback *)

Section RowItem.

Variable legacyParse : string -> integral.
Variable LocalTZA : Z -> Z.
Variable idColumns : IdColumns.

(** The record pushed for a readable row and the state it leaves. *)
Lemma rowItem_Normal (row : list Cell) (v : Visual)
  (dt ev ds ca sa : string) :
  at_ row (id_Date idColumns) = Some (Value dt) ->
  at_ row (id_Event idColumns) = Some (Value ev) ->
  at_ row (id_Description idColumns) = Some (Value ds) ->
  at_ row (id_Color idColumns) = Some (Value ca) ->
  at_ row (id_Symbol idColumns) = Some (Value sa) ->
  rowItem legacyParse LocalTZA idColumns row v
  = (Normal
       {| date := dt;
          dateDisplay := formatDate legacyParse LocalTZA dt;
          event := ev;
          eventDisplay := formatStringDisplay ev;
          description := ds;
          colorAttribute := ca;
          color := fst (D3.call (colorScale v) ca);
          symbolAttribute := sa;
          symbol := fst (D3.call (symbolScale v) sa) |},
     {| data := data v;
        colorScale := snd (D3.call (colorScale v) ca);
        symbolScale := snd (D3.call (symbolScale v) sa);
        target := target v |}).
Proof.
  intros Hd He Hs Hc Hy. unfold rowItem, bind.
  rewrite Hd, He, Hs, Hc, Hy. cbn [toString ret].
  destruct (id_Date idColumns); [|discriminate].
  destruct (id_Event idColumns); [|discriminate].
  destruct (id_Color idColumns); [|discriminate].
  destruct (id_Symbol idColumns); [|discriminate].
  cbn [toString ret]. unfold call_colorScale, call_symbolScale.
  destruct (D3.call (colorScale v) ca) as [cv cs]. cbn.
  destruct (D3.call (symbolScale v) sa) as [sv ss]. reflexivity.
Qed.

Lemma readable_values (row : list Cell) :
  readable idColumns row = true ->
  exists dt ev ds ca sa,
    at_ row (id_Date idColumns) = Some (Value dt)
    /\ at_ row (id_Event idColumns) = Some (Value ev)
    /\ at_ row (id_Description idColumns) = Some (Value ds)
    /\ at_ row (id_Color idColumns) = Some (Value ca)
    /\ at_ row (id_Symbol idColumns) = Some (Value sa).
Proof.
  unfold readable, allRoles, hasValue. cbn [forallb idOf].
  intros H. repeat (apply andb_prop in H; destruct H as [? H]).
  destruct (at_ row (id_Date idColumns)) as [[dt|]|]; try discriminate.
  destruct (at_ row (id_Event idColumns)) as [[ev|]|]; try discriminate.
  destruct (at_ row (id_Description idColumns)) as [[ds|]|];
    try discriminate.
  destruct (at_ row (id_Color idColumns)) as [[ca|]|]; try discriminate.
  destruct (at_ row (id_Symbol idColumns)) as [[sa|]|]; try discriminate.
  exists dt, ev, ds, ca, sa. auto.
Qed.

(** A row with a read that finds no value raises before any scale is
    called. *)
Lemma rowItem_Throw (row : list Cell) (v : Visual) :
  readable idColumns row = false ->
  rowItem legacyParse LocalTZA idColumns row v = (Throw TypeError, v).
Proof.
  unfold readable, allRoles, hasValue, rowItem, bind.
  cbn [forallb idOf]. intros H.
  destruct (at_ row (id_Date idColumns)) as [[dt|]|]; try reflexivity.
  destruct (at_ row (id_Event idColumns)) as [[ev|]|]; try reflexivity.
  destruct (at_ row (id_Description idColumns)) as [[ds|]|];
    try reflexivity.
  destruct (at_ row (id_Color idColumns)) as [[ca|]|]; try reflexivity.
  destruct (at_ row (id_Symbol idColumns)) as [[sa|]|]; try reflexivity.
  discriminate.
Qed.

End RowItem.

(** ** Ordinal scales *)

Module ScaleFacts.
Import D3.

Lemma index_of_bound (d : string) (dom : list string) (i : nat) :
  index_of d dom = Some i -> (i < List.length dom)%nat.
Proof.
  revert i; induction dom as [|x dom IH]; intros i H; [discriminate|].
  cbn in *. destruct (String.eqb x d).
  - injection H as <-. lia.
  - destruct (index_of d dom) as [j|]; [|discriminate].
    injection H as <-. specialize (IH j eq_refl). lia.
Qed.

Lemma index_of_nth (d : string) (dom : list string) (i : nat) :
  index_of d dom = Some i -> nth_error dom i = Some d.
Proof.
  revert i; induction dom as [|x dom IH]; intros i H; [discriminate|].
  cbn in H. destruct (String.eqb_spec x d) as [->|].
  - injection H as <-. reflexivity.
  - destruct (index_of d dom) as [j|]; [|discriminate].
    injection H as <-. cbn. now apply IH.
Qed.

Lemma index_of_app_known (d : string) (dom more : list string) (i : nat) :
  index_of d dom = Some i -> index_of d (dom ++ more)%list = Some i.
Proof.
  revert i; induction dom as [|x dom IH]; intros i H; [discriminate|].
  cbn in *. destruct (String.eqb x d); [assumption|].
  destruct (index_of d dom) as [j|]; [|discriminate].
  now rewrite (IH j eq_refl).
Qed.

Lemma index_of_app_new (d : string) (dom : list string) :
  index_of d dom = None ->
  index_of d (dom ++ [d])%list = Some (List.length dom).
Proof.
  induction dom as [|x dom IH]; intros H; cbn in *.
  - now rewrite String.eqb_refl.
  - destruct (String.eqb x d); [discriminate|].
    destruct (index_of d dom); [discriminate|].
    now rewrite IH.
Qed.

Lemma extends_refl (s : ScaleOrdinal) : extends s s.
Proof. split; [reflexivity|]. exists []. now rewrite app_nil_r. Qed.

Lemma extends_trans (s1 s2 s3 : ScaleOrdinal) :
  extends s1 s2 -> extends s2 s3 -> extends s1 s3.
Proof.
  intros [R1 [m1 D1]] [R2 [m2 D2]]. split; [congruence|].
  exists (m1 ++ m2)%list. now rewrite D2, D1, app_assoc.
Qed.

(** Later calls do not change the value of a label already seen. *)
Lemma extends_value_of (s s' : ScaleOrdinal) (d : string) :
  extends s s' ->
  index_of d (domain s) <> None ->
  value_of s' d = value_of s d
  /\ index_of d (domain s') <> None.
Proof.
  intros [R [more D]] Hin. unfold value_of.
  destruct (index_of d (domain s)) as [i|] eqn:E; [|contradiction].
  rewrite D, (index_of_app_known _ _ more _ E), R.
  split; [reflexivity | discriminate].
Qed.

(** A call returns the value the scale holds for the label afterwards. *)
Lemma call_spec (s : ScaleOrdinal) (d : string) :
  extends s (snd (call s d))
  /\ fst (call s d) = value_of (snd (call s d)) d
  /\ index_of d (domain (snd (call s d))) <> None.
Proof.
  unfold call, value_of.
  destruct (index_of d (domain s)) as [i|] eqn:E; cbn [fst snd].
  - rewrite E. split; [apply extends_refl|]. split; [reflexivity|].
    discriminate.
  - cbn [domain range]. rewrite (index_of_app_new _ _ E).
    split; [|split; [reflexivity | discriminate]].
    split; [reflexivity|]. now exists [d].
Qed.

(** A label seen before: same index, scale unchanged. *)
Lemma call_known (s : ScaleOrdinal) (d : string) (i : nat) :
  index_of d (domain s) = Some i ->
  call s d = (range_at (range s) i, s).
Proof. intros E. unfold call. now rewrite E. Qed.

(** A new label joins the end of the domain and takes the range entry at
    the number of labels seen before, counted round the range. *)
Lemma call_new (s : ScaleOrdinal) (d : string) :
  index_of d (domain s) = None ->
  call s d
  = (range_at (range s) (List.length (domain s)),
     {| domain := (domain s ++ [d])%list; range := range s |}).
Proof. intros E. unfold call. now rewrite E. Qed.

Lemma range_at_fresh (rng : list string) (i : nat) :
  (i < List.length rng)%nat -> range_at rng i = nth_error rng i.
Proof.
  intros H. unfold range_at.
  destruct (List.length rng) eqn:E; [lia|].
  now rewrite Nat.mod_small by lia.
Qed.

Lemma range_at_wraps (rng : list string) (i : nat) :
  rng <> [] ->
  range_at rng (i + List.length rng) = range_at rng i.
Proof.
  intros H. unfold range_at.
  destruct (List.length rng) eqn:E.
  - destruct rng; [contradiction | discriminate].
  - f_equal. rewrite <- (Nat.mul_1_l (S n)) at 1.
    now rewrite Nat.Div0.mod_add.
Qed.

Lemma range_at_empty (i : nat) : range_at [] i = None.
Proof. reflexivity. Qed.

End ScaleFacts.

(** ** The data mapper *)

Section Mapper.

Variable legacyParse : string -> integral.
Variable LocalTZA : Z -> Z.

Lemma grows_refl (v : Visual) : grows v v.
Proof. split; apply ScaleFacts.extends_refl. Qed.

Lemma grows_trans (v1 v2 v3 : Visual) :
  grows v1 v2 -> grows v2 v3 -> grows v1 v3.
Proof.
  intros [C1 S1] [C2 S2].
  split; eapply ScaleFacts.extends_trans; eassumption.
Qed.

Lemma encoded_grows (v v' : Visual) (d : Data) :
  grows v v' -> encoded v d -> encoded v' d.
Proof.
  intros [Gc Gs] (Hc & Hci & Hs & Hsi).
  destruct (ScaleFacts.extends_value_of _ _ _ Gc Hci) as [Ec Ic].
  destruct (ScaleFacts.extends_value_of _ _ _ Gs Hsi) as [Es Is].
  repeat split; try assumption; congruence.
Qed.

(** Rows that are all readable: one record each, in order. *)
Lemma forEachRow_Normal (idColumns : IdColumns) (rows : list (list Cell)) :
  forallb (readable idColumns) rows = true ->
  forall acc v,
  exists items v',
    forEachRow legacyParse LocalTZA idColumns rows acc v
    = (Normal (acc ++ items)%list, v')
    /\ Forall2 (derivedFrom legacyParse LocalTZA idColumns) rows items
    /\ grows v v'
    /\ data v' = data v /\ target v' = target v
    /\ Forall (encoded v') items.
Proof.
  induction rows as [|row rest IH]; intros Hall acc v.
  - exists [], v. cbn [forEachRow ret]. rewrite app_nil_r.
    split; [reflexivity|]. split; [constructor|].
    split; [apply grows_refl|]. auto.
  - cbn [forallb] in Hall. apply andb_prop in Hall as [Hrow Hrest].
    destruct (readable_values idColumns row Hrow)
      as (dt & ev & ds & ca & sa & Hd & He & Hs & Hc & Hy).
    pose proof (rowItem_Normal legacyParse LocalTZA idColumns row v
                  dt ev ds ca sa Hd He Hs Hc Hy) as Hitem.
    set (item := {| date := dt |}) in Hitem.
    set (v1 := {| data := data v |}) in Hitem.
    destruct (IH Hrest (acc ++ [item])%list v1)
      as (items & v' & Hrun & Hder & Hgrow & Hdata & Htarget & Henc).
    exists (item :: items), v'.
    cbn [forEachRow]. unfold bind at 1. rewrite Hitem, Hrun.
    rewrite <- app_assoc. cbn [app].
    assert (G1 : grows v v1).
    { split; subst v1; cbn [colorScale symbolScale];
        apply ScaleFacts.call_spec. }
    split; [reflexivity|].
    split.
    { constructor; [|exact Hder].
      subst item. unfold derivedFrom. cbn. auto 10. }
    split; [eapply grows_trans; eassumption|].
    split; [exact Hdata|]. split; [exact Htarget|].
    constructor; [|exact Henc].
    apply (encoded_grows v1 v' item Hgrow).
    subst item v1. unfold encoded.
    cbn [color colorAttribute symbol symbolAttribute colorScale
           symbolScale].
    destruct (ScaleFacts.call_spec (colorScale v) ca) as (_ & ? & ?).
    destruct (ScaleFacts.call_spec (symbolScale v) sa) as (_ & ? & ?).
    auto.
Qed.

(** A row that is not readable makes the mapper raise. *)
Lemma forEachRow_Throw (idColumns : IdColumns) (rows : list (list Cell)) :
  forallb (readable idColumns) rows = false ->
  forall acc v,
  exists v',
    forEachRow legacyParse LocalTZA idColumns rows acc v
    = (Throw TypeError, v')
    /\ grows v v' /\ data v' = data v /\ target v' = target v.
Proof.
  induction rows as [|row rest IH]; intros Hall acc v; [discriminate|].
  cbn [forallb] in Hall. cbn [forEachRow]. unfold bind at 1.
  destruct (readable idColumns row) eqn:Hrow.
  - destruct (readable_values idColumns row Hrow)
      as (dt & ev & ds & ca & sa & Hd & He & Hs & Hc & Hy).
    rewrite (rowItem_Normal legacyParse LocalTZA idColumns row v
               dt ev ds ca sa Hd He Hs Hc Hy).
    match goal with
    | |- context [forEachRow _ _ _ _ ?a ?w] =>
        destruct (IH Hall a w) as (v' & Hrun & Hgrow & Hdata & Htarget)
    end.
    exists v'. rewrite Hrun. split; [reflexivity|].
    split; [|auto].
    eapply grows_trans; [|exact Hgrow].
    split; cbn [colorScale symbolScale]; apply ScaleFacts.call_spec.
  - rewrite (rowItem_Throw legacyParse LocalTZA idColumns row v Hrow).
    exists v. auto using grows_refl.
Qed.

Lemma first_row_Throw (idColumns : IdColumns) (row : list Cell)
  (rest : list (list Cell)) (acc : list Data) (v : Visual) :
  readable idColumns row = false ->
  forEachRow legacyParse LocalTZA idColumns (row :: rest) acc v
  = (Throw TypeError, v).
Proof.
  intros Hrow. cbn [forEachRow]. unfold bind.
  now rewrite (rowItem_Throw legacyParse LocalTZA idColumns row v Hrow).
Qed.

Lemma unresolved_unreadable (R : RoleName) (idColumns : IdColumns)
  (row : list Cell) :
  idOf R idColumns = None -> readable idColumns row = false.
Proof.
  intros H. unfold readable, allRoles. cbn [forallb].
  destruct R; unfold hasValue at 1 2 3 4 5; cbn [idOf] in *; rewrite H;
    cbn [at_]; repeat rewrite andb_false_r; reflexivity.
Qed.

End Mapper.

Lemma Forall2_nth_error {A B : Type} (P : A -> B -> Prop)
  (l : list A) (l' : list B) :
  Forall2 P l l' ->
  List.length l' = List.length l
  /\ forall i a, nth_error l i = Some a ->
                 exists b, nth_error l' i = Some b /\ P a b.
Proof.
  induction 1 as [|a b l l' Hab _ [IHlen IH]].
  - split; [reflexivity|]. intros [|i] a H; discriminate.
  - split; [cbn; now rewrite IHlen|].
    intros [|i] x Hx; cbn in *.
    + injection Hx as <-. eauto.
    + now apply IH.
Qed.

Section MapperTheorems.

Variable legacyParse : string -> integral.
Variable LocalTZA : Z -> Z.

(** The two ways [transformData] ends. *)
Lemma transformData_cases (table : DataViewTable) (v : Visual) :
  let idColumns := scanColumns (columns table) O noColumns in
  (forallb (readable idColumns) (rows table) = true
   /\ exists out v',
        transformData legacyParse LocalTZA table v = (Normal out, v')
        /\ Forall2 (derivedFrom legacyParse LocalTZA idColumns)
             (rows table) out
        /\ grows v v' /\ data v' = data v /\ target v' = target v
        /\ Forall (encoded v') out)
  \/ (forallb (readable idColumns) (rows table) = false
      /\ exists v',
           transformData legacyParse LocalTZA table v
           = (Throw TypeError, v')
           /\ grows v v' /\ data v' = data v /\ target v' = target v).
Proof.
  intros idColumns. unfold transformData. fold idColumns.
  destruct (forallb (readable idColumns) (rows table)) eqn:Hall.
  - left. split; [reflexivity|].
    destruct (forEachRow_Normal legacyParse LocalTZA idColumns
                (rows table) Hall [] v) as (items & v' & H).
    exists items, v'. exact H.
  - right. split; [reflexivity|].
    apply (forEachRow_Throw legacyParse LocalTZA idColumns
             (rows table) Hall [] v).
Qed.

(** C1 (the code against the claim).  When one of the five roles is
    carried by no column and the table has a row, [transformData] raises
    a TypeError on the first row and leaves the scales untouched: the
    read of the missing column is [undefined], and [toString] is called
    on it before the guards that would supply the defaults. *)
Theorem transformData_unresolved_role_throws (R : RoleName)
  (table : DataViewTable) (v : Visual) :
  (forall column, In column (columns table) ->
                  flag R (roles column) = false) ->
  rows table <> [] ->
  transformData legacyParse LocalTZA table v = (Throw TypeError, v).
Proof.
  intros Hno Hrows. unfold transformData.
  destruct (rows table) as [|row rest]; [contradiction|].
  apply first_row_Throw.
  apply (unresolved_unreadable R).
  rewrite (scanColumns_unresolved R _ Hno). destruct R; reflexivity.
Qed.

(** C2 (as the code behaves).  When every row holds a value at the
    column of each of the five roles, [transformData] returns, and
    whenever it returns, its result has one record per row, the i-th
    record holding the texts of the i-th row. *)
Theorem transformData_one_record_per_row (table : DataViewTable)
  (v : Visual) :
  let idColumns := scanColumns (columns table) O noColumns in
  let ordered (out : list Data) :=
    List.length out = List.length (rows table)
    /\ forall i row,
         nth_error (rows table) i = Some row ->
         exists d, nth_error out i = Some d
                   /\ derivedFrom legacyParse LocalTZA idColumns row d in
  (forallb (readable idColumns) (rows table) = true ->
   exists out v',
     transformData legacyParse LocalTZA table v = (Normal out, v')
     /\ ordered out)
  /\ (forall out v',
        transformData legacyParse LocalTZA table v = (Normal out, v') ->
        ordered out).
Proof.
  intros idColumns ordered.
  destruct (transformData_cases table v)
    as [(Hall & out & v' & Hrun & Hder & _)|(Hall & v' & Hrun & _)];
    fold idColumns in Hall.
  - pose proof (Forall2_nth_error _ _ _ Hder) as Hord.
    split.
    + intros _. exists out, v'. split; [exact Hrun | exact Hord].
    + intros out' v'' Hrun'. rewrite Hrun in Hrun'.
      injection Hrun' as <- <-. exact Hord.
  - split.
    + intros Hall'. rewrite Hall in Hall'. discriminate.
    + intros out' v'' Hrun'. rewrite Hrun in Hrun'. discriminate.
Qed.

End MapperTheorems.

Lemma transformData_unresolved_role_throws_witness :
  transformData (fun _ => None) (fun _ => 0)
    {| columns := [ {| roles := {| Date := true; Event := false;
                                   Description := false; Color := false;
                                   Symbol := false |} |} ];
       rows := [[Value "2024-03-05"]] |}
    constructor
  = (Throw TypeError, constructor).
Proof.
  apply (transformData_unresolved_role_throws _ _ REvent).
  - intros column [<-|[]]. reflexivity.
  - discriminate.
Defined.

Lemma transformData_one_record_per_row_witness :
  exists out v',
    transformData isoOnly utc exampleTable constructor = (Normal out, v')
    /\ List.length out = 4%nat.
Proof.
  destruct (proj1 (transformData_one_record_per_row isoOnly utc
                     exampleTable constructor) eq_refl)
    as (out & v' & Hrun & Hlen & _).
  exists out, v'. split; [exact Hrun | exact Hlen].
Defined.

(** C2 as stated fails: a table whose five roles are all resolved but whose
    only row has an empty ([null]) date cell gives no record at all, the
    mapper raises. *)
Lemma transformData_null_cell_throws :
  transformData isoOnly utc
    {| columns := oneColumnPerRole;
       rows := [[Null; Value "Kick-off"; Value "Project start";
                 Value "A"; Value "x"]] |}
    constructor
  = (Throw TypeError, constructor).
Proof. reflexivity. Qed.

(** ** Sessions: the two scales across calls of [update] *)

Section Sessions.

Variable legacyParse : string -> integral.
Variable LocalTZA : Z -> Z.

Lemma update_Normal (options : VisualUpdateOptions) (v v' : Visual) :
  update legacyParse LocalTZA options v = (Normal tt, v') ->
  exists v1,
    transformData legacyParse LocalTZA (table options) v
    = (Normal (data v'), v1)
    /\ colorScale v' = colorScale v1
    /\ symbolScale v' = symbolScale v1
    /\ target v'
       = Some (draw legacyParse (data v') (viewport_width options)
                 (viewport_height options)).
Proof.
  unfold update, bind. intros H.
  destruct (transformData legacyParse LocalTZA (table options) v)
    as [[out|e] v1]; [|discriminate].
  injection H as <-. exists v1. auto.
Qed.

Lemma update_grows (options : VisualUpdateOptions) (v v' : Visual)
  (c : completion unit) :
  update legacyParse LocalTZA options v = (c, v') -> grows v v'.
Proof.
  unfold update, bind. intros H.
  destruct (transformData_cases legacyParse LocalTZA (table options) v)
    as [(_ & out & v1 & Hrun & _ & Hg & _)|(_ & v1 & Hrun & Hg & _)];
    rewrite Hrun in H; injection H as <- <-; exact Hg.
Qed.

Lemma update_encoded (options : VisualUpdateOptions) (v v' : Visual) :
  update legacyParse LocalTZA options v = (Normal tt, v') ->
  Forall (encoded v') (data v').
Proof.
  intros H. destruct (update_Normal _ _ _ H) as (v1 & Hrun & Ec & Es & _).
  destruct (transformData_cases legacyParse LocalTZA (table options) v)
    as [(_ & out & v1' & Hrun' & _ & _ & _ & _ & Henc)|(_ & v1' & Hrun' & _)];
    rewrite Hrun in Hrun'; [|discriminate].
  injection Hrun' as <- <-.
  unfold encoded in *. rewrite Ec, Es. exact Henc.
Qed.

Lemma session_grows (v v' : Visual) :
  session legacyParse LocalTZA v v' -> grows v v'.
Proof.
  induction 1 as [|v1 v2 options c _ IH Hstep]; [apply grows_refl|].
  eapply grows_trans; [exact IH|]. eapply update_grows; exact Hstep.
Qed.

Lemma session_trans (v1 v2 v3 : Visual) :
  session legacyParse LocalTZA v1 v2 ->
  session legacyParse LocalTZA v2 v3 ->
  session legacyParse LocalTZA v1 v3.
Proof.
  intros H12 H23. induction H23; [assumption|].
  eapply session_update; eassumption.
Qed.

(** Equal labels, equal values, for records of one state. *)
Lemma encoded_same_label (v : Visual) (a b : Data) :
  encoded v a -> encoded v b ->
  (colorAttribute a = colorAttribute b -> color a = color b)
  /\ (symbolAttribute a = symbolAttribute b -> symbol a = symbol b).
Proof.
  intros (Ca & _ & Sa & _) (Cb & _ & Sb & _).
  split; intros E; [rewrite Ca, Cb, E | rewrite Sa, Sb, E]; reflexivity.
Qed.

Lemma value_of_no_range (s : D3.ScaleOrdinal) (label : string) :
  D3.range s = [] -> value_of s label = None.
Proof.
  intros H. unfold value_of. rewrite H.
  destruct (D3.index_of label (D3.domain s)); reflexivity.
Qed.

Lemma session_no_range (v : Visual) :
  session legacyParse LocalTZA constructor v ->
  D3.range (colorScale v) = [] /\ D3.range (symbolScale v) = [].
Proof.
  intros Hs. destruct (session_grows _ _ Hs) as [[Rc _] [Ry _]].
  cbn in Rc, Ry. auto.
Qed.

(** Scales without a range give [undefined] for every label. *)
Lemma no_range_undefined (v v' : Visual) (options : VisualUpdateOptions) :
  D3.range (colorScale v) = [] -> D3.range (symbolScale v) = [] ->
  update legacyParse LocalTZA options v = (Normal tt, v') ->
  Forall (fun d => color d = None /\ symbol d = None) (data v').
Proof.
  intros Rc Ry H.
  destruct (update_grows _ _ _ _ H) as [[Rc' _] [Ry' _]].
  rewrite Rc in Rc'. rewrite Ry in Ry'.
  pose proof (update_encoded _ _ _ H) as Henc.
  eapply Forall_impl; [|exact Henc].
  intros d (Hc & _ & Hy & _). rewrite Hc, Hy.
  split; now apply value_of_no_range.
Qed.

(** C8.  Within a session each scale is deterministic: records of one
    update, or of two updates of the session, that carry the same label
    carry the same colour (symbol).  But no label is ever assigned a
    value of a palette or of a shape set: the constructor builds both
    scales by [d3.scaleOrdinal()] without a range and nothing sets one,
    so in every session of the visual the colour and the symbol of every
    record are [undefined], whatever its labels. *)
Theorem encoding_scales_in_a_session :
  (forall o1 v1 v1' a b,
      update legacyParse LocalTZA o1 v1 = (Normal tt, v1') ->
      In a (data v1') -> In b (data v1') ->
      (colorAttribute a = colorAttribute b -> color a = color b)
      /\ (symbolAttribute a = symbolAttribute b -> symbol a = symbol b))
  /\ (forall o1 v1 v1' o2 v2 v2' a b,
      update legacyParse LocalTZA o1 v1 = (Normal tt, v1') ->
      session legacyParse LocalTZA v1' v2 ->
      update legacyParse LocalTZA o2 v2 = (Normal tt, v2') ->
      In a (data v1') -> In b (data v2') ->
      (colorAttribute a = colorAttribute b -> color a = color b)
      /\ (symbolAttribute a = symbolAttribute b -> symbol a = symbol b))
  /\ (forall v o v' d,
      session legacyParse LocalTZA constructor v ->
      update legacyParse LocalTZA o v = (Normal tt, v') ->
      In d (data v') ->
      color d = None /\ symbol d = None).
Proof.
  split; [|split].
  - intros o1 v1 v1' a b H Ha Hb.
    pose proof (update_encoded _ _ _ H) as Henc.
    rewrite Forall_forall in Henc.
    apply (encoded_same_label v1'); auto.
  - intros o1 v1 v1' o2 v2 v2' a b H1 Hs H2 Ha Hb.
    pose proof (update_encoded _ _ _ H1) as Henc1.
    pose proof (update_encoded _ _ _ H2) as Henc2.
    rewrite Forall_forall in Henc1, Henc2.
    apply (encoded_same_label v2'); [|auto].
    apply (encoded_grows v1'); [|auto].
    eapply grows_trans; [apply session_grows; exact Hs|].
    eapply update_grows; exact H2.
  - intros v o v' d Hs H Hd.
    destruct (session_no_range v Hs) as [Rc Ry].
    pose proof (no_range_undefined v v' o Rc Ry H) as Hnone.
    rewrite Forall_forall in Hnone. exact (Hnone d Hd).
Qed.

End Sessions.

Lemma example_update1 :
  update isoOnly utc exampleOptions constructor = (Normal tt, exampleState1).
Proof. vm_compute. reflexivity. Qed.

Lemma example_update2 :
  update isoOnly utc exampleOptions exampleState1 = (Normal tt, exampleState2).
Proof. vm_compute. reflexivity. Qed.

Lemma one_row_update :
  update isoOnly utc (oneRowOptions (Value "A")) constructor
  = (Normal tt,
     snd (update isoOnly utc (oneRowOptions (Value "A")) constructor)).
Proof. vm_compute. reflexivity. Qed.

Lemma encoding_scales_in_a_session_witness :
  exists d,
    nth_error
      (data (snd (update isoOnly utc (oneRowOptions (Value "A"))
                    constructor))) 0
    = Some d
    /\ colorAttribute d = "A" /\ symbolAttribute d = "x"
    /\ color d = None /\ symbol d = None.
Proof.
  destruct (nth_error
              (data (snd (update isoOnly utc (oneRowOptions (Value "A"))
                            constructor))) 0)
    as [d|] eqn:Hd; [|vm_compute in Hd; discriminate].
  exists d. split; [reflexivity|].
  assert (E : colorAttribute d = "A" /\ symbolAttribute d = "x").
  { vm_compute in Hd. injection Hd as <-. split; reflexivity. }
  split; [exact (proj1 E)|]. split; [exact (proj2 E)|].
  exact (proj2 (proj2 (encoding_scales_in_a_session isoOnly utc))
           constructor (oneRowOptions (Value "A")) _ d
           (session_here isoOnly utc constructor)
           one_row_update (nth_error_In _ _ Hd)).
Defined.

(** ** Grouping by key *)

Section GroupFacts.

Context {A : Type}.
Variable keyof : A -> string.

Lemma group_add_keys (k k0 : string) (v : A)
  (groups : list (string * list A)) :
  In k (map fst (D3.group_add k0 v groups))
  <-> k = k0 \/ In k (map fst groups).
Proof.
  induction groups as [|[k' vs] rest IH]; cbn.
  - intuition congruence.
  - destruct (String.eqb_spec k' k0) as [->|Hne]; cbn.
    + intuition.
    + rewrite IH. intuition.
Qed.

Lemma group_add_NoDup (k0 : string) (v : A)
  (groups : list (string * list A)) :
  NoDup (map fst groups) -> NoDup (map fst (D3.group_add k0 v groups)).
Proof.
  induction groups as [|[k' vs] rest IH]; cbn; intros H.
  - constructor; [intros []|constructor].
  - inversion H as [|? ? Hnotin Hrest]; subst.
    destruct (String.eqb_spec k' k0) as [->|Hne]; cbn.
    + constructor; assumption.
    + constructor; [|now apply IH].
      rewrite group_add_keys. intros [E|Hin]; [congruence | contradiction].
Qed.

(** The group of the key gains the value at its end, or is created; the
    other groups stay. *)
Lemma group_add_In (k k0 : string) (v : A) (vs : list A)
  (groups : list (string * list A)) :
  NoDup (map fst groups) ->
  In (k, vs) (D3.group_add k0 v groups) ->
  (k <> k0 /\ In (k, vs) groups)
  \/ (k = k0
      /\ ((~ In k0 (map fst groups) /\ vs = [v])
          \/ exists vs0, In (k0, vs0) groups /\ vs = (vs0 ++ [v])%list)).
Proof.
  induction groups as [|[k' vs'] rest IH]; cbn; intros Hnd Hin.
  - destruct Hin as [E|[]]. injection E as <- <-.
    right. split; [reflexivity|]. left. split; [tauto | reflexivity].
  - inversion Hnd as [|? ? Hnotin Hrest]; subst.
    destruct (String.eqb_spec k' k0) as [->|Hne].
    + destruct Hin as [E|Hin].
      * injection E as <- <-. right. split; [reflexivity|].
        right. exists vs'. split; [now left | reflexivity].
      * left. split; [|now right].
        intros ->. apply Hnotin.
        change k0 with (fst (k0, vs)). now apply in_map.
    + destruct Hin as [E|Hin].
      * injection E as <- <-. left. split; [exact Hne | now left].
      * destruct (IH Hrest Hin) as [[Hk Hin']|[-> Hcase]].
        -- left. split; [exact Hk | now right].
        -- right. split; [reflexivity|].
           destruct Hcase as [[Hnew ->]|[vs0 [Hin0 ->]]].
           ++ left. split; [|reflexivity]. intros [E|Hin']; auto.
           ++ right. exists vs0. split; [now right | reflexivity].
Qed.

Lemma group_snoc (values : list A) (v : A) :
  D3.group (values ++ [v])%list keyof
  = D3.group_add (keyof v) v (D3.group values keyof).
Proof. unfold D3.group. now rewrite fold_left_app. Qed.

Lemma filter_snoc (f : A -> bool) (values : list A) (v : A) :
  filter f (values ++ [v])%list
  = (filter f values ++ (if f v then [v] else []))%list.
Proof. rewrite filter_app. reflexivity. Qed.

(** The groups of [d3.group]: one for each key met, holding the values
    of that key in the order met. *)
Lemma group_spec (values : list A) :
  NoDup (map fst (D3.group values keyof))
  /\ (forall k, In k (map fst (D3.group values keyof))
                <-> In k (map keyof values))
  /\ (forall k vs, In (k, vs) (D3.group values keyof) ->
                   vs = filter (sameKey keyof k) values).
Proof.
  induction values as [|v values (IHnd & IHkeys & IHin)] using rev_ind.
  - cbn. split; [constructor|]. split; [tauto|]. intros k vs [].
  - rewrite group_snoc. split; [now apply group_add_NoDup|].
    split.
    + intros k. rewrite group_add_keys, IHkeys, map_app, in_app_iff.
      cbn. intuition.
    + intros k vs Hin. rewrite filter_snoc. unfold sameKey at 2.
      destruct (group_add_In _ _ _ _ _ IHnd Hin)
        as [[Hne Hin']|[-> [[Hnew ->]|[vs0 [Hin0 ->]]]]].
      * destruct (String.eqb_spec (keyof v) k) as [E|_];
          [congruence|].
        rewrite app_nil_r. now apply IHin.
      * rewrite String.eqb_refl.
        rewrite IHkeys in Hnew.
        assert (E : filter (sameKey keyof (keyof v)) values = []).
        { clear -Hnew. induction values as [|x l IH]; [reflexivity|].
          cbn. unfold sameKey at 1.
          destruct (String.eqb_spec (keyof x) (keyof v)) as [E|_].
          - exfalso. apply Hnew. left. exact E.
          - apply IH. intros H. apply Hnew. now right. }
        now rewrite E.
      * rewrite String.eqb_refl. f_equal. now apply IHin.
Qed.

End GroupFacts.

(** ** Minimum and maximum of the dates *)

Section MinMaxFacts.

Context {A : Type}.
Variable valueof : A -> option Z.

Lemma min_fold (values : list A) :
  forall acc,
    match fold_left (fun acc d => D3.min_step acc (valueof d)) values acc with
    | None => acc = None /\ forall d, In d values -> valueof d = None
    | Some lo =>
        (acc = Some lo \/ exists d, In d values /\ valueof d = Some lo)
        /\ (forall m, acc = Some m -> lo <= m)
        /\ (forall d t, In d values -> valueof d = Some t -> lo <= t)
    end.
Proof.
  induction values as [|x values IH]; intros acc; cbn [fold_left].
  - destruct acc as [m|].
    + split; [now left|]. split; [intros ? [= <-]; lia | intros ? ? []].
    + split; [reflexivity | intros ? []].
  - specialize (IH (D3.min_step acc (valueof x))).
    destruct (fold_left _ values _) as [lo|].
    + destruct IH as (Hwit & Hacc & Hall).
      unfold D3.min_step in Hwit, Hacc.
      destruct (valueof x) as [vx|] eqn:Ex.
      * destruct acc as [m|].
        -- destruct (Z.gtb_spec m vx) as [Hgt|Hle].
           ++ specialize (Hacc vx eq_refl).
              split; [|split].
              ** right. destruct Hwit as [[= <-]|(d & Hd & Ed)];
                   [exists x; cbn; auto | exists d; cbn; auto].
              ** intros ? [= <-]. lia.
              ** intros d t [<-|Hd] Ed; [|eauto].
                 rewrite Ex in Ed. injection Ed as <-. lia.
           ++ specialize (Hacc m eq_refl).
              split; [|split].
              ** destruct Hwit as [[= <-]|(d & Hd & Ed)];
                   [now left | right; exists d; cbn; auto].
              ** intros ? [= <-]. lia.
              ** intros d t [<-|Hd] Ed; [|eauto].
                 rewrite Ex in Ed. injection Ed as <-. lia.
        -- specialize (Hacc vx eq_refl).
           split; [|split].
           ++ right. destruct Hwit as [[= <-]|(d & Hd & Ed)];
                [exists x; cbn; auto | exists d; cbn; auto].
           ++ intros ? [=].
           ++ intros d t [<-|Hd] Ed; [|eauto].
              rewrite Ex in Ed. injection Ed as <-. lia.
      * split; [|split].
        -- destruct Hwit as [->|(d & Hd & Ed)];
             [now left | right; exists d; cbn; auto].
        -- exact Hacc.
        -- intros d t [<-|Hd] Ed; [congruence | eauto].
    + destruct IH as [Hacc Hall]. unfold D3.min_step in Hacc.
      destruct (valueof x) as [vx|] eqn:Ex.
      * destruct acc as [m|]; [|discriminate].
        destruct (m >? vx); discriminate.
      * split; [exact Hacc|]. intros d [<-|Hd]; auto.
Qed.

Lemma max_fold (values : list A) :
  forall acc,
    match fold_left (fun acc d => D3.max_step acc (valueof d)) values acc with
    | None => acc = None /\ forall d, In d values -> valueof d = None
    | Some hi =>
        (acc = Some hi \/ exists d, In d values /\ valueof d = Some hi)
        /\ (forall m, acc = Some m -> m <= hi)
        /\ (forall d t, In d values -> valueof d = Some t -> t <= hi)
    end.
Proof.
  induction values as [|x values IH]; intros acc; cbn [fold_left].
  - destruct acc as [m|].
    + split; [now left|]. split; [intros ? [= <-]; lia | intros ? ? []].
    + split; [reflexivity | intros ? []].
  - specialize (IH (D3.max_step acc (valueof x))).
    destruct (fold_left _ values _) as [hi|].
    + destruct IH as (Hwit & Hacc & Hall).
      unfold D3.max_step in Hwit, Hacc.
      destruct (valueof x) as [vx|] eqn:Ex.
      * destruct acc as [m|].
        -- destruct (Z.ltb_spec m vx) as [Hlt|Hge].
           ++ specialize (Hacc vx eq_refl).
              split; [|split].
              ** right. destruct Hwit as [[= <-]|(d & Hd & Ed)];
                   [exists x; cbn; auto | exists d; cbn; auto].
              ** intros ? [= <-]. lia.
              ** intros d t [<-|Hd] Ed; [|eauto].
                 rewrite Ex in Ed. injection Ed as <-. lia.
           ++ specialize (Hacc m eq_refl).
              split; [|split].
              ** destruct Hwit as [[= <-]|(d & Hd & Ed)];
                   [now left | right; exists d; cbn; auto].
              ** intros ? [= <-]. lia.
              ** intros d t [<-|Hd] Ed; [|eauto].
                 rewrite Ex in Ed. injection Ed as <-. lia.
        -- specialize (Hacc vx eq_refl).
           split; [|split].
           ++ right. destruct Hwit as [[= <-]|(d & Hd & Ed)];
                [exists x; cbn; auto | exists d; cbn; auto].
           ++ intros ? [=].
           ++ intros d t [<-|Hd] Ed; [|eauto].
              rewrite Ex in Ed. injection Ed as <-. lia.
      * split; [|split].
        -- destruct Hwit as [->|(d & Hd & Ed)];
             [now left | right; exists d; cbn; auto].
        -- exact Hacc.
        -- intros d t [<-|Hd] Ed; [congruence | eauto].
    + destruct IH as [Hacc Hall]. unfold D3.max_step in Hacc.
      destruct (valueof x) as [vx|] eqn:Ex.
      * destruct acc as [m|]; [|discriminate].
        destruct (m <? vx); discriminate.
      * split; [exact Hacc|]. intros d [<-|Hd]; auto.
Qed.

(** [d3.min] is a value of the list below all its values, and [d3.max]
    one above, as soon as one value is valid. *)
Lemma min_max_spec (values : list A) (x : A) (t : Z) :
  In x values -> valueof x = Some t ->
  exists lo hi,
    D3.min values valueof = Some lo
    /\ D3.max values valueof = Some hi
    /\ (exists d, In d values /\ valueof d = Some lo)
    /\ (exists d, In d values /\ valueof d = Some hi)
    /\ (forall d t', In d values -> valueof d = Some t' -> lo <= t' <= hi).
Proof.
  intros Hx Ex. unfold D3.min, D3.max.
  pose proof (min_fold values None) as Hmin.
  pose proof (max_fold values None) as Hmax.
  destruct (fold_left _ values None) as [lo|];
    [|destruct Hmin as [_ Hnone]; rewrite (Hnone x Hx) in Ex; discriminate].
  destruct (fold_left (fun acc d => D3.max_step acc (valueof d)) values None)
    as [hi|];
    [|destruct Hmax as [_ Hnone]; rewrite (Hnone x Hx) in Ex; discriminate].
  destruct Hmin as ([Hn|Hlo] & _ & Hlow); [discriminate|].
  destruct Hmax as ([Hn|Hhi] & _ & Hupp); [discriminate|].
  exists lo, hi. repeat split; eauto.
Qed.

End MinMaxFacts.

(** ** The renderer *)

Section Renderer.

Variable legacyParse : string -> integral.

Lemma markers_draw (data : list Data) (width height : Q) :
  markers (draw legacyParse data width height)
  = map (fun g : string * list Data =>
           {| key := fst g;
              circle :=
                restingCircle
                  (D3.apply
                     {| D3.d0 := D3.min data
                                   (fun d => Date_new legacyParse (date d));
                        D3.d1 := D3.max data
                                   (fun d => Date_new legacyParse (date d));
                        D3.r0 := 50%Q; D3.r1 := sub64 width 50 |}
                     (Date_new legacyParse (fst g)))
                  (div64 height 2);
              events := snd g;
              transition := None |})
        (D3.group data date).
Proof. reflexivity. Qed.

Lemma keys_draw (data : list Data) (width height : Q) :
  map key (markers (draw legacyParse data width height))
  = map fst (D3.group data date).
Proof. rewrite markers_draw, map_map. reflexivity. Qed.

(** Where the time scale puts a valid date between two valid bounds:
    [a * (1 - u) + b * u] at the fraction [u] of the way from the lower to
    the upper bound, at 0.5 when the bounds coincide. *)
Lemma timeScale_position (lo hi t : Z) (a b : Q) :
  lo <= hi ->
  exists q,
    D3.apply {| D3.d0 := Some lo; D3.d1 := Some hi; D3.r0 := a; D3.r1 := b |}
      (Some t)
    = Some (Num q)
    /\ (lo < hi ->
        q = (let u := div64 (sub64 (inject_Z t) (inject_Z lo))
                        (sub64 (inject_Z hi) (inject_Z lo)) in
             add64 (mul64 a (sub64 1 u)) (mul64 b u)))
    /\ (lo = hi -> q = add64 (mul64 a (sub64 1 (1 # 2))) (mul64 b (1 # 2))).
Proof.
  intros Hle. unfold D3.apply, D3.bimap, D3.lt_time, D3.normalize.
  cbn [D3.d0 D3.d1 D3.r0 D3.r1].
  destruct (Z.ltb_spec hi lo) as [|_]; [lia|].
  destruct (Z.eq_dec lo hi) as [<-|Hne].
  - rewrite sub64_same. change (Qeq_bool 0 0) with true.
    cbn [D3.interpolateNumber].
    eexists. split; [reflexivity|]. split; [lia | reflexivity].
  - rewrite sub64_int_nonzero by congruence. cbn [D3.interpolateNumber].
    eexists. split; [reflexivity|]. split; [reflexivity | contradiction].
Qed.

(** The two ends of the domain are put on the two ends of the range. *)
Lemma timeScale_ends (lo hi : Z) (a b : Q) :
  lo < hi -> (round64 a == a)%Q -> (round64 b == b)%Q ->
  let position := fun t =>
    let u := div64 (sub64 (inject_Z t) (inject_Z lo))
               (sub64 (inject_Z hi) (inject_Z lo)) in
    add64 (mul64 a (sub64 1 u)) (mul64 b u) in
  (position lo == a)%Q /\ (position hi == b)%Q.
Proof.
  intros Hlt Ha Hb position. unfold position. split.
  - rewrite sub64_same, div64_zero. now apply interpolate_0.
  - apply interpolate_1; [|exact Hb]. apply div64_same.
    intros E. pose proof (sub64_int_nonzero hi lo ltac:(lia)) as Hn.
    apply Qeq_bool_iff in E. congruence.
Qed.

(** A marker with a valid date: the two ends of the domain, which are
    dates of the records, and the position the scale gives. *)
Lemma drawn_marker (data : list Data) (width height : Q) (m : Marker)
  (t : Z) :
  let time := fun d => Date_new legacyParse (date d) in
  In m (markers (draw legacyParse data width height)) ->
  Date_new legacyParse (key m) = Some t ->
  exists lo hi q,
    D3.min data time = Some lo
    /\ D3.max data time = Some hi
    /\ (exists d, In d data /\ time d = Some lo)
    /\ (exists d, In d data /\ time d = Some hi)
    /\ (forall d t', In d data -> time d = Some t' -> lo <= t' <= hi)
    /\ lo <= t <= hi
    /\ cx (circle m) = Some (Num q)
    /\ (lo < hi ->
        q = (let u := div64 (sub64 (inject_Z t) (inject_Z lo))
                        (sub64 (inject_Z hi) (inject_Z lo)) in
             add64 (mul64 50 (sub64 1 u)) (mul64 (sub64 width 50) u)))
    /\ (lo < hi -> t = lo -> (q == 50)%Q)
    /\ (lo < hi -> t = hi -> (q == sub64 width 50)%Q)
    /\ (lo = hi -> (q == round64 ((50 + sub64 width 50) / 2))%Q).
Proof.
  intros time Hm Et. rewrite markers_draw in Hm.
  apply in_map_iff in Hm as ([k vs] & <- & Hg).
  cbn [key circle fst restingCircle cx] in *.
  destruct (group_spec date data) as (_ & Hkeys & _).
  assert (Hin : In k (map date data)).
  { apply Hkeys. change k with (fst (k, vs)). now apply in_map. }
  apply in_map_iff in Hin as (x & Ex & Hx).
  assert (Etx : time x = Some t) by (unfold time; now rewrite Ex).
  destruct (min_max_spec time data x t Hx Etx)
    as (lo & hi & Hmin & Hmax & Hlo & Hhi & Hall).
  pose proof (Hall x t Hx Etx) as Hbound.
  fold time. rewrite Hmin, Hmax, Et.
  destruct (timeScale_position lo hi t 50%Q (sub64 width 50))
    as (q & Eq & H1 & H2); [lia|].
  assert (H50 : (round64 50 == 50)%Q) by (vm_compute; reflexivity).
  assert (Hw : (round64 (sub64 width 50) == sub64 width 50)%Q)
    by apply round64_idem.
  exists lo, hi, q.
  split; [reflexivity|]. split; [reflexivity|]. split; [exact Hlo|].
  split; [exact Hhi|]. split; [exact Hall|]. split; [exact Hbound|].
  split; [exact Eq|]. split; [exact H1|].
  split; [|split].
  - intros Hlt ->. rewrite (H1 Hlt).
    exact (proj1 (timeScale_ends lo hi 50%Q (sub64 width 50) Hlt H50 Hw)).
  - intros Hlt ->. rewrite (H1 Hlt).
    exact (proj2 (timeScale_ends lo hi 50%Q (sub64 width 50) Hlt H50 Hw)).
  - intros E. rewrite (H2 E). now apply interpolate_half.
Qed.

(** C3 (as the code behaves).  For a non-empty sequence of records the
    renderer draws one marker for each distinct raw date: the dates of the
    markers are those of the records, without repetition, and a marker
    groups the records of its date in the order met.  Every marker is on
    the height of the base line.  A marker whose raw date does not parse
    gets no x-position.  A marker whose raw date parses, as every
    date-only string of the ECMAScript format does, is placed by the time
    scale whose domain runs from the least to the greatest of the dates
    that parse and whose range runs from 50 to width - 50: at
    50 * (1 - u) + (width - 50) * u for the fraction
    u = (t - least) / (greatest - least), each operation rounded to
    binary64, which is 50 at the least and width - 50 at the greatest
    date; at the middle of the range when all dates that parse
    coincide. *)
Theorem draw_one_marker_per_date (data : list Data) (width height : Q) :
  data <> [] ->
  let s := draw legacyParse data width height in
  let time := fun d => Date_new legacyParse (date d) in
  markers s <> []
  /\ NoDup (map key (markers s))
  /\ (forall k, In k (map key (markers s)) <-> In k (map date data))
  /\ List.length (markers s)
     = List.length (nodup string_dec (map date data))
  /\ (forall m, In m (markers s) ->
      events m = filter (sameKey date (key m)) data
      /\ cy (circle m) = y1 (line s)
      /\ (forall t, ISO.parseDateOnly (key m) = Some t ->
                    exists q, cx (circle m) = Some (Num q))
      /\ match Date_new legacyParse (key m) with
         | None => cx (circle m) = None
         | Some t =>
             exists lo hi q,
               D3.min data time = Some lo
               /\ D3.max data time = Some hi
               /\ (exists d, In d data /\ time d = Some lo)
               /\ (exists d, In d data /\ time d = Some hi)
               /\ (forall d t', In d data -> time d = Some t' ->
                                lo <= t' <= hi)
               /\ cx (circle m) = Some (Num q)
               /\ (lo < hi ->
                   q = (let u := div64 (sub64 (inject_Z t) (inject_Z lo))
                                   (sub64 (inject_Z hi) (inject_Z lo)) in
                        add64 (mul64 50 (sub64 1 u))
                          (mul64 (sub64 width 50) u)))
               /\ (lo < hi -> t = lo -> (q == x1 (line s))%Q)
               /\ (lo < hi -> t = hi -> (q == x2 (line s))%Q)
               /\ (lo = hi ->
                   (q == round64 ((x1 (line s) + x2 (line s)) / 2))%Q)
         end).
Proof.
  intros Hne s time.
  destruct (group_spec date data) as (Hnd & Hkeys & Hgroups).
  assert (Hk : map key (markers s) = map fst (D3.group data date))
    by apply keys_draw.
  split.
  { intros E. destruct data as [|d rest]; [contradiction|].
    assert (Hin : In (date d) (map key (markers s))).
    { rewrite Hk. apply Hkeys. now left. }
    rewrite E in Hin. exact Hin. }
  split; [now rewrite Hk|].
  split; [intros k; rewrite Hk; apply Hkeys|].
  split.
  { rewrite <- (length_map key), Hk. apply Permutation_length.
    apply NoDup_Permutation; [exact Hnd | apply NoDup_nodup|].
    intros k. rewrite nodup_In. apply Hkeys. }
  intros m Hm.
  assert (Hpos : match Date_new legacyParse (key m) with
                 | None => cx (circle m) = None
                 | Some _ => exists q, cx (circle m) = Some (Num q)
                 end).
  { destruct (Date_new legacyParse (key m)) as [t|] eqn:Et.
    - destruct (drawn_marker data width height m t Hm Et)
        as (_ & _ & q & _ & _ & _ & _ & _ & _ & Ecx & _).
      now exists q.
    - unfold s in Hm. rewrite markers_draw in Hm.
      apply in_map_iff in Hm as ([k vs] & <- & _).
      cbn [key circle fst restingCircle cx] in *. now rewrite Et. }
  split; [|split; [|split]].
  - unfold s in Hm. rewrite markers_draw in Hm.
    apply in_map_iff in Hm as ([k vs] & <- & Hg).
    cbn [key events snd fst]. now apply Hgroups.
  - unfold s in Hm. rewrite markers_draw in Hm.
    apply in_map_iff in Hm as (g & <- & _). reflexivity.
  - intros t Et. unfold Date_new in Hpos. rewrite Et in Hpos. exact Hpos.
  - destruct (Date_new legacyParse (key m)) as [t|] eqn:Et; [|exact Hpos].
    destruct (drawn_marker data width height m t Hm Et)
      as (lo & hi & q & Hmin & Hmax & Hlo & Hhi & Hall & _ & Ecx
          & Hlin & Hfirst & Hlast & Hmid).
    exists lo, hi, q. auto 12.
Qed.

(** C4.  For a table without rows [update] returns normally, whatever the
    columns and the state: it draws the base line from x = 50 to
    x = width - 50 at y = height / 2, the hidden tooltip, and no marker. *)
Theorem update_empty_table (LocalTZA : Z -> Z) (cols : list Column)
  (width height : Q) (v : Visual) :
  exists s,
    update legacyParse LocalTZA
      {| table := {| columns := cols; rows := [] |};
         viewport_width := width; viewport_height := height |} v
    = (Normal tt,
       {| data := []; colorScale := colorScale v;
          symbolScale := symbolScale v; target := Some s |})
    /\ svg_width s = width /\ svg_height s = height
    /\ line s = {| x1 := 50%Q; x2 := sub64 width 50;
                   y1 := div64 height 2; y2 := div64 height 2;
                   line_stroke := "#000"; line_stroke_width := 2 |}
    /\ markers s = []
    /\ visibility (tooltip s) = "hidden".
Proof.
  eexists. split; [reflexivity|]. repeat split.
Qed.

End Renderer.

Lemma example_data : data exampleState1 = exampleData.
Proof. vm_compute. reflexivity. Qed.

Lemma example_min_max :
  D3.min exampleData (fun d => Date_new isoOnly (date d))
  = Some 1704067200000
  /\ D3.max exampleData (fun d => Date_new isoOnly (date d))
     = Some 1704240000000.
Proof. split; vm_compute; reflexivity. Qed.

Lemma example_marker_last :
  exists m, In m (markers (draw isoOnly exampleData 800 600))
            /\ key m = "2024-01-03".
Proof.
  destruct (markers (draw isoOnly exampleData 800 600))
    as [|m0 [|m rest]] eqn:E; try (vm_compute in E; discriminate).
  exists m. split; [right; now left|].
  vm_compute in E. injection E as _ <- _. reflexivity.
Qed.

Lemma draw_one_marker_per_date_witness :
  exampleData <> []
  /\ exists m q,
       In m (markers (draw isoOnly exampleData 800 600))
       /\ key m = "2024-01-03"
       /\ cx (circle m) = Some (Num q)
       /\ (q == 750)%Q.
Proof.
  assert (H : exampleData <> []) by discriminate.
  split; [exact H|].
  destruct example_marker_last as (m & Hm & Ek).
  pose proof (proj2 (proj2 (proj2 (proj2
                (draw_one_marker_per_date isoOnly exampleData 800 600 H))))
                m Hm) as (_ & _ & _ & Hpos).
  rewrite Ek in Hpos.
  change (Date_new isoOnly "2024-01-03") with (Some 1704240000000) in Hpos.
  destruct Hpos as (lo & hi & q & Hmin & Hmax & _ & _ & _ & Ecx & _ & _
                    & Hlast & _).
  rewrite (proj1 example_min_max) in Hmin.
  rewrite (proj2 example_min_max) in Hmax.
  injection Hmin as <-. injection Hmax as <-.
  exists m, q. split; [exact Hm|]. split; [exact Ek|]. split; [exact Ecx|].
  rewrite (Hlast ltac:(lia) eq_refl). vm_compute. reflexivity.
Defined.

(** C3 as stated fails: of three records dated 2024-01-01, garbage and
    2024-01-03, as the mapper returns them, the second has a marker of
    its own, and this marker has no x-position; the domain of the scale
    runs from the first to the third date, over the two records whose
    date parses, not over all records. *)
Lemma draw_unreadable_date_has_no_position :
  fst (transformData isoOnly utc (table garbledOptions) constructor)
  = Normal garbledData
  /\ garbledData <> []
  /\ map key (markers (draw isoOnly garbledData 800 600))
     = ["2024-01-01"; "garbage"; "2024-01-03"]
  /\ (exists m, nth_error (markers (draw isoOnly garbledData 800 600)) 1
                = Some m
                /\ key m = "garbage" /\ cx (circle m) = None)
  /\ Date_new isoOnly "garbage" = None
  /\ D3.min garbledData (fun d => Date_new isoOnly (date d))
     = Some 1704067200000
  /\ D3.max garbledData (fun d => Date_new isoOnly (date d))
     = Some 1704240000000.
Proof.
  split; [vm_compute; reflexivity|].
  split; [discriminate|]. split; [vm_compute; reflexivity|].
  split.
  - eexists. split; [vm_compute; reflexivity|]. split; reflexivity.
  - split; [reflexivity|]. split; vm_compute; reflexivity.
Qed.

(** ** Pointer events *)

Lemma append_assoc (a b c : string) : (a ++ b) ++ c = a ++ (b ++ c).
Proof. induction a as [|x a IH]; cbn; [reflexivity | now rewrite IH]. Qed.

Lemma append_empty_r (a : string) : a ++ "" = a.
Proof. induction a as [|x a IH]; cbn; [reflexivity | now rewrite IH]. Qed.

Lemma contains_refl (s : string) : contains s s.
Proof. exists "", "". now rewrite append_empty_r. Qed.

Lemma contains_left (s t u : string) : contains s u -> contains (s ++ t) u.
Proof.
  intros (a & b & ->). exists a, (b ++ t). now rewrite !append_assoc.
Qed.

Lemma contains_right (s t u : string) : contains t u -> contains (s ++ t) u.
Proof.
  intros (a & b & ->). exists (s ++ a), b. now rewrite !append_assoc.
Qed.

(** Every element of a joined array occurs in the result. *)
Lemma join_contains (sep x : string) (xs : list string) :
  In x xs -> contains (join sep xs) x.
Proof.
  induction xs as [|y [|z rest] IH]; intros Hin.
  - destruct Hin.
  - destruct Hin as [->|[]]. apply contains_refl.
  - destruct Hin as [->|Hin].
    + cbn [join]. apply contains_left, contains_refl.
    + change (join sep (y :: z :: rest))
        with (y ++ sep ++ join sep (z :: rest)).
      apply contains_right, contains_right, IH, Hin.
Qed.

Lemma tooltipEntry_contains (e : Data) :
  contains (tooltipEntry e) (dateDisplay e)
  /\ contains (tooltipEntry e) (eventDisplay e)
  /\ contains (tooltipEntry e) (description e).
Proof.
  unfold tooltipEntry. split; [|split].
  - apply contains_right, contains_left, contains_refl.
  - do 3 apply contains_right. apply contains_left, contains_refl.
  - do 5 apply contains_right. apply contains_refl.
Qed.

Lemma nth_error_update_nth {A : Type} (f : A -> A) (l : list A) :
  forall i j,
    nth_error (update_nth i f l) j
    = if Nat.eqb i j then option_map f (nth_error l j) else nth_error l j.
Proof.
  induction l as [|x l IH]; intros i j.
  - destruct i as [|i], j as [|j]; cbn; try reflexivity.
    destruct (Nat.eqb i j); reflexivity.
  - destruct i as [|i], j as [|j]; cbn; try reflexivity. apply IH.
Qed.

Lemma update_nth_fixed (i : nat) (f : Marker -> Marker) (l : list Marker) :
  (forall m, fixedPart (f m) = fixedPart m) ->
  map fixedPart (update_nth i f l) = map fixedPart l.
Proof.
  intros Hf. revert i.
  induction l as [|x l IH]; intros [|i]; cbn; try reflexivity.
  - now rewrite Hf.
  - now rewrite IH.
Qed.

(** The handlers change the radius, the stroke and the tooltip only. *)
Lemma handle_fixed (s : Scene) (e : PointerEvent) :
  map fixedPart (markers (handle s e)) = map fixedPart (markers s).
Proof.
  destruct e as [i|i x y|i]; cbn [handle];
    unfold mouseover, mousemove, mouseout;
    destruct (nth_error (markers s) i); cbn [markers]; try reflexivity;
    now apply update_nth_fixed.
Qed.

Lemma interact_fixed (es : list PointerEvent) (s : Scene) :
  map fixedPart (markers (interact es s)) = map fixedPart (markers s).
Proof.
  unfold interact. revert s.
  induction es as [|e es IH]; intros s; cbn [fold_left]; [reflexivity|].
  now rewrite IH, handle_fixed.
Qed.

Section Hover.

Variable legacyParse : string -> integral.

(** C9.  Every marker is drawn resting with the tooltip hidden.  At any
    later time, a pointer entering the marker ends a transition of 200 ms
    on radius 8 and a red stroke of width 3, and shows the tooltip: the
    entries of the records of the marker's date, in the order met, joined
    by two line breaks, each with its display date, display event and
    description.  A pointer leaving ends a transition of 200 ms on radius
    5 and a black stroke of width 2, and hides the tooltip.  The other
    markers are not touched. *)
Theorem hover_marker (data : list Data) (width height : Q)
  (before : list PointerEvent) (i : nat) (m : Marker) :
  let s0 := draw legacyParse data width height in
  nth_error (markers s0) i = Some m ->
  let s := interact before s0 in
  let s1 := mouseover i s in
  let s2 := mouseout i s1 in
  (resting m /\ transition m = None /\ visibility (tooltip s0) = "hidden")
  /\ (exists m1,
        nth_error (markers s1) i = Some m1
        /\ hovered m1 /\ transition m1 = Some 200
        /\ key m1 = key m
        /\ cx (circle m1) = cx (circle m) /\ cy (circle m1) = cy (circle m))
  /\ visibility (tooltip s1) = "visible"
  /\ html (tooltip s1)
     = join "<br/><br/>"
         (map tooltipEntry (filter (sameKey date (key m)) data))
  /\ (forall e, In e data -> date e = key m ->
        contains (html (tooltip s1)) (tooltipEntry e)
        /\ contains (html (tooltip s1)) (dateDisplay e)
        /\ contains (html (tooltip s1)) (eventDisplay e)
        /\ contains (html (tooltip s1)) (description e))
  /\ (exists m2,
        nth_error (markers s2) i = Some m2
        /\ resting m2 /\ transition m2 = Some 200
        /\ key m2 = key m
        /\ cx (circle m2) = cx (circle m) /\ cy (circle m2) = cy (circle m))
  /\ visibility (tooltip s2) = "hidden"
  /\ (forall j, j <> i ->
        nth_error (markers s1) j = nth_error (markers s) j
        /\ nth_error (markers s2) j = nth_error (markers s) j).
Proof.
  intros s0 Hm0 s s1 s2.
  assert (Hdrawn : events m = filter (sameKey date (key m)) data
                   /\ resting m /\ transition m = None).
  { pose proof (nth_error_In _ _ Hm0) as Hin.
    unfold s0 in Hin. rewrite markers_draw in Hin.
    apply in_map_iff in Hin as ([k vs] & <- & Hg).
    destruct (group_spec date data) as (_ & _ & Hgroups).
    cbn [key events fst snd]. split; [now apply Hgroups|].
    split; [repeat split | reflexivity]. }
  destruct Hdrawn as (Hev0 & Hrest0 & Htr0).
  assert (Hnow : exists m', nth_error (markers s) i = Some m'
                            /\ fixedPart m' = fixedPart m).
  { pose proof (interact_fixed before s0) as Hfix. fold s in Hfix.
    apply (f_equal (fun l => nth_error l i)) in Hfix.
    rewrite !nth_error_map, Hm0 in Hfix.
    destruct (nth_error (markers s) i) as [m'|]; [|discriminate].
    exists m'. split; [reflexivity|]. cbn [option_map] in Hfix. congruence. }
  destruct Hnow as (m' & Hm & Hfix).
  unfold fixedPart in Hfix.
  injection Hfix as Hkey Hcx Hcy Hfill Hevents.
  assert (Hev : events m' = filter (sameKey date (key m)) data)
    by congruence.
  assert (E1 : s1 = {| svg_width := svg_width s; svg_height := svg_height s;
                       line := line s;
                       markers :=
                         update_nth i (transitionTo 8 "red" 3) (markers s);
                       tooltip :=
                         {| html := join "<br/><br/>"
                                      (map tooltipEntry (events m'));
                            visibility := "visible";
                            top := top (tooltip s);
                            left := left (tooltip s) |} |}).
  { unfold s1, mouseover. now rewrite Hm. }
  assert (Hm1 : nth_error (markers s1) i
                = Some (transitionTo 8 "red" 3 m')).
  { rewrite E1. cbn [markers].
    now rewrite nth_error_update_nth, Nat.eqb_refl, Hm. }
  assert (E2 : markers s2
               = update_nth i (transitionTo 5 "#000" 2) (markers s1)
               /\ visibility (tooltip s2) = "hidden").
  { unfold s2, mouseout. rewrite Hm1. split; reflexivity. }
  destruct E2 as [E2 Hhid].
  destruct Hrest0 as (Hr & Hf & Hs & Hw).
  assert (Hfill' : fill (circle m') = "#000") by congruence.
  split; [repeat split; assumption|].
  split.
  { exists (transitionTo 8 "red" 3 m'). split; [exact Hm1|].
    repeat split; assumption. }
  split; [rewrite E1; reflexivity|].
  assert (Hhtml : html (tooltip s1)
                  = join "<br/><br/>"
                      (map tooltipEntry
                         (filter (sameKey date (key m)) data))).
  { rewrite E1. cbn [tooltip html]. now rewrite Hev. }
  split; [exact Hhtml|].
  split.
  { intros e He Hd.
    assert (Hc : contains (html (tooltip s1)) (tooltipEntry e)).
    { rewrite Hhtml. apply join_contains, in_map, filter_In.
      split; [exact He|]. unfold sameKey. now apply String.eqb_eq. }
    destruct Hc as (a & b & Hc).
    destruct (tooltipEntry_contains e) as (C1 & C2 & C3).
    split; [exists a, b; exact Hc|].
    rewrite Hc. repeat split;
      apply contains_right, contains_left; assumption. }
  split.
  { exists (transitionTo 5 "#000" 2 (transitionTo 8 "red" 3 m')).
    split.
    - now rewrite E2, nth_error_update_nth, Nat.eqb_refl, Hm1.
    - repeat split; assumption. }
  split; [exact Hhid|].
  intros j Hj.
  assert (Hij : Nat.eqb i j = false) by (apply Nat.eqb_neq; congruence).
  assert (H1 : nth_error (markers s1) j = nth_error (markers s) j).
  { rewrite E1. cbn [markers]. now rewrite nth_error_update_nth, Hij. }
  split; [exact H1|].
  now rewrite E2, nth_error_update_nth, Hij.
Qed.

End Hover.

Lemma hover_marker_witness :
  visibility
    (tooltip
       (mouseover 0
          (interact [Enter 1; Move 1 400 300; Leave 1]
             (draw isoOnly exampleData 800 600))))
  = "visible".
Proof.
  destruct (nth_error (markers (draw isoOnly exampleData 800 600)) 0)
    as [m|] eqn:Hm; [|vm_compute in Hm; discriminate].
  exact (proj1 (proj2 (proj2
           (hover_marker isoOnly exampleData 800 600
              [Enter 1%nat; Move 1%nat 400 300; Leave 1%nat] 0%nat m Hm)))).
Defined.

(** ** The renderer reads only what is shown of a record *)

Lemma fold_left_map {A B C : Type} (f : C -> B -> C) (h : A -> B)
  (l : list A) :
  forall c, fold_left f (map h l) c = fold_left (fun c x => f c (h x)) l c.
Proof. induction l as [|x l IH]; intros c; cbn; [reflexivity | apply IH]. Qed.

Lemma tooltipEntry_shown (e : Data) : tooltipEntry e = entryOfShown (shown e).
Proof. reflexivity. Qed.

Section ShownOnly.

Context {A B : Type}.
Variable P : A -> B.
Variable keyA : A -> string.
Variable keyB : B -> string.
Hypothesis key_P : forall x, keyB (P x) = keyA x.

Lemma group_add_map (x : A) (groups : list (string * list A)) :
  map (fun g => (fst g, map P (snd g))) (D3.group_add (keyA x) x groups)
  = D3.group_add (keyB (P x)) (P x)
      (map (fun g => (fst g, map P (snd g))) groups).
Proof.
  induction groups as [|[k vs] rest IH]; cbn.
  - now rewrite key_P.
  - rewrite key_P. destruct (String.eqb k (keyA x)); cbn.
    + now rewrite map_app.
    + f_equal. rewrite IH. now rewrite key_P.
Qed.

(** Grouping commutes with a projection that keeps the key. *)
Lemma group_map (values : list A) :
  map (fun g => (fst g, map P (snd g))) (D3.group values keyA)
  = D3.group (map P values) keyB.
Proof.
  induction values as [|x values IH] using rev_ind; [reflexivity|].
  rewrite map_app. cbn [map].
  rewrite (group_snoc keyA), (group_snoc keyB), group_add_map, IH.
  reflexivity.
Qed.

Lemma min_map (f : string -> option Z) (values : list A) :
  D3.min values (fun x => f (keyA x))
  = D3.min (map P values) (fun y => f (keyB y)).
Proof.
  unfold D3.min. generalize (@None Z).
  induction values as [|x values IH]; intros acc; cbn; [reflexivity|].
  rewrite key_P. apply IH.
Qed.

Lemma max_map (f : string -> option Z) (values : list A) :
  D3.max values (fun x => f (keyA x))
  = D3.max (map P values) (fun y => f (keyB y)).
Proof.
  unfold D3.max. generalize (@None Z).
  induction values as [|x values IH]; intros acc; cbn; [reflexivity|].
  rewrite key_P. apply IH.
Qed.

End ShownOnly.

Section Independence.

Variable legacyParse : string -> integral.
Variable LocalTZA : Z -> Z.

(** What the markers look like is a function of what is shown of the
    records: the colour and symbol fields are not read. *)
Lemma draw_factors (width height : Q) :
  exists F,
    forall data,
      map appearance (markers (draw legacyParse data width height))
      = F (map shown data).
Proof.
  exists (fun ps =>
            map (fun g : string * list (string * (string * (string * string)))
                 =>
                   (fst g,
                    (restingCircle
                       (D3.apply
                          {| D3.d0 := D3.min ps
                                        (fun p => Date_new legacyParse (fst p));
                             D3.d1 := D3.max ps
                                        (fun p => Date_new legacyParse (fst p));
                             D3.r0 := 50%Q; D3.r1 := sub64 width 50 |}
                          (Date_new legacyParse (fst g)))
                       (div64 height 2),
                     map entryOfShown (snd g))))
                (D3.group ps fst)).
  intros data.
  rewrite markers_draw, map_map.
  rewrite <- (group_map shown date fst (fun _ => eq_refl) data), map_map.
  rewrite <- (min_map shown date fst (fun _ => eq_refl)
                (Date_new legacyParse) data).
  rewrite <- (max_map shown date fst (fun _ => eq_refl)
                (Date_new legacyParse) data).
  apply map_ext. intros [k vs]. unfold appearance.
  cbn [key circle events fst snd]. rewrite map_map. reflexivity.
Qed.

Lemma shown_agree (idColumns : IdColumns) (rows1 rows2 : list (list Cell))
  (out1 out2 : list Data) :
  Forall2 (derivedFrom legacyParse LocalTZA idColumns) rows1 out1 ->
  Forall2 (derivedFrom legacyParse LocalTZA idColumns) rows2 out2 ->
  Forall2 (sameShownCells idColumns) rows1 rows2 ->
  map shown out1 = map shown out2.
Proof.
  intros H1. revert rows2 out2.
  induction H1 as [|row1 d1 rows1 out1 Hd1 _ IH]; intros rows2 out2 H2 Hs.
  - inversion Hs; subst. inversion H2; subst. reflexivity.
  - inversion Hs as [|? row2 ? rest2 Hrow Hrest]; subst.
    inversion H2 as [|? d2 ? rest Hd2 Hout2]; subst.
    cbn [map]. f_equal; [|now apply (IH rest2)].
    destruct Hd1 as (Da & Ea & Sa & _ & _ & DDa & EDa).
    destruct Hd2 as (Db & Eb & Sb & _ & _ & DDb & EDb).
    destruct Hrow as (Hd & He & Hs').
    rewrite Da, Db in Hd. rewrite Ea, Eb in He. rewrite Sa, Sb in Hs'.
    injection Hd as Hd. injection He as He. injection Hs' as Hs'.
    unfold shown. rewrite DDa, DDb, EDa, EDb. congruence.
Qed.

Lemma mouseover_html (s : Scene) (i : nat) :
  html (tooltip (mouseover i s))
  = match nth_error (map appearance (markers s)) i with
    | Some a => join "<br/><br/>" (snd (snd a))
    | None => html (tooltip s)
    end.
Proof.
  unfold mouseover. rewrite nth_error_map.
  destruct (nth_error (markers s) i); reflexivity.
Qed.

Lemma resting_draw (data : list Data) (width height : Q) :
  Forall resting (markers (draw legacyParse data width height)).
Proof.
  rewrite markers_draw. apply Forall_forall. intros m Hm.
  apply in_map_iff in Hm as (g & <- & _). repeat split.
Qed.

(** C10 (as the code behaves).  What the markers look like is a function
    of the date, display date, display event and description of the
    records; [color] and [symbol] are not read.  So two updates that both
    return, on tables with the same columns whose rows hold the same cells
    at the date, event and description columns, whatever their other
    cells, draw the same base line and the same markers (dates, positions,
    radius 5, black fill, black stroke of width 2), with the same tooltip
    texts. *)
Theorem markers_ignore_color_and_symbol
  (o1 o2 : VisualUpdateOptions) (v1 v2 v1' v2' : Visual) :
  columns (table o1) = columns (table o2) ->
  viewport_width o1 = viewport_width o2 ->
  viewport_height o1 = viewport_height o2 ->
  Forall2 (sameShownCells (scanColumns (columns (table o1)) O noColumns))
    (rows (table o1)) (rows (table o2)) ->
  update legacyParse LocalTZA o1 v1 = (Normal tt, v1') ->
  update legacyParse LocalTZA o2 v2 = (Normal tt, v2') ->
  exists s1 s2,
    target v1' = Some s1 /\ target v2' = Some s2
    /\ map key (markers s1) = map key (markers s2)
    /\ map circle (markers s1) = map circle (markers s2)
    /\ Forall resting (markers s1) /\ Forall resting (markers s2)
    /\ line s1 = line s2
    /\ (forall i, html (tooltip (mouseover i s1))
                  = html (tooltip (mouseover i s2))).
Proof.
  intros Hcols Hw Hh Hrows H1 H2.
  destruct (update_Normal _ _ _ _ _ H1) as (w1 & Hrun1 & _ & _ & Ht1).
  destruct (update_Normal _ _ _ _ _ H2) as (w2 & Hrun2 & _ & _ & Ht2).
  destruct (transformData_cases legacyParse LocalTZA (table o1) v1)
    as [(_ & out1 & w1' & Hrun1' & Hder1 & _)|(_ & w1' & Hrun1' & _)];
    rewrite Hrun1 in Hrun1'; [|discriminate].
  destruct (transformData_cases legacyParse LocalTZA (table o2) v2)
    as [(_ & out2 & w2' & Hrun2' & Hder2 & _)|(_ & w2' & Hrun2' & _)];
    rewrite Hrun2 in Hrun2'; [|discriminate].
  injection Hrun1' as <- <-. injection Hrun2' as <- <-.
  rewrite <- Hcols in Hder2.
  pose proof (shown_agree _ _ _ _ _ Hder1 Hder2 Hrows) as Hshown.
  destruct (draw_factors (viewport_width o1) (viewport_height o1))
    as (F & HF).
  assert (Happ : map appearance
                   (markers (draw legacyParse (data v1')
                               (viewport_width o1) (viewport_height o1)))
                 = map appearance
                     (markers (draw legacyParse (data v2')
                                 (viewport_width o2) (viewport_height o2)))).
  { rewrite <- Hw, <- Hh, !HF, Hshown. reflexivity. }
  eexists. eexists. split; [exact Ht1|]. split; [exact Ht2|].
  split.
  { apply (f_equal (map fst)) in Happ.
    rewrite !map_map in Happ. exact Happ. }
  split.
  { apply (f_equal (map (fun a : string * (Circle * list string)
                         => fst (snd a)))) in Happ.
    rewrite !map_map in Happ. exact Happ. }
  split; [apply resting_draw|]. split; [apply resting_draw|].
  split; [unfold draw; cbn [line]; now rewrite Hw, Hh|].
  intros i. rewrite !mouseover_html, Happ. reflexivity.
Qed.

End Independence.

Lemma recoloured_update :
  update isoOnly utc recolouredOptions exampleState1
  = (Normal tt, recolouredState).
Proof. vm_compute. reflexivity. Qed.

Lemma markers_ignore_color_and_symbol_witness :
  exists s1 s2,
    target exampleState1 = Some s1 /\ target recolouredState = Some s2
    /\ map circle (markers s1) = map circle (markers s2).
Proof.
  assert (Hrows : Forall2
                    (sameShownCells
                       (scanColumns (columns (table exampleOptions)) O
                          noColumns))
                    (rows (table exampleOptions))
                    (rows (table recolouredOptions))).
  { repeat constructor. }
  destruct (markers_ignore_color_and_symbol isoOnly utc
              exampleOptions recolouredOptions
              constructor exampleState1 exampleState1 recolouredState
              eq_refl eq_refl eq_refl Hrows
              example_update1 recoloured_update)
    as (s1 & s2 & T1 & T2 & _ & Hc & _).
  exists s1, s2. split; [exact T1|]. split; [exact T2 | exact Hc].
Defined.

(** C10 as stated fails.  Emptying the colour cell of the only row makes
    [update] raise, so that nothing is drawn where one marker was.  And
    where one column carries both the Date and the Color role, changing
    its cell in the second row from 2024-01-01 to 2024-01-02 turns one
    marker into two. *)
Lemma markers_depend_on_color_cells :
  ((exists v s,
       update isoOnly utc (oneRowOptions (Value "A")) constructor
       = (Normal tt, v)
       /\ target v = Some s /\ List.length (markers s) = 1%nat)
   /\ update isoOnly utc (oneRowOptions Null) constructor
      = (Throw TypeError, constructor))
  /\ (exists v1 v2 s1 s2,
        update isoOnly utc (sharedOptions "2024-01-01") constructor
        = (Normal tt, v1)
        /\ update isoOnly utc (sharedOptions "2024-01-02") constructor
           = (Normal tt, v2)
        /\ target v1 = Some s1 /\ target v2 = Some s2
        /\ List.length (markers s1) = 1%nat
        /\ List.length (markers s2) = 2%nat).
Proof.
  split; [split|].
  - do 2 eexists. split; [vm_compute; reflexivity|].
    split; [reflexivity|]. reflexivity.
  - vm_compute. reflexivity.
  - do 4 eexists. split; [vm_compute; reflexivity|].
    split; [vm_compute; reflexivity|].
    split; [reflexivity|]. split; [reflexivity|]. split; reflexivity.
Qed.

(* ================================================================== *)
(** * Further properties of the code *)

(** ** The column scan *)

Lemma scanColumns_snoc (cols : list Column) (column : Column) :
  forall i idColumns,
    scanColumns (cols ++ [column])%list i idColumns
    = scanColumn (scanColumns cols i idColumns) (i + List.length cols) column.
Proof.
  induction cols as [|c cols IH]; intros i idColumns; cbn.
  - now rewrite Nat.add_0_r.
  - rewrite IH. f_equal. lia.
Qed.

Lemma nth_error_lt {A : Type} (l : list A) (n : nat) (x : A) :
  nth_error l n = Some x -> (n < List.length l)%nat.
Proof. intros H. apply nth_error_Some. congruence. Qed.

(** X1.  The column scan resolves a role to the last column that carries
    it, and leaves it unresolved exactly when no column carries it. *)
Theorem scanColumns_last_wins (R : RoleName) (cols : list Column) :
  (idOf R (scanColumns cols O noColumns) = None
   <-> forall column, In column cols -> flag R (roles column) = false)
  /\ (forall n, idOf R (scanColumns cols O noColumns) = Some n
                <-> lastCarrier R cols n).
Proof.
  induction cols as [|c cols [IHnone IHsome]] using rev_ind.
  - split.
    + split; [intros _ ? [] | intros _; destruct R; reflexivity].
    + intros n. split.
      * destruct R; discriminate.
      * intros [(column & Hc & _) _]. destruct n; discriminate.
  - rewrite scanColumns_snoc, scanColumn_idOf. cbn [Nat.add].
    destruct (flag R (roles c)) eqn:Ec.
    + split.
      * split; [discriminate|]. intros Hall.
        rewrite Hall in Ec; [discriminate|]. apply in_or_app. right. now left.
      * intros n. split.
        -- intros [= <-]. split.
           ++ exists c. rewrite nth_error_app2, Nat.sub_diag by lia. auto.
           ++ intros j column Hj Hcol.
              apply nth_error_lt in Hcol.
              rewrite length_app in Hcol. cbn in Hcol. lia.
        -- intros [(column & Hc & Hf) Hlast].
           destruct (Nat.lt_trichotomy n (List.length cols)) as [Hlt|[->|Hgt]].
           ++ specialize (Hlast (List.length cols) c Hlt).
              rewrite nth_error_app2, Nat.sub_diag in Hlast by lia.
              rewrite Hlast in Ec by reflexivity. discriminate.
           ++ reflexivity.
           ++ apply nth_error_lt in Hc.
              rewrite length_app in Hc. cbn in Hc. lia.
    + split.
      * rewrite IHnone. split.
        -- intros Hall column Hin. apply in_app_or in Hin as [Hin|[<-|[]]];
             auto.
        -- intros Hall column Hin. apply Hall, in_or_app. now left.
      * intros n. rewrite IHsome. split.
        -- intros [(column & Hc & Hf) Hlast]. split.
           ++ exists column. split; [|exact Hf].
              rewrite nth_error_app1; [exact Hc|].
              now apply nth_error_lt in Hc.
           ++ intros j column' Hj Hcol.
              destruct (Nat.lt_ge_cases j (List.length cols)) as [Hlt|Hge].
              ** rewrite nth_error_app1 in Hcol by exact Hlt. eauto.
              ** rewrite nth_error_app2 in Hcol by exact Hge.
                 destruct (j - List.length cols)%nat as [|[|k]];
                   cbn in Hcol; try discriminate.
                 injection Hcol as <-. exact Ec.
        -- intros [(column & Hc & Hf) Hlast].
           assert (Hn : (n < List.length cols)%nat).
           { destruct (Nat.lt_ge_cases n (List.length cols)) as [|Hge];
               [assumption|].
             rewrite nth_error_app2 in Hc by exact Hge.
             destruct (n - List.length cols)%nat as [|[|k]];
               cbn in Hc; try discriminate.
             injection Hc as <-. congruence. }
           split.
           ++ exists column. split; [|exact Hf].
              now rewrite nth_error_app1 in Hc.
           ++ intros j column' Hj Hcol. apply (Hlast j column' Hj).
              rewrite nth_error_app1; [exact Hcol|].
              now apply nth_error_lt in Hcol.
Qed.

Lemma scanColumns_last_wins_witness : lastCarrier RColor sharedColumns 0.
Proof.
  apply (proj1 (proj2 (scanColumns_last_wins RColor sharedColumns) 0%nat)).
  reflexivity.
Defined.

(** ** When the mapper returns, what it reads, what it leaves alone *)

Section MapperBehaviour.

Variable legacyParse : string -> integral.
Variable LocalTZA : Z -> Z.

(** X2.  [transformData] returns exactly when every row holds a value at
    each of the five columns read, and raises a TypeError exactly when
    some row does not; which of the two does not depend on the state. *)
Theorem transformData_returns_iff_readable (table : DataViewTable)
  (v : Visual) :
  let idColumns := scanColumns (columns table) O noColumns in
  ((exists out v',
       transformData legacyParse LocalTZA table v = (Normal out, v'))
   <-> forallb (readable idColumns) (rows table) = true)
  /\ ((exists v',
         transformData legacyParse LocalTZA table v = (Throw TypeError, v'))
      <-> forallb (readable idColumns) (rows table) = false)
  /\ (forall e v',
        transformData legacyParse LocalTZA table v = (Throw e, v') ->
        e = TypeError).
Proof.
  intros idColumns.
  destruct (transformData_cases legacyParse LocalTZA table v)
    as [(Hall & out & v' & Hrun & _)|(Hall & v' & Hrun & _)];
    fold idColumns in Hall; rewrite Hall.
  - split; [|split].
    + split; [reflexivity | intros _; eauto].
    + split; [|discriminate].
      intros (w & Hw). rewrite Hrun in Hw. discriminate.
    + intros e w Hw. rewrite Hrun in Hw. discriminate.
  - split; [|split].
    + split; [|discriminate].
      intros (out & w & Hw). rewrite Hrun in Hw. discriminate.
    + split; [reflexivity | intros _; eauto].
    + intros e w Hw. rewrite Hrun in Hw. now injection Hw as <- _.
Qed.

(** X3.  An update that raises has drawn nothing and assigned nothing:
    the records and the content of the target are those before the call.
    Only the scales may have taken the labels of the rows mapped before
    the failing one. *)
Theorem update_Throw_keeps_drawing (options : VisualUpdateOptions)
  (v v' : Visual) (e : error) :
  update legacyParse LocalTZA options v = (Throw e, v') ->
  e = TypeError /\ data v' = data v /\ target v' = target v /\ grows v v'.
Proof.
  unfold update, bind. intros H.
  destruct (transformData_cases legacyParse LocalTZA (table options) v)
    as [(_ & out & w & Hrun & _)|(_ & w & Hrun & Hg & Hd & Ht)];
    rewrite Hrun in H; [discriminate|].
  injection H as <- <-. auto.
Qed.

Lemma rowItem_sameReadCells (idColumns : IdColumns) (row1 row2 : list Cell)
  (v : Visual) :
  sameReadCells idColumns row1 row2 ->
  rowItem legacyParse LocalTZA idColumns row1 v
  = rowItem legacyParse LocalTZA idColumns row2 v.
Proof.
  intros H. unfold rowItem.
  pose proof (H RDate) as Hd. pose proof (H REvent) as He.
  pose proof (H RDescription) as Hs. pose proof (H RColor) as Hc.
  pose proof (H RSymbol) as Hy. cbn [idOf] in Hd, He, Hs, Hc, Hy.
  rewrite Hd, He, Hs, Hc, Hy. reflexivity.
Qed.

Lemma forEachRow_sameReadCells (idColumns : IdColumns)
  (rows1 rows2 : list (list Cell)) :
  Forall2 (sameReadCells idColumns) rows1 rows2 ->
  forall acc v,
    forEachRow legacyParse LocalTZA idColumns rows1 acc v
    = forEachRow legacyParse LocalTZA idColumns rows2 acc v.
Proof.
  induction 1 as [|row1 row2 rows1 rows2 Hrow _ IH]; intros acc v;
    [reflexivity|].
  cbn [forEachRow]. unfold bind.
  rewrite (rowItem_sameReadCells idColumns row1 row2 v Hrow).
  destruct (rowItem legacyParse LocalTZA idColumns row2 v) as [[item|e] w];
    [apply IH | reflexivity].
Qed.

(** X4.  The mapper looks at no cell outside the columns resolved for the
    five roles: two tables with the same columns whose rows hold the same
    cells there give the same result and the same state, whatever their
    other cells. *)
Theorem transformData_reads_role_columns_only (table1 table2 : DataViewTable)
  (v : Visual) :
  columns table1 = columns table2 ->
  Forall2 (sameReadCells (scanColumns (columns table1) O noColumns))
    (rows table1) (rows table2) ->
  transformData legacyParse LocalTZA table1 v
  = transformData legacyParse LocalTZA table2 v.
Proof.
  intros Hcols Hrows. unfold transformData. rewrite <- Hcols.
  now apply forEachRow_sameReadCells.
Qed.

End MapperBehaviour.

Lemma transformData_returns_iff_readable_witness :
  exists out v',
    transformData isoOnly utc exampleTable constructor = (Normal out, v').
Proof.
  exact (proj2 (proj1 (transformData_returns_iff_readable isoOnly utc
                         exampleTable constructor)) eq_refl).
Defined.

Lemma null_colour_update :
  update isoOnly utc (oneRowOptions Null) exampleState1
  = (Throw TypeError, exampleState1).
Proof. vm_compute. reflexivity. Qed.

Lemma update_Throw_keeps_drawing_witness :
  exists v',
    update isoOnly utc (oneRowOptions Null) exampleState1
    = (Throw TypeError, v')
    /\ target v' = target exampleState1.
Proof.
  exists exampleState1. split; [exact null_colour_update|].
  exact (proj1 (proj2 (proj2
           (update_Throw_keeps_drawing isoOnly utc (oneRowOptions Null)
              exampleState1 exampleState1 TypeError null_colour_update)))).
Defined.

Lemma transformData_reads_role_columns_only_witness :
  transformData isoOnly utc exampleTable constructor
  = transformData isoOnly utc widerTable constructor.
Proof.
  apply (transformData_reads_role_columns_only isoOnly utc
           exampleTable widerTable constructor eq_refl).
  repeat constructor; intros R; destruct R; reflexivity.
Defined.

(** ** Every update draws from scratch *)

Section Redraw.

Variable legacyParse : string -> integral.
Variable LocalTZA : Z -> Z.

Lemma derivedFrom_unique (idColumns : IdColumns) (row : list Cell)
  (d1 d2 : Data) :
  derivedFrom legacyParse LocalTZA idColumns row d1 ->
  derivedFrom legacyParse LocalTZA idColumns row d2 ->
  color d1 = color d2 -> symbol d1 = symbol d2 ->
  d1 = d2.
Proof.
  intros (Da & Ea & Sa & Ca & Ya & DDa & EDa)
         (Db & Eb & Sb & Cb & Yb & DDb & EDb) Hc Hs.
  destruct d1, d2. cbn in *. congruence.
Qed.

Lemma same_rows_same_records (idColumns : IdColumns)
  (rows : list (list Cell)) (out1 out2 : list Data) :
  Forall2 (derivedFrom legacyParse LocalTZA idColumns) rows out1 ->
  Forall2 (derivedFrom legacyParse LocalTZA idColumns) rows out2 ->
  Forall (fun d => color d = None /\ symbol d = None) out1 ->
  Forall (fun d => color d = None /\ symbol d = None) out2 ->
  out1 = out2.
Proof.
  intros H1. revert out2.
  induction H1 as [|row d1 rows out1 Hd1 _ IH]; intros out2 H2 N1 N2.
  - now inversion H2.
  - inversion H2 as [|? d2 ? rest Hd2 Hrest]; subst.
    inversion N1 as [|? ? [C1 S1] N1']; subst.
    inversion N2 as [|? ? [C2 S2] N2']; subst.
    f_equal; [|now apply IH].
    apply (derivedFrom_unique idColumns row); auto; congruence.
Qed.

Lemma lifetime_no_range (v : Visual) :
  lifetime legacyParse LocalTZA v ->
  D3.range (colorScale v) = [] /\ D3.range (symbolScale v) = [].
Proof.
  induction 1 as [|v1 v2 options c _ [Rc Ry] Hstep|v s e _ IH _].
  - split; reflexivity.
  - destruct (update_grows _ _ _ _ _ _ Hstep) as [[Rc' _] [Ry' _]].
    split; congruence.
  - exact IH.
Qed.

(** X5.  Whether [update] returns or raises depends on the table alone,
    not on the viewport and not on the state.  What a returning update
    assigns and draws depends on its options alone, not on what was drawn
    or hovered before: from any two states the visual can be in, after
    updates and pointer events in any number and order, it assigns the
    same records and draws the same scene, every marker resting and the
    tooltip empty and hidden. *)
Theorem update_redraws_from_scratch :
  (forall o1 o2 v1 v2,
      table o1 = table o2 ->
      fst (update legacyParse LocalTZA o1 v1)
      = fst (update legacyParse LocalTZA o2 v2))
  /\ (forall options v1 v2 v1' v2',
        lifetime legacyParse LocalTZA v1 ->
        lifetime legacyParse LocalTZA v2 ->
        update legacyParse LocalTZA options v1 = (Normal tt, v1') ->
        update legacyParse LocalTZA options v2 = (Normal tt, v2') ->
        data v1' = data v2'
        /\ target v1' = target v2'
        /\ exists s, target v1' = Some s
                     /\ Forall resting (markers s)
                     /\ tooltip s = {| html := ""; visibility := "hidden";
                                       top := None; left := None |}).
Proof.
  split.
  - intros o1 o2 v1 v2 E. unfold update, bind. rewrite <- E.
    destruct (transformData_cases legacyParse LocalTZA (table o1) v1)
      as [(A1 & d1 & w1 & R1 & _)|(A1 & w1 & R1 & _)];
      destruct (transformData_cases legacyParse LocalTZA (table o1) v2)
        as [(A2 & d2 & w2 & R2 & _)|(A2 & w2 & R2 & _)];
      rewrite R1, R2; try reflexivity; congruence.
  - intros options v1 v2 v1' v2' L1 L2 H1 H2.
    destruct (lifetime_no_range v1 L1) as [Rc1 Ry1].
    destruct (lifetime_no_range v2 L2) as [Rc2 Ry2].
    pose proof (no_range_undefined _ _ _ _ _ Rc1 Ry1 H1) as N1.
    pose proof (no_range_undefined _ _ _ _ _ Rc2 Ry2 H2) as N2.
    destruct (update_Normal _ _ _ _ _ H1) as (w1 & R1 & _ & _ & T1).
    destruct (update_Normal _ _ _ _ _ H2) as (w2 & R2 & _ & _ & T2).
    destruct (transformData_cases legacyParse LocalTZA (table options) v1)
      as [(_ & o1 & w1' & R1' & D1 & _)|(_ & w1' & R1' & _)];
      rewrite R1 in R1'; [|discriminate].
    destruct (transformData_cases legacyParse LocalTZA (table options) v2)
      as [(_ & o2 & w2' & R2' & D2 & _)|(_ & w2' & R2' & _)];
      rewrite R2 in R2'; [|discriminate].
    injection R1' as <- <-. injection R2' as <- <-.
    assert (E : data v1' = data v2')
      by (eapply same_rows_same_records; eassumption).
    split; [exact E|]. split; [now rewrite T1, T2, E|].
    eexists. split; [exact T1|]. split; [apply resting_draw | reflexivity].
Qed.

End Redraw.

Lemma hovered_lifetime : lifetime isoOnly utc hoveredState.
Proof.
  unfold hoveredState.
  assert (L : lifetime isoOnly utc exampleState1).
  { exact (lifetime_update isoOnly utc constructor exampleState1
             exampleOptions (Normal tt)
             (lifetime_constructor isoOnly utc) example_update1). }
  destruct (target exampleState1) as [s|] eqn:E; [|exact L].
  exact (lifetime_pointer isoOnly utc exampleState1 s (Enter 0) L E).
Qed.

Lemma hovered_update :
  update isoOnly utc exampleOptions hoveredState = (Normal tt, exampleState2).
Proof. vm_compute. reflexivity. Qed.

Lemma hovered_tooltip :
  exists s, target hoveredState = Some s
            /\ visibility (tooltip s) = "visible".
Proof. eexists. split; [vm_compute; reflexivity | reflexivity]. Qed.

Lemma update_redraws_from_scratch_witness :
  (exists s, target hoveredState = Some s
             /\ visibility (tooltip s) = "visible")
  /\ data exampleState1 = data exampleState2
  /\ target exampleState1 = target exampleState2.
Proof.
  split; [exact hovered_tooltip|].
  destruct (proj2 (update_redraws_from_scratch isoOnly utc)
              exampleOptions constructor hoveredState
              exampleState1 exampleState2
              (lifetime_constructor isoOnly utc) hovered_lifetime
              example_update1 hovered_update)
    as (Hd & Ht & _).
  split; [exact Hd | exact Ht].
Defined.

(** ** The scales keep every label they met *)

Lemma index_of_None_iff (d : string) (dom : list string) :
  D3.index_of d dom = None <-> ~ In d dom.
Proof.
  induction dom as [|x dom IH]; cbn.
  - split; [intros _ [] | reflexivity].
  - destruct (String.eqb_spec x d) as [->|Hne].
    + split; [discriminate | intros H; exfalso; apply H; now left].
    + destruct (D3.index_of d dom) as [i|]; cbn.
      * split; [discriminate|]. intros H. exfalso.
        assert (Hin : In d dom).
        { destruct (in_dec string_dec d dom) as [|Hn]; [assumption|].
          apply IH in Hn. discriminate. }
        apply H. now right.
      * split; [|reflexivity]. intros _ [E|Hin]; [congruence|].
        now apply (proj1 IH).
Qed.

Lemma call_domain (s : D3.ScaleOrdinal) (d : string) :
  D3.range (snd (D3.call s d)) = D3.range s
  /\ (forall x, In x (D3.domain (snd (D3.call s d)))
                <-> In x (D3.domain s) \/ x = d)
  /\ (NoDup (D3.domain s) -> NoDup (D3.domain (snd (D3.call s d)))).
Proof.
  unfold D3.call.
  destruct (D3.index_of d (D3.domain s)) as [i|] eqn:E; cbn [snd].
  - split; [reflexivity|]. split; [|auto].
    intros x. split; [auto|]. intros [H| ->]; [exact H|].
    apply ScaleFacts.index_of_nth in E. now apply nth_error_In in E.
  - cbn [D3.domain D3.range]. split; [reflexivity|]. split.
    + intros x. rewrite in_app_iff. cbn. intuition.
    + intros Hnd. apply index_of_None_iff in E.
      apply NoDup_app; [exact Hnd | repeat constructor; intros []|].
      intros x Hx [<-|[]]. contradiction.
Qed.

Lemma callAll_domain (labels : list string) :
  forall s,
    D3.range (callAll s labels) = D3.range s
    /\ (forall x, In x (D3.domain (callAll s labels))
                  <-> In x (D3.domain s) \/ In x labels)
    /\ (NoDup (D3.domain s) -> NoDup (D3.domain (callAll s labels))).
Proof.
  unfold callAll.
  induction labels as [|l labels IH]; intros s; cbn [fold_left].
  - split; [reflexivity|]. split; [|auto]. intros x. cbn. tauto.
  - destruct (call_domain s l) as (Hr & Hin & Hnd).
    destruct (IH (snd (D3.call s l))) as (Hr' & Hin' & Hnd').
    split; [congruence|]. split; [|auto].
    intros x. rewrite Hin', Hin. cbn. intuition.
Qed.

Section Accumulate.

Variable legacyParse : string -> integral.
Variable LocalTZA : Z -> Z.

(** The scales after the mapper returned: called once with the label of
    every record, in order. *)
Lemma forEachRow_callAll (idColumns : IdColumns) (rows : list (list Cell)) :
  forall acc v out v',
    forEachRow legacyParse LocalTZA idColumns rows acc v = (Normal out, v') ->
    exists items,
      out = (acc ++ items)%list
      /\ colorScale v' = callAll (colorScale v) (map colorAttribute items)
      /\ symbolScale v' = callAll (symbolScale v) (map symbolAttribute items).
Proof.
  induction rows as [|row rest IH]; intros acc v out v' H.
  - cbn in H. injection H as <- <-. exists []. rewrite app_nil_r. auto.
  - cbn [forEachRow] in H. unfold bind in H.
    destruct (readable idColumns row) eqn:Hrow.
    + destruct (readable_values idColumns row Hrow)
        as (dt & ev & ds & ca & sa & Hd & He & Hs & Hc & Hy).
      rewrite (rowItem_Normal legacyParse LocalTZA idColumns row v
                 dt ev ds ca sa Hd He Hs Hc Hy) in H.
      apply IH in H as (items & -> & Ec & Es).
      cbn [colorScale symbolScale] in Ec, Es.
      eexists (_ :: items). rewrite <- app_assoc. cbn [app].
      split; [reflexivity|]. cbn [map colorAttribute symbolAttribute].
      unfold callAll in *. cbn [fold_left]. auto.
    + rewrite (rowItem_Throw legacyParse LocalTZA idColumns row v Hrow) in H.
      discriminate.
Qed.

(** Whatever holds of a scale and survives a call holds after the mapper
    ran, returning or raising. *)
Lemma forEachRow_scales (P : D3.ScaleOrdinal -> Prop)
  (idColumns : IdColumns) (rows : list (list Cell)) :
  (forall s l, P s -> P (snd (D3.call s l))) ->
  forall acc v,
    P (colorScale v) -> P (symbolScale v) ->
    P (colorScale
         (snd (forEachRow legacyParse LocalTZA idColumns rows acc v)))
    /\ P (symbolScale
            (snd (forEachRow legacyParse LocalTZA idColumns rows acc v))).
Proof.
  intros HP. induction rows as [|row rest IH]; intros acc v Hc Hs.
  - cbn. auto.
  - cbn [forEachRow]. unfold bind.
    destruct (readable idColumns row) eqn:Hrow.
    + destruct (readable_values idColumns row Hrow)
        as (dt & ev & ds & ca & sa & Hd & He & Hd' & Hc' & Hy).
      rewrite (rowItem_Normal legacyParse LocalTZA idColumns row v
                 dt ev ds ca sa Hd He Hd' Hc' Hy).
      apply IH; cbn [colorScale symbolScale]; auto.
    + rewrite (rowItem_Throw legacyParse LocalTZA idColumns row v Hrow).
      cbn. auto.
Qed.

Lemma update_scales (P : D3.ScaleOrdinal -> Prop)
  (options : VisualUpdateOptions) (v : Visual) :
  (forall s l, P s -> P (snd (D3.call s l))) ->
  P (colorScale v) -> P (symbolScale v) ->
  P (colorScale (snd (update legacyParse LocalTZA options v)))
  /\ P (symbolScale (snd (update legacyParse LocalTZA options v))).
Proof.
  intros HP Hc Hs. unfold update, bind, transformData.
  pose proof (forEachRow_scales P
                (scanColumns (columns (table options)) O noColumns)
                (rows (table options)) HP [] v Hc Hs) as H.
  destruct (forEachRow _ _ _ _ _ _) as [[out|e] w]; cbn in *; exact H.
Qed.

(** X6.  The scales are made once and never reset.  Through a session the
    domain of each scale holds no label twice and loses none; a returning
    update leaves each scale as it is after one call per record, in row
    order, so that its domain holds the labels it held plus those of the
    records. *)
Theorem scales_accumulate :
  (forall v, session legacyParse LocalTZA constructor v ->
             NoDup (D3.domain (colorScale v))
             /\ NoDup (D3.domain (symbolScale v)))
  /\ (forall v v', session legacyParse LocalTZA v v' ->
                   incl (D3.domain (colorScale v)) (D3.domain (colorScale v'))
                   /\ incl (D3.domain (symbolScale v))
                        (D3.domain (symbolScale v')))
  /\ (forall options v v',
        update legacyParse LocalTZA options v = (Normal tt, v') ->
        colorScale v'
        = callAll (colorScale v) (map colorAttribute (data v'))
        /\ symbolScale v'
           = callAll (symbolScale v) (map symbolAttribute (data v'))
        /\ (forall x, In x (D3.domain (colorScale v'))
                      <-> In x (D3.domain (colorScale v))
                          \/ In x (map colorAttribute (data v')))
        /\ (forall x, In x (D3.domain (symbolScale v'))
                      <-> In x (D3.domain (symbolScale v))
                          \/ In x (map symbolAttribute (data v')))).
Proof.
  split; [|split].
  - induction 1 as [|v1 v2 options c _ IH Hstep].
    + split; constructor.
    + destruct IH as [Hc Hs].
      pose proof (update_scales (fun s => NoDup (D3.domain s)) options v1
                    (fun s l => proj2 (proj2 (call_domain s l))) Hc Hs) as H.
      rewrite Hstep in H. exact H.
  - intros v v' Hs.
    destruct (session_grows _ _ _ _ Hs) as [[_ [mc Ec]] [_ [ms Es]]].
    split; intros x Hx; [rewrite Ec | rewrite Es];
      apply in_or_app; now left.
  - intros options v v' H.
    destruct (update_Normal _ _ _ _ _ H) as (w & Hrun & Ec & Es & _).
    unfold transformData in Hrun.
    apply forEachRow_callAll in Hrun as (items & Eout & Hc & Hs).
    cbn [app] in Eout. subst items.
    rewrite Ec, Es, Hc, Hs.
    split; [reflexivity|]. split; [reflexivity|].
    split; intros x; apply callAll_domain.
Qed.

End Accumulate.

Lemma scales_accumulate_witness :
  NoDup (D3.domain (colorScale exampleState1))
  /\ incl (D3.domain (colorScale exampleState1))
       (D3.domain (colorScale recolouredState)).
Proof.
  assert (S1 : session isoOnly utc constructor exampleState1).
  { exact (session_update isoOnly utc constructor constructor exampleState1
             exampleOptions (Normal tt)
             (session_here isoOnly utc constructor) example_update1). }
  assert (S2 : session isoOnly utc exampleState1 recolouredState).
  { exact (session_update isoOnly utc exampleState1 exampleState1
             recolouredState recolouredOptions (Normal tt)
             (session_here isoOnly utc exampleState1) recoloured_update). }
  split.
  - exact (proj1 (proj1 (scales_accumulate isoOnly utc) exampleState1 S1)).
  - exact (proj1 (proj1 (proj2 (scales_accumulate isoOnly utc))
                    exampleState1 recolouredState S2)).
Defined.

(** ** The event label *)

Lemma formatStringDisplay_length (input : string) :
  String.length (formatStringDisplay input)
  = Nat.min (String.length input) 10.
Proof.
  unfold formatStringDisplay.
  destruct (Nat.leb_spec (String.length input) 10) as [Hle|Hgt].
  - lia.
  - destruct (JS_substring_first 7 input ltac:(lia)) as [H7 _].
    rewrite length_append, H7. cbn. lia.
Qed.

(** X7.  The display of an event is never longer than 10 characters: its
    length is the smaller of the input's length and 10.  Formatting a
    display again changes nothing. *)
Theorem formatStringDisplay_length_idempotent (input : string) :
  String.length (formatStringDisplay input)
  = Nat.min (String.length input) 10
  /\ formatStringDisplay (formatStringDisplay input)
     = formatStringDisplay input.
Proof.
  pose proof (formatStringDisplay_length input) as Hlen.
  split; [exact Hlen|].
  unfold formatStringDisplay at 1.
  destruct (Nat.leb_spec (String.length (formatStringDisplay input)) 10)
    as [_|Hgt]; [reflexivity | lia].
Qed.

(** X8.  The display equals the event exactly when the event has at most
    10 characters; two longer events that start with the same 7 characters
    have the same display. *)
Theorem formatStringDisplay_loses (a b : string) :
  (formatStringDisplay a = a <-> (String.length a <= 10)%nat)
  /\ ((10 < String.length a)%nat -> (10 < String.length b)%nat ->
      JS.substring a 0 7 = JS.substring b 0 7 ->
      formatStringDisplay a = formatStringDisplay b).
Proof.
  split.
  - split.
    + intros E. pose proof (formatStringDisplay_length a) as H.
      rewrite E in H. lia.
    + intros H. unfold formatStringDisplay.
      apply Nat.leb_le in H. now rewrite H.
  - intros Ha Hb E. unfold formatStringDisplay.
    apply Nat.leb_gt in Ha, Hb. now rewrite Ha, Hb, E.
Qed.

Lemma formatStringDisplay_loses_witness :
  formatStringDisplay "Review of the plan"
  = formatStringDisplay "Review and sign-off".
Proof.
  apply (proj2 (formatStringDisplay_loses "Review of the plan"
                  "Review and sign-off")); cbn; try lia. reflexivity.
Defined.

(** ** Dates written year first come back day first *)

Lemma digit_inv (c : ascii) (k : Z) :
  ISO.digit c = Some k -> 0 <= k <= 9 /\ c = digitChar k.
Proof.
  unfold ISO.digit, digitChar. intros H.
  destruct (Nat.leb_spec 48 (nat_of_ascii c)) as [Hlo|]; [|discriminate].
  destruct (Nat.leb_spec (nat_of_ascii c) 57) as [Hhi|]; [|discriminate].
  cbn in H. injection H as <-. split; [lia|].
  replace (48 + Z.to_nat (Z.of_nat (nat_of_ascii c - 48)))%nat
    with (nat_of_ascii c) by lia.
  now rewrite ascii_nat_embedding.
Qed.

Lemma small_digit_cases (k : Z) :
  0 <= k <= 9 ->
  k = 0 \/ k = 1 \/ k = 2 \/ k = 3 \/ k = 4 \/ k = 5 \/ k = 6 \/ k = 7
  \/ k = 8 \/ k = 9.
Proof. lia. Qed.

(** Two digits and the number they spell: printing the number and padding
    it gives the two digits back. *)
Lemma digits2_print (a b : ascii) (n : Z) :
  ISO.digits2 a b = Some n ->
  padStart (String_ (Some n)) 2 "0" = String a (String b "").
Proof.
  unfold ISO.digits2. intros H.
  destruct (ISO.digit a) as [x|] eqn:Ea; [|discriminate].
  destruct (ISO.digit b) as [y|] eqn:Eb; [|discriminate].
  injection H as <-.
  destruct (digit_inv a x Ea) as [Hx ->].
  destruct (digit_inv b y Eb) as [Hy ->].
  apply small_digit_cases in Hx, Hy.
  repeat (destruct Hx as [->|Hx]);
    repeat (destruct Hy as [->|Hy]); subst; reflexivity.
Qed.

Lemma digits4_print (a b c d : ascii) (n : Z) :
  ISO.digits4 a b c d = Some n ->
  a <> "0"%char ->
  1000 <= n <= 9999
  /\ String_ (Some n) = String a (String b (String c (String d ""))).
Proof.
  intros H Ha.
  assert (Hn : 1000 <= n <= 9999).
  { unfold ISO.digits4, ISO.digits2 in H.
    destruct (ISO.digit a) as [x1|] eqn:E1; [|discriminate].
    destruct (ISO.digit b) as [x2|] eqn:E2; [|discriminate].
    destruct (ISO.digit c) as [x3|] eqn:E3; [|discriminate].
    destruct (ISO.digit d) as [x4|] eqn:E4; [|discriminate].
    assert (En : n = 100 * (10 * x1 + x2) + (10 * x3 + x4)) by congruence.
    destruct (digit_inv a x1 E1) as [H1 Ea].
    destruct (digit_inv b x2 E2) as [H2 _].
    destruct (digit_inv c x3 E3) as [H3 _].
    destruct (digit_inv d x4 E4) as [H4 _].
    assert (x1 <> 0) by (intros ->; apply Ha; exact Ea).
    lia. }
  split; [exact Hn|].
  destruct (fourDigits n Hn) as (a' & b' & c' & d' & Es & H').
  rewrite Es. clear Es.
  unfold ISO.digits4, ISO.digits2 in H, H'.
  destruct (ISO.digit a) as [x1|] eqn:E1; [|discriminate].
  destruct (ISO.digit b) as [x2|] eqn:E2; [|discriminate].
  destruct (ISO.digit c) as [x3|] eqn:E3; [|discriminate].
  destruct (ISO.digit d) as [x4|] eqn:E4; [|discriminate].
  destruct (ISO.digit a') as [z1|] eqn:F1; [|discriminate].
  destruct (ISO.digit b') as [z2|] eqn:F2; [|discriminate].
  destruct (ISO.digit c') as [z3|] eqn:F3; [|discriminate].
  destruct (ISO.digit d') as [z4|] eqn:F4; [|discriminate].
  assert (En : n = 100 * (10 * x1 + x2) + (10 * x3 + x4)) by congruence.
  assert (En' : n = 100 * (10 * z1 + z2) + (10 * z3 + z4)) by congruence.
  clear H H'.
  destruct (digit_inv _ _ E1) as [? ->]. destruct (digit_inv _ _ E2) as [? ->].
  destruct (digit_inv _ _ E3) as [? ->]. destruct (digit_inv _ _ E4) as [? ->].
  destruct (digit_inv _ _ F1) as [? ->]. destruct (digit_inv _ _ F2) as [? ->].
  destruct (digit_inv _ _ F3) as [? ->]. destruct (digit_inv _ _ F4) as [? ->].
  assert (z1 = x1 /\ z2 = x2 /\ z3 = x3 /\ z4 = x4) as (-> & -> & -> & ->)
    by lia.
  reflexivity.
Qed.

Lemma small_month_cases (m : Z) :
  0 <= m <= 11 ->
  m = 0 \/ m = 1 \/ m = 2 \/ m = 3 \/ m = 4 \/ m = 5 \/ m = 6 \/ m = 7
  \/ m = 8 \/ m = 9 \/ m = 10 \/ m = 11.
Proof. lia. Qed.

(** The calendar fields of a day built from a year, a month and a day of
    the month are that year, month and day. *)
Lemma calendar_of_MakeDay (y m d t : Z) :
  0 <= m <= 11 ->
  1 <= d <= ISO.DaysInMonth y m ->
  DateTime.Day t = ISO.MakeDay y m d ->
  DateTime.YearFromTime t = y
  /\ DateTime.MonthFromTime t = m
  /\ DateTime.DateFromTime t = d.
Proof.
  intros Hm Hd Ht.
  assert (Hy : DateTime.YearFromTime t = y).
  { unfold DateTime.YearFromTime. rewrite Ht.
    pose proof (DateFacts.YearFromDay_spec (ISO.MakeDay y m d)) as Hs.
    set (Y := DateTime.YearFromDay (ISO.MakeDay y m d)) in *.
    assert (Hin : DateTime.DayFromYear y <= ISO.MakeDay y m d
                  < DateTime.DayFromYear (y + 1)).
    { rewrite DateFacts.DayFromYear_succ.
      unfold ISO.MakeDay, ISO.DaysInMonth in *.
      destruct (DateFacts.DaysInYear_cases y) as [E|E]; rewrite E in *;
        cbn [Z.eqb Pos.eqb] in *;
        apply small_month_cases in Hm;
        repeat (destruct Hm as [->|Hm]); subst; cbn in *; lia. }
    destruct (Z.lt_trichotomy Y y) as [Hlt|[E|Hgt]]; [|exact E|].
    - assert (DateTime.DayFromYear (Y + 1) <= DateTime.DayFromYear y).
      { destruct (Z.eq_dec (Y + 1) y) as [->|]; [lia|].
        apply Z.lt_le_incl, DateFacts.DayFromYear_mono. lia. }
      lia.
    - assert (DateTime.DayFromYear (y + 1) <= DateTime.DayFromYear Y).
      { destruct (Z.eq_dec (y + 1) Y) as [->|]; [lia|].
        apply Z.lt_le_incl, DateFacts.DayFromYear_mono. lia. }
      lia. }
  split; [exact Hy|].
  unfold DateTime.DateFromTime, DateTime.MonthFromTime, DateTime.InLeapYear,
    DateTime.DayWithinYear.
  rewrite Hy, Ht. unfold ISO.MakeDay, ISO.DaysInMonth in *.
  destruct (DateFacts.DaysInYear_cases y) as [E|E]; rewrite E in *;
    cbn [Z.eqb Pos.eqb] in *;
    apply small_month_cases in Hm;
    repeat (destruct Hm as [->|Hm]); subst; cbn in Hd;
    cbn [DateTime.monthStart];
    repeat match goal with
           | |- context [if ?a <? ?b then _ else _] =>
               destruct (Z.ltb_spec a b); try lia
           end; cbn [DateTime.monthStart]; split; lia.
Qed.

Section RoundTrip.

Variable legacyParse : string -> integral.
Variable LocalTZA : Z -> Z.

(** X9.  A valid date written [YYYY-MM-DD], with a year from 1000 on, is
    displayed as [DD/MM/YYYY] with the same digits, on a host whose local
    time is at or ahead of UTC by less than a day. *)
Theorem formatDate_iso_round_trip (y1 y2 y3 y4 m1 m2 d1 d2 : ascii)
  (t : Z) :
  let isoDate :=
    String y1 (String y2 (String y3 (String y4 (String "-"
      (String m1 (String m2 (String "-" (String d1 (String d2 ""))))))))) in
  ISO.parseDateOnly isoDate = Some t ->
  y1 <> "0"%char ->
  0 <= LocalTZA t < DateTime.msPerDay ->
  formatDate legacyParse LocalTZA isoDate
  = String d1 (String d2 (String "/" (String m1 (String m2 (String "/"
      (String y1 (String y2 (String y3 (String y4 ""))))))))).
Proof.
  intros isoDate Hparse Hy1 Htz.
  unfold formatDate, Date_new. rewrite Hparse.
  cbn [getDate getMonth getFullYear option_map].
  unfold isoDate, ISO.parseDateOnly in Hparse.
  destruct (ISO.digits4 y1 y2 y3 y4) as [y|] eqn:Ey; [|discriminate].
  destruct (ISO.digits2 m1 m2) as [m|] eqn:Em; [|discriminate].
  destruct (ISO.digits2 d1 d2) as [d|] eqn:Ed; [|discriminate].
  destruct ((1 <=? m) && (m <=? 12) && (1 <=? d)
            && (d <=? ISO.DaysInMonth y (m - 1))) eqn:Hok; [|discriminate].
  assert (Et : t = DateTime.msPerDay * ISO.MakeDay y (m - 1) d)
    by congruence.
  clear Hparse.
  repeat (apply andb_prop in Hok as [Hok ?]).
  assert (Hday : DateTime.Day (LocalTime LocalTZA t)
                 = ISO.MakeDay y (m - 1) d).
  { unfold LocalTime, DateTime.Day. rewrite Et in Htz |- *.
    generalize dependent (ISO.MakeDay y (m - 1) d). intros D Htz.
    unfold DateTime.msPerDay in *. Z.div_mod_to_equations. lia. }
  destruct (calendar_of_MakeDay y (m - 1) d (LocalTime LocalTZA t))
    as (Cy & Cm & Cd); [lia | lia | exact Hday |].
  rewrite Cy, Cm, Cd.
  replace (m - 1 + 1) with m by lia.
  rewrite (digits2_print d1 d2 d Ed), (digits2_print m1 m2 m Em).
  destruct (digits4_print y1 y2 y3 y4 y Ey Hy1) as [_ ->].
  reflexivity.
Qed.

End RoundTrip.

Lemma formatDate_iso_round_trip_witness :
  formatDate isoOnly utc "2024-02-29" = "29/02/2024".
Proof.
  apply (formatDate_iso_round_trip isoOnly utc
           "2"%char "0"%char "2"%char "4"%char "0"%char "2"%char
           "2"%char "9"%char 1709164800000).
  - vm_compute. reflexivity.
  - discriminate.
  - vm_compute. split; [discriminate | reflexivity].
Defined.

(** ** Records and markers *)

Section GroupMore.

Context {A : Type}.
Variable keyof : A -> string.

Lemma group_add_concat (k : string) (v : A)
  (groups : list (string * list A)) :
  Permutation (List.concat (map snd (D3.group_add k v groups)))
    (v :: List.concat (map snd groups)).
Proof.
  induction groups as [|[k' vs] rest IH]; cbn.
  - reflexivity.
  - destruct (String.eqb k' k); cbn.
    + rewrite <- app_assoc. cbn. symmetry. apply Permutation_middle.
    + rewrite IH. symmetry. apply Permutation_middle.
Qed.

(** The groups share out the values: each value is in one group. *)
Lemma group_concat (values : list A) :
  Permutation (List.concat (map snd (D3.group values keyof))) values.
Proof.
  induction values as [|v values IH] using rev_ind; [reflexivity|].
  rewrite (group_snoc keyof), group_add_concat, IH.
  apply Permutation_cons_append.
Qed.

Lemma group_nonempty (values : list A) (k : string) (vs : list A) :
  In (k, vs) (D3.group values keyof) -> vs <> [].
Proof.
  intros Hin.
  destruct (group_spec keyof values) as (_ & Hkeys & Hgroups).
  rewrite (Hgroups k vs Hin).
  assert (Hk : In k (map keyof values)).
  { apply Hkeys. change k with (fst (k, vs)). now apply in_map. }
  apply in_map_iff in Hk as (x & Ex & Hx).
  assert (Hf : In x (filter (sameKey keyof k) values)).
  { apply filter_In. split; [exact Hx|].
    unfold sameKey. now apply String.eqb_eq. }
  intros E. rewrite E in Hf. exact Hf.
Qed.

Lemma group_add_key_list (k : string) (v : A)
  (groups : list (string * list A)) :
  map fst (D3.group_add k v groups)
  = if existsb (String.eqb k) (map fst groups) then map fst groups
    else (map fst groups ++ [k])%list.
Proof.
  induction groups as [|[k' vs] rest IH]; cbn; [reflexivity|].
  rewrite (String.eqb_sym k k').
  destruct (String.eqb k' k); cbn; [reflexivity|].
  rewrite IH. now destruct (existsb (String.eqb k) (map fst rest)).
Qed.

Lemma filter_filter (p q : string -> bool) (l : list string) :
  filter p (filter q l) = filter (fun y => q y && p y) l.
Proof.
  induction l as [|x l IH]; cbn; [reflexivity|].
  destruct (q x); cbn; [destruct (p x)|]; now rewrite IH.
Qed.

Lemma group_fold_keys (values : list A) :
  forall groups,
    map fst (fold_left (fun g v => D3.group_add (keyof v) v g) values groups)
    = (map fst groups
       ++ filter (fun k => negb (existsb (String.eqb k) (map fst groups)))
            (firstOccurrences (map keyof values)))%list.
Proof.
  induction values as [|x values IH]; intros groups; cbn [fold_left].
  - cbn. now rewrite app_nil_r.
  - rewrite IH, group_add_key_list. cbn [map firstOccurrences filter].
    destruct (existsb (String.eqb (keyof x)) (map fst groups)) eqn:Ex;
      cbn [negb].
    + f_equal. rewrite filter_filter. apply filter_ext. intros y.
      destruct (String.eqb_spec y (keyof x)) as [->|]; cbn; [|reflexivity].
      now rewrite Ex.
    + rewrite <- app_assoc. cbn [app]. do 2 f_equal.
      rewrite filter_filter. apply filter_ext. intros y.
      rewrite existsb_app. cbn [existsb]. rewrite orb_false_r.
      rewrite (String.eqb_sym y (keyof x)).
      destruct (String.eqb (keyof x) y);
        destruct (existsb (String.eqb y) (map fst groups)); reflexivity.
Qed.

(** The keys of the groups come in the order the keys are first met. *)
Lemma group_key_order (values : list A) :
  map fst (D3.group values keyof) = firstOccurrences (map keyof values).
Proof.
  unfold D3.group. rewrite group_fold_keys. cbn.
  induction (firstOccurrences (map keyof values)) as [|y l IH];
    cbn; [reflexivity | now rewrite IH].
Qed.

End GroupMore.

Lemma concat_length_ge {A : Type} (l : list (list A)) :
  Forall (fun x => x <> []) l ->
  (List.length l <= List.length (List.concat l))%nat.
Proof.
  induction 1 as [|x l Hx _ IH]; cbn; [lia|].
  rewrite length_app. destruct x; [contradiction | cbn; lia].
Qed.

Section Markers.

Variable legacyParse : string -> integral.

Lemma events_draw (data : list Data) (width height : Q) :
  map events (markers (draw legacyParse data width height))
  = map snd (D3.group data date).
Proof. rewrite markers_draw, map_map. reflexivity. Qed.

(** X10.  The markers share out the records: every record is listed under
    exactly one marker, no marker is without a record, and so there are
    no more markers than records. *)
Theorem every_record_under_one_marker (data : list Data)
  (width height : Q) :
  let s := draw legacyParse data width height in
  Permutation (List.concat (map events (markers s))) data
  /\ Forall (fun m => events m <> []) (markers s)
  /\ (List.length (markers s) <= List.length data)%nat.
Proof.
  intros s.
  assert (Hperm : Permutation (List.concat (map events (markers s))) data).
  { unfold s. rewrite events_draw. apply group_concat. }
  assert (Hne : Forall (fun m => events m <> []) (markers s)).
  { apply Forall_forall. intros m Hm. unfold s in Hm.
    rewrite markers_draw in Hm.
    apply in_map_iff in Hm as ([k vs] & <- & Hg). cbn [events snd].
    exact (group_nonempty date data k vs Hg). }
  split; [exact Hperm|]. split; [exact Hne|].
  rewrite <- (Permutation_length Hperm), <- (length_map events).
  apply concat_length_ge. rewrite Forall_map. exact Hne.
Qed.

(** X11.  The markers are drawn in the order in which their dates are
    first met in the records. *)
Theorem markers_in_order_of_first_date (data : list Data)
  (width height : Q) :
  map key (markers (draw legacyParse data width height))
  = firstOccurrences (map date data).
Proof. rewrite keys_draw. apply group_key_order. Qed.

End Markers.

(** ** Where the markers sit *)

Section Positions.

Variable legacyParse : string -> integral.

(** X14.  When the records hold two different valid dates, a marker of the
    earliest date is at x = 50 and a marker of the latest at
    x = width - 50, the two ends of the base line; both markers exist. *)
Theorem first_and_last_date_at_the_ends (data : list Data)
  (width height : Q) (lo hi : Z) :
  D3.min data (fun d => Date_new legacyParse (date d)) = Some lo ->
  D3.max data (fun d => Date_new legacyParse (date d)) = Some hi ->
  lo < hi ->
  let s := draw legacyParse data width height in
  (forall m t, In m (markers s) ->
               Date_new legacyParse (key m) = Some t ->
               exists q, cx (circle m) = Some (Num q)
                         /\ (t = lo -> (q == x1 (line s))%Q)
                         /\ (t = hi -> (q == x2 (line s))%Q))
  /\ (exists m, In m (markers s) /\ Date_new legacyParse (key m) = Some lo)
  /\ (exists m, In m (markers s) /\ Date_new legacyParse (key m) = Some hi).
Proof.
  intros Hmin Hmax Hlt s.
  split.
  - intros m t Hm Et.
    destruct (drawn_marker legacyParse data width height m t Hm Et)
      as (lo' & hi' & q & Hmin' & Hmax' & _ & _ & _ & _ & Ecx & _
          & Hfirst & Hlast & _).
    assert (lo' = lo) by congruence. assert (hi' = hi) by congruence.
    subst lo' hi'. exists q. split; [exact Ecx|].
    split; intros E; [exact (Hfirst Hlt E) | exact (Hlast Hlt E)].
  - assert (Hex : forall x, In x data ->
                    exists m, In m (markers s) /\ key m = date x).
    { intros x Hx.
      assert (Hk : In (date x) (map key (markers s))).
      { unfold s. rewrite keys_draw.
        apply (proj1 (proj2 (group_spec date data))). now apply in_map. }
      apply in_map_iff in Hk as (m & Ek & Hm). eauto. }
    pose proof (min_fold (fun d => Date_new legacyParse (date d)) data None)
      as Hlo.
    pose proof (max_fold (fun d => Date_new legacyParse (date d)) data None)
      as Hhi.
    unfold D3.min in Hmin. unfold D3.max in Hmax.
    cbv beta in Hlo, Hhi. rewrite Hmin in Hlo. rewrite Hmax in Hhi.
    destruct Hlo as ([|(x & Hx & Ex)] & _); [discriminate|].
    destruct Hhi as ([|(y & Hy & Ey)] & _); [discriminate|].
    destruct (Hex x Hx) as (m & Hm & Ek).
    destruct (Hex y Hy) as (m' & Hm' & Ek').
    split; [exists m | exists m']; (split; [assumption | congruence]).
Qed.

End Positions.

Lemma first_and_last_date_at_the_ends_witness :
  exists m,
    In m (markers (draw isoOnly exampleData 800 600))
    /\ Date_new isoOnly (key m) = Some 1704240000000.
Proof.
  exact (proj2 (proj2
           (first_and_last_date_at_the_ends isoOnly exampleData 800 600
              1704067200000 1704240000000
              (proj1 example_min_max) (proj2 example_min_max)
              ltac:(lia)))).
Defined.

(** X12.  Between the two ends a marker need not be on the base line: the
    scale computes in binary64.  In a viewport 100 wide the base line is
    the point x = 50, and of the dates 2024-01-01, 2024-01-02 and
    2024-01-13 the second is drawn at 49.99999999999999, left of the
    line. *)
Theorem marker_left_of_the_base_line :
  exists v scene m q,
    update isoOnly utc
      (datedOptions ["2024-01-01"; "2024-01-02"; "2024-01-13"] 100)
      constructor
    = (Normal tt, v)
    /\ target v = Some scene
    /\ (x1 (line scene) == 50)%Q /\ (x2 (line scene) == 50)%Q
    /\ nth_error (markers scene) 1 = Some m
    /\ key m = "2024-01-02"
    /\ cx (circle m) = Some (Num q)
    /\ (q == 7036874417766399 # 140737488355328)%Q
    /\ (q < x1 (line scene))%Q.
Proof.
  eexists. eexists. eexists. eexists.
  split; [vm_compute; reflexivity|]. split; [reflexivity|].
  split; [vm_compute; reflexivity|]. split; [vm_compute; reflexivity|].
  split; [reflexivity|]. split; [reflexivity|]. split; [reflexivity|].
  split; vm_compute; reflexivity.
Qed.

(** X13.  Nor do the markers always follow the dates: in a viewport 100
    wide, of the dates 2024-01-01, 2024-01-05, 2024-01-06 and 2024-01-16
    the second is drawn at 50.00000000000001 and the third, a day later,
    at 50, left of it. *)
Theorem later_marker_left_of_earlier :
  exists v scene m m' q q',
    update isoOnly utc
      (datedOptions ["2024-01-01"; "2024-01-05"; "2024-01-06"; "2024-01-16"]
         100)
      constructor
    = (Normal tt, v)
    /\ target v = Some scene
    /\ nth_error (markers scene) 1 = Some m
    /\ nth_error (markers scene) 2 = Some m'
    /\ key m = "2024-01-05" /\ key m' = "2024-01-06"
    /\ cx (circle m) = Some (Num q)
    /\ cx (circle m') = Some (Num q')
    /\ (q == 7036874417766401 # 140737488355328)%Q
    /\ (q' == 50)%Q
    /\ (q' < q)%Q.
Proof.
  eexists. eexists. eexists. eexists. eexists. eexists.
  split; [vm_compute; reflexivity|]. split; [reflexivity|].
  split; [reflexivity|]. split; [reflexivity|].
  split; [reflexivity|]. split; [reflexivity|].
  split; [reflexivity|]. split; [reflexivity|].
  split; [vm_compute; reflexivity|]. split; vm_compute; reflexivity.
Qed.

(** ** Pointer events, in any order *)

Lemma Forall_update_nth {A : Type} (P : A -> Prop) (f : A -> A)
  (i : nat) (l : list A) :
  (forall x, P x -> P (f x)) -> Forall P l -> Forall P (update_nth i f l).
Proof.
  intros Hf H. revert i.
  induction H as [|x l Hx Hl IH]; intros [|i]; cbn; constructor; auto.
Qed.

Lemma update_nth_twice {A : Type} (f g : A -> A) (i : nat) (l : list A) :
  update_nth i g (update_nth i f l) = update_nth i (fun x => g (f x)) l.
Proof.
  revert i. induction l as [|x l IH]; intros [|i]; cbn; try reflexivity.
  now rewrite IH.
Qed.

Lemma map_update_nth_same {A B : Type} (p : A -> B) (f : A -> A) (i : nat)
  (l : list A) :
  (forall x, nth_error l i = Some x -> p (f x) = p x) ->
  map p (update_nth i f l) = map p l.
Proof.
  revert i. induction l as [|x l IH]; intros [|i] H; cbn; try reflexivity.
  - now rewrite H.
  - rewrite IH; [reflexivity | exact H].
Qed.

Lemma handle_states (s : Scene) (e : PointerEvent) :
  Forall restingOrHovered (markers s) ->
  Forall restingOrHovered (markers (handle s e)).
Proof.
  intros H.
  destruct e as [i|i x y|i]; cbn [handle];
    unfold mouseover, mousemove, mouseout;
    destruct (nth_error (markers s) i); cbn [markers]; try exact H;
    apply Forall_update_nth; try exact H;
    intros m' [(_ & Hf & _)|(_ & Hf & _)];
    solve [ left; repeat split; first [exact Hf | reflexivity]
          | right; repeat split; first [exact Hf | reflexivity] ].
Qed.

Lemma handle_frame (s : Scene) (e : PointerEvent) :
  svg_width (handle s e) = svg_width s
  /\ svg_height (handle s e) = svg_height s
  /\ line (handle s e) = line s
  /\ (visibility (tooltip s) = "hidden"
      \/ visibility (tooltip s) = "visible" ->
      visibility (tooltip (handle s e)) = "hidden"
      \/ visibility (tooltip (handle s e)) = "visible").
Proof.
  destruct e as [i|i x y|i]; cbn [handle];
    unfold mouseover, mousemove, mouseout;
    destruct (nth_error (markers s) i);
    cbn [svg_width svg_height line tooltip visibility]; auto.
Qed.

Section Pointer.

Variable legacyParse : string -> integral.

(** X15.  Whatever pointer events a drawn scene receives, in whatever
    order, the svg and the base line stay as drawn, no marker is added,
    removed or moved, none changes its fill or its records, every marker
    is in one of the two states resting and hovered, and the tooltip is
    hidden or visible. *)
Theorem pointer_events_keep_the_drawing (data : list Data)
  (width height : Q) (es : list PointerEvent) :
  let s0 := draw legacyParse data width height in
  let s := interact es s0 in
  svg_width s = width /\ svg_height s = height /\ line s = line s0
  /\ map fixedPart (markers s) = map fixedPart (markers s0)
  /\ List.length (markers s) = List.length (markers s0)
  /\ Forall restingOrHovered (markers s)
  /\ (visibility (tooltip s) = "hidden"
      \/ visibility (tooltip s) = "visible").
Proof.
  intros s0 s.
  assert (Hfix : map fixedPart (markers s) = map fixedPart (markers s0))
    by apply interact_fixed.
  assert (Hrest : forall es' t,
             Forall restingOrHovered (markers t) ->
             Forall restingOrHovered (markers (interact es' t))).
  { unfold interact. induction es' as [|e es' IH]; intros t Ht;
      cbn [fold_left]; [exact Ht|]. apply IH, handle_states, Ht. }
  assert (Hframe : forall es' t,
             svg_width (interact es' t) = svg_width t
             /\ svg_height (interact es' t) = svg_height t
             /\ line (interact es' t) = line t
             /\ (visibility (tooltip t) = "hidden"
                 \/ visibility (tooltip t) = "visible" ->
                 visibility (tooltip (interact es' t)) = "hidden"
                 \/ visibility (tooltip (interact es' t)) = "visible")).
  { unfold interact. induction es' as [|e es' IH]; intros t;
      cbn [fold_left]; [auto|].
    destruct (handle_frame t e) as (Hw & Hh & Hl & Hv).
    destruct (IH (handle t e)) as (Hw' & Hh' & Hl' & Hv').
    repeat split; try congruence. auto. }
  destruct (Hframe es s0) as (Hw & Hh & Hl & Hv).
  split; [exact Hw|]. split; [exact Hh|]. split; [exact Hl|].
  split; [exact Hfix|].
  split.
  { rewrite <- (length_map fixedPart (markers s)), Hfix.
    apply length_map. }
  split.
  { apply Hrest. eapply Forall_impl; [|apply resting_draw].
    intros m Hm. now left. }
  apply Hv. now left.
Qed.

(** X16.  The tooltip only ever lists the records of one date: after any
    pointer events on a drawn scene its text is empty, or the entries of
    the records of the date of one of the markers, all of them, in the
    order met.  The text is kept when the pointer leaves, which hides the
    tooltip, and when it moves: only a pointer that enters a marker
    writes it, with the entries of that marker's date. *)
Theorem tooltip_shows_one_date (data : list Data) (width height : Q)
  (es : list PointerEvent) :
  let s := interact es (draw legacyParse data width height) in
  showsOneDate data s
  /\ (forall i, html (tooltip (mouseout i s)) = html (tooltip s)
                /\ (nth_error (markers s) i <> None ->
                    visibility (tooltip (mouseout i s)) = "hidden"))
  /\ (forall i pageX pageY,
        html (tooltip (mousemove i pageX pageY s)) = html (tooltip s))
  /\ (forall i m, nth_error (markers s) i = Some m ->
                  html (tooltip (mouseover i s))
                  = join "<br/><br/>"
                      (map tooltipEntry (filter (sameKey date (key m)) data))).
Proof.
  intros s.
  assert (Hkeep : (forall i, html (tooltip (mouseout i s)) = html (tooltip s)
                     /\ (nth_error (markers s) i <> None ->
                         visibility (tooltip (mouseout i s)) = "hidden"))
                  /\ (forall i pageX pageY,
                         html (tooltip (mousemove i pageX pageY s))
                         = html (tooltip s))).
  { split.
    - intros i. unfold mouseout.
      destruct (nth_error (markers s) i); split; try reflexivity.
      intros H. now contradiction H.
    - intros i pageX pageY. unfold mousemove.
      destruct (nth_error (markers s) i); reflexivity. }
  revert Hkeep. unfold s. clear s. intros Hkeep.
  set (s0 := draw legacyParse data width height).
  set (grouped := fun m : Marker =>
                    events m = filter (sameKey date (key m)) data).
  assert (H0 : Forall grouped (markers s0) /\ showsOneDate data s0).
  { split; [|now left]. apply Forall_forall. intros m Hm.
    unfold s0 in Hm. rewrite markers_draw in Hm.
    apply in_map_iff in Hm as ([k vs] & <- & Hg).
    destruct (group_spec date data) as (_ & _ & Hgroups).
    unfold grouped. cbn [events key fst snd]. now apply Hgroups. }
  assert (Hstep : forall t e,
             Forall grouped (markers t) /\ showsOneDate data t ->
             Forall grouped (markers (handle t e))
             /\ showsOneDate data (handle t e)).
  { intros t e [Hg Hs].
    assert (Hkeys : map key (markers (handle t e)) = map key (markers t)).
    { pose proof (handle_fixed t e) as Hf.
      apply (f_equal (map fst)) in Hf. rewrite !map_map in Hf. exact Hf. }
    split.
    - destruct e as [i|i x y|i]; cbn [handle];
        unfold mouseover, mousemove, mouseout;
        destruct (nth_error (markers t) i); cbn [markers]; try exact Hg;
        apply Forall_update_nth; try exact Hg; intros m' Hm'; exact Hm'.
    - unfold showsOneDate. rewrite Hkeys.
      destruct e as [i|i x y|i]; cbn [handle];
        unfold mouseover, mousemove, mouseout;
        destruct (nth_error (markers t) i) as [m|] eqn:Em;
        cbn [tooltip html]; try exact Hs.
      right. exists (key m). split.
      + apply in_map. now apply nth_error_In in Em.
      + rewrite Forall_forall in Hg.
        now rewrite (Hg m (nth_error_In _ _ Em)). }
  assert (Hinv : Forall grouped (markers (interact es s0))
                 /\ showsOneDate data (interact es s0)).
  { clear Hkeep. clearbody s0. revert s0 H0. unfold interact.
    induction es as [|e es IH]; intros t Ht; cbn [fold_left].
    - exact Ht.
    - apply IH, Hstep, Ht. }
  destruct Hinv as [Hg Hs]. destruct Hkeep as [Hout Hmove].
  split; [exact Hs|]. split; [exact Hout|]. split; [exact Hmove|].
  intros i m Hm. unfold mouseover. rewrite Hm. cbn [tooltip html].
  rewrite Forall_forall in Hg.
  now rewrite (Hg m (nth_error_In _ _ Hm)).
Qed.

End Pointer.

(** X17.  A pointer that enters a resting marker and leaves it again
    leaves every circle as it was, and the tooltip hidden; an event for a
    marker that does not exist changes nothing. *)
Theorem enter_then_leave (s : Scene) (i : nat) :
  (nth_error (markers s) i = None ->
   mouseover i s = s /\ mouseout i s = s
   /\ forall pageX pageY, mousemove i pageX pageY s = s)
  /\ (forall m, nth_error (markers s) i = Some m -> resting m ->
      map circle (markers (mouseout i (mouseover i s)))
      = map circle (markers s)
      /\ visibility (tooltip (mouseout i (mouseover i s))) = "hidden").
Proof.
  split.
  - intros H. unfold mouseover, mouseout, mousemove. rewrite H. auto.
  - intros m Hm (Hr & Hf & Hs & Hw).
    assert (H1 : nth_error (markers (mouseover i s)) i
                 = Some (transitionTo 8 "red" 3 m)).
    { unfold mouseover. rewrite Hm. cbn [markers].
      now rewrite nth_error_update_nth, Nat.eqb_refl, Hm. }
    unfold mouseout. rewrite H1. cbn [markers tooltip visibility].
    split; [|reflexivity].
    unfold mouseover. rewrite Hm. cbn [markers].
    rewrite update_nth_twice. apply map_update_nth_same.
    intros x Hx. rewrite Hm in Hx. injection Hx as <-.
    unfold transitionTo. cbn [circle cx cy fill].
    destruct (circle m) as [cx0 cy0 r0 fill0 stroke0 sw0]. cbn in *.
    congruence.
Qed.

Lemma enter_then_leave_witness :
  map circle
    (markers (mouseout 0 (mouseover 0 (draw isoOnly exampleData 800 600))))
  = map circle (markers (draw isoOnly exampleData 800 600)).
Proof.
  destruct (nth_error (markers (draw isoOnly exampleData 800 600)) 0)
    as [m|] eqn:Hm; [|vm_compute in Hm; discriminate].
  assert (Hr : resting m).
  { pose proof (resting_draw isoOnly exampleData 800 600) as H.
    rewrite Forall_forall in H. apply H. now apply nth_error_In in Hm. }
  exact (proj1 (proj2 (enter_then_leave (draw isoOnly exampleData 800 600)
                         0%nat) m Hm Hr)).
Defined.

(** ** Symbol names *)

(** X18.  [generateSymbol] draws a circle for every name it does not
    know, and tells the six other names apart: a name that gets the shape
    of one of them is that name. *)
Theorem generateSymbol_names (symbolPath : SymbolType -> string) :
  (forall name, ~ In name otherSymbolNames ->
                generateSymbol symbolPath name
                = generateSymbol symbolPath "circle")
  /\ (forall a b, In a otherSymbolNames ->
                  symbolTypeOf b = symbolTypeOf a -> b = a)
  /\ (forall a, In a otherSymbolNames -> symbolTypeOf a <> symbolCircle).
Proof.
  split; [|split].
  - intros name Hn. unfold generateSymbol. f_equal.
    unfold symbolTypeOf.
    repeat match goal with
           | |- context [String.eqb name ?k] =>
               destruct (String.eqb_spec name k) as [->|]
           end; try reflexivity; exfalso; apply Hn; cbn; tauto.
  - intros a b Ha E. cbn in Ha.
    repeat (destruct Ha as [<-|Ha]); try contradiction;
      cbn in E; revert E; unfold symbolTypeOf;
      repeat match goal with
             | |- context [String.eqb b ?k] =>
                 destruct (String.eqb_spec b k) as [->|]
             end; intros E; try discriminate; reflexivity.
  - intros a Ha. cbn in Ha.
    repeat (destruct Ha as [<-|Ha]); try contradiction; discriminate.
Qed.

Lemma generateSymbol_names_witness :
  generateSymbol (fun _ => "M0,0") "hexagon"
  = generateSymbol (fun _ => "M0,0") "circle".
Proof.
  apply (proj1 (generateSymbol_names (fun _ => "M0,0"))).
  cbn. intros H.
  repeat (destruct H as [H|H]; [discriminate|]). exact H.
Defined.

(** ** What a returned record holds *)

Section Records.

Variable legacyParse : string -> integral.
Variable LocalTZA : Z -> Z.

(** X19.  When [transformData] returns at least one record, each of the
    five roles is resolved: the defaults that its guards would supply for
    an unresolved role are never used.  Every record returned holds the
    texts of its row, the date as [formatDate] shows it, and an event
    label of at most 10 characters. *)
Theorem returned_records (table : DataViewTable) (v v' : Visual)
  (out : list Data) :
  transformData legacyParse LocalTZA table v = (Normal out, v') ->
  let idColumns := scanColumns (columns table) O noColumns in
  (out <> [] -> forall R, idOf R idColumns <> None)
  /\ Forall (fun d =>
               dateDisplay d = formatDate legacyParse LocalTZA (date d)
               /\ eventDisplay d = formatStringDisplay (event d)
               /\ (String.length (eventDisplay d) <= 10)%nat
               /\ exists row, In row (rows table)
                              /\ derivedFrom legacyParse LocalTZA
                                   idColumns row d)
       out.
Proof.
  intros Hrun idColumns.
  destruct (transformData_cases legacyParse LocalTZA table v)
    as [(_ & out' & w & Hrun' & Hder & _)|(_ & w & Hrun' & _)];
    rewrite Hrun in Hrun'; [|discriminate].
  injection Hrun' as <- <-. fold idColumns in Hder.
  assert (Hall : Forall (fun d => exists row,
                           In row (rows table)
                           /\ derivedFrom legacyParse LocalTZA
                                idColumns row d) out).
  { clear Hrun. induction Hder as [|row d rows out Hd _ IH];
      constructor.
    - exists row. split; [now left | exact Hd].
    - eapply Forall_impl; [|exact IH].
      intros d' (row' & Hin & Hd'). exists row'. split; [now right|].
      exact Hd'. }
  split.
  - intros Hne R. destruct out as [|d rest]; [contradiction|].
    inversion Hall as [|? ? (row & _ & Hd) _]; subst.
    destruct Hd as (Da & Ea & Sa & Ca & Ya & _).
    intros E. destruct R; cbn [idOf] in E; rewrite E in *; discriminate.
  - eapply Forall_impl; [|exact Hall].
    intros d (row & Hin & Hd).
    pose proof Hd as (_ & _ & _ & _ & _ & DD & ED).
    split; [exact DD|]. split; [exact ED|].
    split; [|eauto].
    rewrite ED, formatStringDisplay_length. lia.
Qed.

End Records.

Lemma returned_records_witness :
  idOf RSymbol (scanColumns (columns exampleTable) O noColumns) <> None.
Proof.
  destruct (transformData isoOnly utc exampleTable constructor)
    as [[out|e] v'] eqn:Hrun; [|vm_compute in Hrun; discriminate].
  refine (proj1 (returned_records isoOnly utc exampleTable constructor v'
                   out Hrun) _ RSymbol).
  vm_compute in Hrun. injection Hrun as <- _. discriminate.
Defined.
